(** * SHIELD: span reconciliation, fixed-width extraction and deterministic
      pseudonymization.

    A shallow embedding of
    - [FF Parser/data_obfuscator.py]: [_pseudo_digit_stream],
      [deterministic_numeric_like], [PSEUDO_KEY];
    - [SHIELD/pii_detection.py]: [_sanitize_label], [_within],
      [_merge_and_dedupe];
    - [SHIELD/feedback_loop.py]: [compute_line_position], [sanitize_label],
      [normalize_entity], [dedupe_overlaps], [collect_user_feedback];
    - [SHIELD/utils.py]: [extract_spans_from_smart_config].

    Conventions.  A Python [str] is a sequence of code points; the model keeps
    the code points U+0000..U+00FF, one [ascii] each ([ascii] number = code
    point), so a [str] is a [list ascii].  Python [int] is [Z].  A call that
    can raise returns an [outcome]. *)

From Stdlib Require Import ZArith String Ascii Bool Lia Arith.
From Stdlib Require Import DecimalString Decimal.
From Stdlib Require Import List.
Import ListNotations.

Open Scope string_scope.
Open Scope list_scope.
Open Scope Z_scope.

(* ------------------------------------------------------------------ *)
(** ** Python values *)

Definition str := list ascii.

Definition py (s : string) : str := list_ascii_of_string s.

Definition code (c : ascii) : Z := Z.of_N (N_of_ascii c).

Definition chr (n : Z) : ascii := ascii_of_N (Z.to_N n).

Inductive exn : Set :=
| IndexError
| EOFError.

Inductive outcome (A : Type) : Type :=
| Returns (a : A)
| Raises (e : exn).

Arguments Returns {A} a.
Arguments Raises {A} e.

(** [len(x)] as a Python int. *)
Definition len {A} (l : list A) : Z := Z.of_nat (length l).

(** [str(i)] for a non-negative int. *)
Definition str_of_nat (i : nat) : str :=
  py (NilZero.string_of_uint (Nat.to_uint i)).

(** [s.encode("utf-8")] on code points below U+0100: one byte below U+0080,
    two bytes from there on. *)
Definition utf8_char (c : ascii) : list Z :=
  let n := code c in
  if n <? 128 then [n]
  else [Z.lor 192 (Z.shiftr n 6); Z.lor 128 (Z.land n 63)].

Definition encode_utf8 (s : str) : list Z := flat_map utf8_char s.

(* ------------------------------------------------------------------ *)
(** ** hashlib.sha256 and hmac.new(key, msg, hashlib.sha256).digest()

    The round constants and the initial state are written in decimal.

    Library code the pseudonymizer calls; bytes are [Z] in [0, 256),
    words are [Z] in [0, 2^32). *)

Module Hashlib.

Definition wrap32 (x : Z) : Z := x mod 4294967296.

Definition add32 (x y : Z) : Z := wrap32 (x + y).

Definition rotr (n x : Z) : Z :=
  Z.lor (Z.shiftr x n) (wrap32 (Z.shiftl x (32 - n))).

Definition not32 (x : Z) : Z := 4294967295 - x.

Definition ch (x y z : Z) : Z := Z.lxor (Z.land x y) (Z.land (not32 x) z).

Definition maj (x y z : Z) : Z :=
  Z.lxor (Z.lxor (Z.land x y) (Z.land x z)) (Z.land y z).

Definition bsig0 (x : Z) : Z := Z.lxor (Z.lxor (rotr 2 x) (rotr 13 x)) (rotr 22 x).

Definition bsig1 (x : Z) : Z := Z.lxor (Z.lxor (rotr 6 x) (rotr 11 x)) (rotr 25 x).

Definition ssig0 (x : Z) : Z := Z.lxor (Z.lxor (rotr 7 x) (rotr 18 x)) (Z.shiftr x 3).

Definition ssig1 (x : Z) : Z := Z.lxor (Z.lxor (rotr 17 x) (rotr 19 x)) (Z.shiftr x 10).

Definition round_constants : list Z :=
  [ 1116352408; 1899447441; 3049323471;
    3921009573; 961987163; 1508970993;
    2453635748; 2870763221; 3624381080;
    310598401; 607225278; 1426881987;
    1925078388; 2162078206; 2614888103;
    3248222580; 3835390401; 4022224774;
    264347078; 604807628; 770255983;
    1249150122; 1555081692; 1996064986;
    2554220882; 2821834349; 2952996808;
    3210313671; 3336571891; 3584528711;
    113926993; 338241895; 666307205;
    773529912; 1294757372; 1396182291;
    1695183700; 1986661051; 2177026350;
    2456956037; 2730485921; 2820302411;
    3259730800; 3345764771; 3516065817;
    3600352804; 4094571909; 275423344;
    430227734; 506948616; 659060556;
    883997877; 958139571; 1322822218;
    1537002063; 1747873779; 1955562222;
    2024104815; 2227730452; 2361852424;
    2428436474; 2756734187; 3204031479;
    3329325298 ].

Record state : Set := mkState {
  ha : Z; hb : Z; hc : Z; hd : Z; he : Z; hf : Z; hg : Z; hh : Z
}.

Definition initial_state : state :=
  mkState 1779033703 3144134277 1013904242 2773480762
          1359893119 2600822924 528734635 1541459225.

(** Big-endian bytes of a 32-bit word and back. *)
Definition bytes_of_word (x : Z) : list Z :=
  [ Z.shiftr x 24 mod 256; Z.shiftr x 16 mod 256; Z.shiftr x 8 mod 256; x mod 256 ].

Fixpoint words_of_bytes (bs : list Z) : list Z :=
  match bs with
  | b0 :: b1 :: b2 :: b3 :: rest =>
      (((b0 * 256 + b1) * 256 + b2) * 256 + b3) :: words_of_bytes rest
  | _ => []
  end.

(** Padding: the bit 1, zeros up to 56 mod 64, the bit length on 8 bytes. *)
Definition padding (n : nat) : list Z :=
  let l := Z.of_nat n in
  let zeros := Z.to_nat ((55 - l) mod 64) in
  128 :: repeat 0 zeros
    ++ bytes_of_word (Z.shiftr (8 * l) 32 mod 4294967296)
    ++ bytes_of_word ((8 * l) mod 4294967296).

(** Message schedule: the sixteen words of the block, then 48 derived words. *)
Fixpoint schedule_ext (n : nat) (rev_w : list Z) : list Z :=
  match n with
  | O => rev_w
  | S n' =>
      let w2 := nth 1 rev_w 0 in
      let w7 := nth 6 rev_w 0 in
      let w15 := nth 14 rev_w 0 in
      let w16 := nth 15 rev_w 0 in
      schedule_ext n'
        (add32 (add32 (ssig1 w2) w7) (add32 (ssig0 w15) w16) :: rev_w)
  end.

Definition schedule (block_words : list Z) : list Z :=
  rev (schedule_ext 48 (rev block_words)).

Definition round (st : state) (kw : Z * Z) : state :=
  let (k, w) := kw in
  let t1 := add32 (add32 (add32 (hh st) (bsig1 (he st)))
                         (add32 (ch (he st) (hf st) (hg st)) k)) w in
  let t2 := add32 (bsig0 (ha st)) (maj (ha st) (hb st) (hc st)) in
  mkState (add32 t1 t2) (ha st) (hb st) (hc st)
          (add32 (hd st) t1) (he st) (hf st) (hg st).

Definition compress (st : state) (block : list Z) : state :=
  let w := schedule (words_of_bytes block) in
  let r := fold_left round (combine round_constants w) st in
  mkState (add32 (ha st) (ha r)) (add32 (hb st) (hb r))
          (add32 (hc st) (hc r)) (add32 (hd st) (hd r))
          (add32 (he st) (he r)) (add32 (hf st) (hf r))
          (add32 (hg st) (hg r)) (add32 (hh st) (hh r)).

(** Consume the padded message 64 bytes at a time. *)
Fixpoint absorb (nblocks : nat) (st : state) (bs : list Z) : state :=
  match nblocks with
  | O => st
  | S k => absorb k (compress st (firstn 64 bs)) (skipn 64 bs)
  end.

Definition digest_of_state (st : state) : list Z :=
  bytes_of_word (ha st) ++ bytes_of_word (hb st) ++ bytes_of_word (hc st)
  ++ bytes_of_word (hd st) ++ bytes_of_word (he st) ++ bytes_of_word (hf st)
  ++ bytes_of_word (hg st) ++ bytes_of_word (hh st).

Definition sha256 (msg : list Z) : list Z :=
  let padded := msg ++ padding (length msg) in
  digest_of_state (absorb ((length padded / 64)%nat) initial_state padded).

(** HMAC (RFC 2104) with SHA-256: block size 64. *)
Definition hmac_key_block (key : list Z) : list Z :=
  let k := if (64 <? length key)%nat then sha256 key else key in
  k ++ repeat 0 (64 - length k)%nat.

Definition hmac_sha256 (key msg : list Z) : list Z :=
  let kb := hmac_key_block key in
  let inner := sha256 (map (Z.lxor 54) kb ++ msg) in
  sha256 (map (Z.lxor 92) kb ++ inner).

End Hashlib.

Definition hex_of_bytes (bs : list Z) : str :=
  let hexdigits := py "0123456789abcdef" in
  flat_map (fun b => [nth (Z.to_nat (b / 16)) hexdigits "?"%char;
                      nth (Z.to_nat (b mod 16)) hexdigits "?"%char]) bs.

(* ------------------------------------------------------------------ *)
(** ** Character classes of Python on U+0000..U+00FF *)

(** [\d] of [re] on a [str] pattern: the decimal digits (category Nd). *)
Definition re_digit (c : ascii) : bool :=
  (48 <=? code c) && (code c <=? 57).

(** [str.isdigit]: the decimal digits and the superscript digits
    U+00B2, U+00B3, U+00B9. *)
Definition isdigit (c : ascii) : bool :=
  re_digit c || (code c =? 178) || (code c =? 179) || (code c =? 185).

(** [str.isspace]: what [strip], [lstrip] and [rstrip] remove. *)
Definition isspace (c : ascii) : bool :=
  ((9 <=? code c) && (code c <=? 13))
  || ((28 <=? code c) && (code c <=? 32))
  || (code c =? 133) || (code c =? 160).

(* ------------------------------------------------------------------ *)
(** ** data_obfuscator.py: deterministic numeric pseudonymization *)

(** [PSEUDO_KEY = os.getenv("SHIELD_PSEUDO_KEY", "CHANGE-ME-IN-ENV")];
    [env] is the value of the environment variable, [None] when unset. *)
Definition PSEUDO_KEY (env : option str) : str :=
  match env with
  | Some k => k
  | None => py "CHANGE-ME-IN-ENV"
  end.

(** One HMAC block of the stream: [hmac.new(key, f"{seed}|{i}".encode("utf-8"),
    hashlib.sha256).digest()], each byte taken modulo 10. *)
Definition stream_block (key : list Z) (seed : str) (i : nat) : list Z :=
  map (fun b => b mod 10)
      (Hashlib.hmac_sha256 key (encode_utf8 (seed ++ py "|" ++ str_of_nat i))).

(** The [while len(out) < n] loop; every turn appends one block, so [fuel]
    turns are enough as soon as [fuel] reaches [n]. *)
Fixpoint stream_loop (fuel : nat) (key : list Z) (seed : str) (n : nat)
    (out : list Z) (i : nat) : list Z :=
  if (length out <? n)%nat then
    match fuel with
    | O => firstn n out
    | S fuel' => stream_loop fuel' key seed n (out ++ stream_block key seed i) (S i)
    end
  else firstn n out.

Definition _pseudo_digit_stream (key : list Z) (seed : str) (n : nat) : list Z :=
  stream_loop n key seed n [] 0.

(** The reinsertion loop [for ch in s]: [idx] walks [new_digits]. *)
Fixpoint reinsert (s new_digits : str) (idx : nat) (result : str) : outcome str :=
  match s with
  | [] => Returns result
  | ch :: rest =>
      if isdigit ch then
        match nth_error new_digits idx with
        | Some d => reinsert rest new_digits (S idx) (result ++ [d])
        | None => Raises IndexError
        end
      else reinsert rest new_digits idx (result ++ [ch])
  end.

Definition deterministic_numeric_like (value : str) (preserve_last : Z) (key : str)
  : outcome str :=
  let s := value in
  let digits := filter re_digit s in
  match digits with
  | [] => Returns s
  | _ :: _ =>
      let keep :=
        if (0 <? preserve_last) && (preserve_last <? len digits)
        then skipn (length digits - Z.to_nat preserve_last) digits
        else [] in
      let repl_len := (length digits - length keep)%nat in
      let stream := _pseudo_digit_stream (encode_utf8 key) digits repl_len in
      let new_digits := map (fun d => chr (48 + d)) stream ++ keep in
      reinsert s new_digits 0 []
  end.

(** A call that leaves [key] to its default, in a process whose environment
    variable is [env]. *)
Definition deterministic_numeric_like_default (env : option str) (value : str)
    (preserve_last : Z) : outcome str :=
  deterministic_numeric_like value preserve_last (PSEUDO_KEY env).

(** The inputs on which [\d] and [str.isdigit] agree. *)
Definition decimal_only (value : str) : Prop :=
  Forall (fun c => isdigit c = re_digit c) value.

(** Number of decimal digits of [s] strictly before index [i]. *)
Definition digits_before (i : nat) (s : str) : nat :=
  length (filter re_digit (firstn i s)).

(** A value of the digit stream. *)
Definition is_decimal_value (d : Z) : Prop := 0 <= d < 10.

(** The [keep] and [new_digits] of [deterministic_numeric_like], named. *)
Definition kept_digits (digits : str) (preserve_last : Z) : str :=
  if (0 <? preserve_last) && (preserve_last <? len digits)
  then skipn (length digits - Z.to_nat preserve_last) digits
  else [].

Definition new_digits_of (value : str) (preserve_last : Z) (key : str) : str :=
  let digits := filter re_digit value in
  let keep := kept_digits digits preserve_last in
  map (fun d => chr (48 + d))
      (_pseudo_digit_stream (encode_utf8 key) digits (length digits - length keep))
  ++ keep.


(* ------------------------------------------------------------------ *)
(** ** More of Python's [str] on U+0000..U+00FF *)

Definition str_eqb (a b : str) : bool :=
  if list_eq_dec ascii_dec a b then true else false.

(** [s.replace(old, new)] for one-character [old] and [new]. *)
Definition replace_char (old new : ascii) (s : str) : str :=
  map (fun c => if Ascii.eqb c old then new else c) s.

(** [str.upper], one character at a time: a-z and the Latin-1 lower-case
    letters move down by 32, U+00DF becomes "SS".  The upper-case forms of
    U+00B5 and U+00FF lie outside the range; the two are left as they are. *)
Definition upper_char (c : ascii) : str :=
  let n := code c in
  if ((97 <=? n) && (n <=? 122))
     || ((224 <=? n) && (n <=? 254) && negb (n =? 247))
  then [chr (n - 32)]
  else if n =? 223 then py "SS"
  else [c].

Definition upper (s : str) : str := flat_map upper_char s.

(** [str.lower]: A-Z and the Latin-1 upper-case letters move up by 32. *)
Definition lower_char (c : ascii) : ascii :=
  let n := code c in
  if ((65 <=? n) && (n <=? 90))
     || ((192 <=? n) && (n <=? 222) && negb (n =? 215))
  then chr (n + 32)
  else c.

Definition lower (s : str) : str := map lower_char s.

Fixpoint lstrip (s : str) : str :=
  match s with
  | c :: rest => if isspace c then lstrip rest else s
  | [] => []
  end.

Definition rstrip (s : str) : str := rev (lstrip (rev s)).

Definition strip (s : str) : str := rstrip (lstrip s).

(** [text[a:b]] for [0 <= a] and [0 <= b]. *)
Definition slice {A} (l : list A) (a b : nat) : list A :=
  firstn (b - a) (skipn a l).

(** [text[a:b]] for Python ints: a negative index counts from the end, and
    both are clamped to [0, len]. *)
Definition slice_index (n i : Z) : nat :=
  Z.to_nat (Z.min n (Z.max 0 (if i <? 0 then i + n else i))).

Definition py_slice {A} (l : list A) (a b : Z) : list A :=
  slice l (slice_index (len l) a) (slice_index (len l) b).

(* ------------------------------------------------------------------ *)
(** ** [list.sort(key=...)] and [sorted]: a stable sort

    [lt a b] says that the key of [a] is strictly below the key of [b];
    elements with equal keys keep their order. *)

Section StableSort.
Context {A : Type} (lt : A -> A -> bool).

Fixpoint insert_stable (x : A) (l : list A) : list A :=
  match l with
  | [] => [x]
  | y :: l' => if lt y x then y :: insert_stable x l' else x :: l
  end.

Fixpoint sort_stable (l : list A) : list A :=
  match l with
  | [] => []
  | x :: l' => insert_stable x (sort_stable l')
  end.
End StableSort.

(** No later element has a key strictly below an earlier one. *)
Definition ascending {A} (lt : A -> A -> bool) (l : list A) : Prop :=
  ForallOrdPairs (fun a b => lt b a = false) l.

(** The key [(start, -end)], compared as Python compares tuples. *)
Definition span_key_lt (s1 e1 s2 e2 : Z) : bool :=
  (s1 <? s2) || ((s1 =? s2) && (- e1 <? - e2)).

(** [enumerate(l)]. *)
Definition enumerate {A} (l : list A) : list (nat * A) :=
  combine (seq 0 (length l)) l.

(* ------------------------------------------------------------------ *)
(** ** pii_detection.py: [_merge_and_dedupe] *)

Module Pii.

(** [lbl], or the empty string when [lbl] is falsy, through
    [.replace(" ", "_").replace("-", "_").upper()] *)
Definition _sanitize_label (lbl : str) : str :=
  upper (replace_char "-" "_" (replace_char " " "_" lbl)).

Definition _within (text : str) (s e : Z) : bool :=
  (0 <=? s) && (s <? e) && (e <=? len text).

(** An element of a producer's list: a 4-tuple [(value, label, start, end)]
    whose [start] and [end] go through [int()], or anything on which the
    unpacking or [int()] raises. *)
Inductive candidate : Type :=
| Tuple (val lbl : str) (s e : Z)
| Malformed.

(** An accepted tuple [(val, lbl, s, e)]. *)
Record ent : Type := mkEnt { val : str; lbl : str; s : Z; e : Z }.

(** The body of the flattening loop for one element [t]. *)
Definition accept_candidate (text : str) (t : candidate) : list ent :=
  match t with
  | Tuple v l s0 e0 =>
      let l' := _sanitize_label l in
      if _within text s0 e0 then [mkEnt v l' s0 e0] else []
  | Malformed => []
  end.

Definition flatten (text : str) (lists : list (list candidate)) : list ent :=
  flat_map (flat_map (accept_candidate text)) lists.

Definition key_lt (a b : ent) : bool := span_key_lt (s a) (e a) (s b) (e b).

Definition same_span (c o : ent) : bool :=
  (s c =? s o) && (e c =? e o) && str_eqb (lbl c) (lbl o).

(** [l2 == lbl and not (e <= s2 or s >= e2)] *)
Definition clash (c o : ent) : bool :=
  str_eqb (lbl o) (lbl c) && negb ((e c <=? s o) || (s c >=? e o)).

Definition width (a : ent) : Z := e a - s a.

(** The inner loop [for i in overlaps]: state [(keep_current, to_remove)]. *)
Definition judge (out : list ent) (c : ent) (st : bool * list nat) (i : nat)
  : bool * list nat :=
  match nth_error out i with
  | Some o =>
      if width o >=? width c then (false, snd st)
      else (fst st, snd st ++ [i])
  | None => st
  end.

(** One turn of the loop [for val, lbl, s, e in ents] on the list [out]. *)
Definition step (out : list ent) (c : ent) : list ent :=
  if existsb (same_span c) out then out
  else
    let overlaps :=
      map fst (filter (fun io => clash c (snd io)) (enumerate out)) in
    match overlaps with
    | [] => out ++ [c]
    | _ :: _ =>
        let '(keep_current, to_remove) :=
          fold_left (judge out c) overlaps (true, []) in
        let out' :=
          match to_remove with
          | [] => out
          | _ :: _ =>
              map snd (filter (fun io => negb (existsb (Nat.eqb (fst io)) to_remove))
                              (enumerate out))
          end in
        if keep_current then out' ++ [c] else out'
    end.

Definition _merge_and_dedupe (text : str) (lists : list (list candidate))
  : list ent :=
  let ents := sort_stable key_lt (flatten text lists) in
  fold_left step ents [].


(** How many elements the flattening loop drops. *)
Definition rejected (text : str) (lists : list (list candidate)) : nat :=
  length (concat lists) - length (flatten text lists).

End Pii.

(** [step] read element by element instead of index by index. *)
Definition narrower_clash (c o : Pii.ent) : bool :=
  Pii.clash c o && (Pii.width o <? Pii.width c).

Definition step_by_elements (out : list Pii.ent) (c : Pii.ent) : list Pii.ent :=
  if existsb (Pii.same_span c) out then out
  else if existsb (Pii.clash c) out then
    let out' := filter (fun o => negb (narrower_clash c o)) out in
    if forallb (fun o => negb (Pii.clash c o) || (Pii.width o <? Pii.width c)) out
    then out' ++ [c] else out'
  else out ++ [c].

Definition enumerate_from {A} (k : nat) (l : list A) : list (nat * A) :=
  combine (seq k (length l)) l.

(** The two invariants of a reconciled list, over its ordered pairs. *)
Definition no_duplicate_span (out : list Pii.ent) : Prop :=
  ForallOrdPairs (fun a b => Pii.same_span a b = false) out.

Definition no_same_label_overlap (out : list Pii.ent) : Prop :=
  ForallOrdPairs (fun a b => Pii.clash a b = false) out.

(** What the flattening loop lets through. *)
Definition acceptable (text : str) (t : Pii.candidate) : bool :=
  match t with
  | Pii.Tuple _ _ s0 e0 => Pii._within text s0 e0
  | Pii.Malformed => false
  end.

(** The candidates of one canonical label. *)
Definition labelled (l : str) (t : Pii.candidate) : bool :=
  match t with
  | Pii.Tuple _ l0 _ _ => str_eqb (Pii._sanitize_label l0) l
  | Pii.Malformed => false
  end.

(** A valid candidate [c] is accounted for by the result [out] of reconciling
    the candidates [U]: a member of [out] has its span and label, or some
    candidate of the same label intersects it and is at least as wide. *)
Definition covered (U out : list Pii.ent) (c : Pii.ent) : Prop :=
  (exists o, In o out /\ Pii.same_span c o = true)
  \/ (exists d, In d U /\ Pii.clash c d = true
                /\ Pii.width c <= Pii.width d /\ Pii.same_span c d = false).

Definition has_label (l : str) (x : Pii.ent) : bool := str_eqb (Pii.lbl x) l.

(* ------------------------------------------------------------------ *)
(** ** [str.splitlines], [str.split], [int] *)

(** The line boundaries of [str.splitlines] below U+0100: LF, VT, FF, CR,
    FS, GS, RS and NEL; CR LF counts as one boundary. *)
Definition is_linebreak (c : ascii) : bool :=
  ((10 <=? code c) && (code c <=? 13))
  || ((28 <=? code c) && (code c <=? 30))
  || (code c =? 133).

Definition is_cr (c : ascii) : bool := code c =? 13.

Definition is_lf (c : ascii) : bool := code c =? 10.

(** [cur] is the line being read. *)
Fixpoint splitlines_from (text : str) (cur : str) : list str :=
  match text with
  | [] => match cur with [] => [] | _ :: _ => [cur] end
  | c :: rest =>
      if is_linebreak c then
        match rest with
        | c' :: rest' =>
            if is_cr c && is_lf c' then cur :: splitlines_from rest' []
            else cur :: splitlines_from rest []
        | [] => cur :: splitlines_from rest []
        end
      else splitlines_from rest (cur ++ [c])
  end.

Definition splitlines (text : str) : list str := splitlines_from text [].

(** [s.split()]: the maximal runs of non-whitespace characters. *)
Fixpoint split_from (text : str) (cur : str) : list str :=
  match text with
  | [] => match cur with [] => [] | _ :: _ => [cur] end
  | c :: rest =>
      if isspace c then
        match cur with
        | [] => split_from rest []
        | _ :: _ => cur :: split_from rest []
        end
      else split_from rest (cur ++ [c])
  end.

Definition split (text : str) : list str := split_from text [].

Definition startswith (text prefix : str) : bool :=
  str_eqb (firstn (length prefix) text) prefix.

(** The digits of an [int] literal: decimal digits, single underscores
    allowed between two digits.  [prev_digit] tells whether the previous
    character was a digit. *)
Fixpoint int_digits (body : str) (prev_digit : bool) (acc : Z) : option Z :=
  match body with
  | [] => if prev_digit then Some acc else None
  | c :: rest =>
      if re_digit c then int_digits rest true (10 * acc + (code c - 48))
      else if Ascii.eqb c "_" && prev_digit then int_digits rest false acc
      else None
  end.

(** [int(s)] on a string: [None] stands for [ValueError]. *)
Definition py_int (text : str) : option Z :=
  match strip text with
  | c :: body =>
      if Ascii.eqb c "-" then option_map Z.opp (int_digits body false 0)
      else if Ascii.eqb c "+" then int_digits body false 0
      else int_digits (c :: body) false 0
  | [] => None
  end.

(* ------------------------------------------------------------------ *)
(** ** feedback_loop.py *)

Module Feedback.

(** The loop of [compute_line_position] from line [i] on. *)
Fixpoint line_position_from (lines : list str) (i : Z) (offset start end_ : Z)
  : Z * Z * Z :=
  match lines with
  | [] => (-1, -1, -1)
  | line :: rest =>
      let line_len := len line + 1 in
      if offset + line_len >? start then (i + 1, start - offset, end_ - offset)
      else line_position_from rest (i + 1) (offset + line_len) start end_
  end.

Definition compute_line_position (text : str) (start end_ : Z) : Z * Z * Z :=
  line_position_from (splitlines text) 0 0 start end_.

(** [lbl], or the empty string when [lbl] is falsy, through
    [.strip().replace(" ", "_").replace("-", "_").upper()] *)
Definition sanitize_label (lbl : str) : str :=
  upper (replace_char "-" "_" (replace_char " " "_" (strip lbl))).

(** The dict [normalize_entity] builds and the review loop updates. *)
Record entity : Type := mkEntity {
  start : Z;
  end_ : Z;
  label : str;
  line_number : Z;
  left : Z;
  right : Z;
  value : str
}.

(** The shapes [normalize_entity] accepts, after Python's own conversions:
    - [Dict]: a dict whose ["start"] and ["end"] go through [int()], whose
      ["label"] is a string and whose ["value"] is a string or absent;
    - [RangeTuple]: [(value, label, "s-e")], [range] being what
      [map(int, ent[2].split("-"))] unpacks into two ints, if it does;
    - [SpanTuple]: [(start, end, label, ...)] with two ints in front and a
      falsy non-string third component (a truthy one raises);
    - [ValueTuple]: [(value, label, start, end)];
    - [Unusable]: whatever returns [None] or raises inside the [try]. *)
Inductive raw_entity : Type :=
| Dict (start end_ : Z) (label : str) (value : option str)
| RangeTuple (value : option str) (label : str) (range : option (Z * Z))
| SpanTuple (start end_ : Z)
| ValueTuple (value : option str) (label : str) (start end_ : Z)
| Unusable.

Definition build_entity (text : str) (s e : Z) (lbl : str)
    (provided_value : option str) : option entity :=
  if (0 <=? s) && (s <? e) && (e <=? len text) then
    let '(ln, lf, rt) := compute_line_position text s e in
    let value :=
      match provided_value with
      | Some v => match v, strip v with
                  | _ :: _, _ :: _ => v
                  | _, _ => py_slice text s e
                  end
      | None => py_slice text s e
      end in
    Some (mkEntity s e lbl ln lf rt value)
  else None.

Definition normalize_entity (text : str) (ent : raw_entity) : option entity :=
  match ent with
  | Dict s e lbl v => build_entity text s e (sanitize_label lbl) v
  | RangeTuple v lbl (Some (s, e)) => build_entity text s e (sanitize_label lbl) v
  | RangeTuple _ _ None => None
  | SpanTuple s e => build_entity text s e (sanitize_label []) None
  | ValueTuple v lbl s e => build_entity text s e (sanitize_label lbl) v
  | Unusable => None
  end.

Definition key_lt (a b : entity) : bool :=
  span_key_lt (start a) (end_ a) (start b) (end_ b).

Definition same_span (e o : entity) : bool :=
  (start e =? start o) && (end_ e =? end_ o) && str_eqb (label e) (label o).

(** [not (e["end"] <= o["start"] or e["start"] >= o["end"])
     and o["label"] == e["label"]] *)
Definition clash (e o : entity) : bool :=
  negb ((end_ e <=? start o) || (start e >=? end_ o))
  && str_eqb (label o) (label e).

Definition width (z : entity) : Z := end_ z - start z.

(** [==] on the dicts. *)
Definition entity_eqb (a b : entity) : bool :=
  (start a =? start b) && (end_ a =? end_ b) && str_eqb (label a) (label b)
  && (line_number a =? line_number b) && (left a =? left b)
  && (right a =? right b) && str_eqb (value a) (value b).

(** [max(first :: rest, key=width)]: the first of the widest. *)
Definition widest (first : entity) (rest : list entity) : entity :=
  fold_left (fun best z => if width best <? width z then z else best) rest first.

(** One turn of the loop [for e in ents] of [dedupe_overlaps]. *)
Definition dedupe_step (out : list entity) (e : entity) : list entity :=
  if existsb (same_span e) out then out
  else
    let clashes := filter (clash e) out in
    match clashes with
    | [] => out ++ [e]
    | _ :: _ =>
        filter (fun o => negb (existsb (entity_eqb o) clashes)) out
        ++ [widest e clashes]
    end.

Definition dedupe_overlaps (ents : list entity) : list entity :=
  fold_left dedupe_step (sort_stable key_lt ents) [].

(** The [e START END] command applied to [e]. *)
Definition edit_entity (text : str) (e : entity) (s ed : Z) : entity :=
  let '(ln, lf, rt) := compute_line_position text s ed in
  mkEntity s ed (label e) ln lf rt (py_slice text s ed).

Definition relabel_entity (e : entity) (new_label : str) : entity :=
  mkEntity (start e) (end_ e) new_label (line_number e) (left e) (right e)
           (value e).

(** The review loop: [inputs] are the lines [input()] returns, in order;
    [input()] on an exhausted stream raises [EOFError].  The dicts of [clean]
    are distinct objects, so the in-place updates of the source are updates
    of the element at hand. *)
Fixpoint review (text : str) (clean : list entity) (inputs : list str)
    (final : list entity) : outcome (list entity) :=
  match clean with
  | [] => Returns final
  | e :: rest =>
      match inputs with
      | [] => Raises EOFError
      | line :: inputs' =>
          let cmd := strip line in
          match cmd with
          | [] => review text rest inputs' (final ++ [e])
          | _ :: _ =>
              if str_eqb (lower cmd) (py "x") then review text rest inputs' final
              else if startswith (lower cmd) (py "l ") then
                review text rest inputs'
                  (final ++ [relabel_entity e (sanitize_label (strip (skipn 2 cmd)))])
              else if startswith (lower cmd) (py "e ") then
                match split cmd with
                | [_; s; ed] =>
                    match py_int s, py_int ed with
                    | Some s', Some ed' =>
                        if (0 <=? s') && (s' <? ed') && (ed' <=? len text)
                        then review text rest inputs'
                               (final ++ [edit_entity text e s' ed'])
                        else review text rest inputs' final
                    | _, _ => review text rest inputs' final
                    end
                | _ => review text rest inputs' final
                end
              else if str_eqb (lower cmd) (py "s") then Returns final
              else review text rest inputs' final
          end
      end
  end.

Definition clean_entities (text : str) (entities : list raw_entity) : list entity :=
  dedupe_overlaps
    (flat_map (fun x => match normalize_entity text x with
                        | Some y => [y]
                        | None => []
                        end) entities).

Definition collect_user_feedback (text : str) (entities : list raw_entity)
    (inputs : list str) : outcome (list entity) :=
  match review text (clean_entities text entities) inputs [] with
  | Returns final => Returns (dedupe_overlaps final)
  | Raises x => Raises x
  end.

Definition no_same_label_overlap (out : list entity) : Prop :=
  ForallOrdPairs (fun a b => clash a b = false) out.

Definition no_duplicate_span (out : list entity) : Prop :=
  ForallOrdPairs (fun a b => same_span a b = false) out.

End Feedback.

(* ------------------------------------------------------------------ *)
(** ** utils.py: [extract_spans_from_smart_config] *)

Module Smart.

(** One entry of [config["fields"]].  [None] stands for a key that is missing
    or whose value [int()] refuses; [label] is [str(f["label"])]. *)
Record field : Type := mkField {
  label : option str;
  group : option Z;
  line : option Z;
  left : option Z;
  right : option Z
}.

(** [header_skip] and [footer_skip] are [int(config.get(..., 0) or 0)]. *)
Record config : Type := mkConfig {
  header_skip : Z;
  footer_skip : Z;
  fields : list field
}.

(** An emitted tuple [(value, label, start_abs, end_abs)]. *)
Record span : Type := mkSpan {
  value : str;
  span_label : str;
  start_abs : Z;
  end_abs : Z
}.

Definition is_break_line (s : str) : bool :=
  match strip s with
  | [] => true
  | t => forallb (fun ch => Ascii.eqb ch "-") t
  end.

(** The cumulative offsets: [offsets[i]] is where line [i] starts when every
    line is followed by one separator character. *)
Fixpoint build_offsets (lines : list str) (acc : Z) : list Z :=
  match lines with
  | [] => [acc]
  | ln :: rest => acc :: build_offsets rest (acc + (len ln + 1))
  end.

(** [g = int(f.get("group", 0))], 0 when that raises. *)
Definition group_of (f : field) : Z :=
  match group f with Some g => g | None => 0 end.

(** [groups.setdefault(g, []).append(f)] on an insertion-ordered dict. *)
Fixpoint setdefault_append (groups : list (Z * list field)) (g : Z) (f : field)
  : list (Z * list field) :=
  match groups with
  | [] => [(g, [f])]
  | (g', fs) :: rest =>
      if g' =? g then (g', fs ++ [f]) :: rest
      else (g', fs) :: setdefault_append rest g f
  end.

Definition group_fields (fs : list field) : list (Z * list field) :=
  fold_left (fun groups f => setdefault_append groups (group_of f) f) fs [].

(** [sorted(groups.items())]: the keys are distinct. *)
Definition sorted_groups (fs : list field) : list (Z * list field) :=
  sort_stable (fun a b => fst a <? fst b) (group_fields fs).

(** [min(int(f["line"]) for f in fields)]; [None] when an [int()] raises. *)
Fixpoint min_line (fs : list field) : option Z :=
  match fs with
  | [] => None
  | f :: rest =>
      match line f, rest with
      | None, _ => None
      | Some l, [] => Some l
      | Some l, _ :: _ => option_map (Z.min l) (min_line rest)
      end
  end.

Section Document.
Variable lines : list str.
Variable win_first win_last : Z.

Definition offsets : list Z := build_offsets lines 0.

Definition abs_pos (line_idx col : Z) : Z :=
  nth (Z.to_nat line_idx) offsets 0 + col.

(** The body of [for f in fields] on the physical row [row]: the tuple it
    appends, if any. *)
Definition field_span (base_rel row : Z) (f : field) : list span :=
  match label f, line f, left f, right f with
  | Some lbl, Some ln, Some left, Some right =>
      let label := strip lbl in
      let rel_line := ln - base_rel in
      let line_idx := row + rel_line in
      if (line_idx <? win_first) || (line_idx >=? win_last) then []
      else
        let src := nth (Z.to_nat line_idx) lines [] in
        if left >=? len src then []
        else
          let r := Z.min (Z.max right left) (len src) in
          let raw := py_slice src left r in
          match raw with
          | [] => []
          | _ :: _ =>
              let lead := len raw - len (lstrip raw) in
              let value := strip raw in
              match value with
              | [] => []
              | _ :: _ =>
                  let start_abs := abs_pos line_idx (left + lead) in
                  let end_abs := start_abs + len value in
                  [mkSpan value label start_abs end_abs]
              end
          end
  | _, _, _, _ => []
  end.

Definition row_spans (base_rel : Z) (fs : list field) (row : Z) : list span :=
  flat_map (field_span base_rel row) fs.

(** The loop [while row < win_last]; [fuel] bounds the number of turns and
    [win_last - row] turns are all it ever takes. *)
Fixpoint row_loop (fuel : nat) (base_rel : Z) (fs : list field) (row : Z)
    (started : bool) : list span :=
  match fuel with
  | O => []
  | S fuel' =>
      if row <? win_last then
        let broken_here := is_break_line (nth (Z.to_nat row) lines []) in
        match row_spans base_rel fs row with
        | (_ :: _) as added => added ++ row_loop fuel' base_rel fs (row + 1) true
        | [] =>
            if negb started then
              if broken_here then row_loop fuel' base_rel fs (row + 1) started
              else row_loop fuel' base_rel fs (row + 1) started
            else []
        end
      else []
  end.

(** The body of [for g, fields in sorted(groups.items())]. *)
Definition group_spans (fs : list field) : list span :=
  match fs with
  | [] => []
  | _ :: _ =>
      match min_line fs with
      | None => []
      | Some base_rel =>
          let row := win_first + base_rel in
          if (row <? win_first) || (row >=? win_last) then []
          else row_loop (Z.to_nat (win_last - row)) base_rel fs row false
      end
  end.
End Document.

Definition extract_spans_from_smart_config (text : str) (cfg : config)
  : list span :=
  let lines := splitlines text in
  let n := len lines in
  let win_first := Z.max 0 (header_skip cfg) in
  let win_last := n - Z.max 0 (footer_skip cfg) in
  flat_map (fun gf => group_spans lines win_first win_last (snd gf))
           (sorted_groups (fields cfg)).

End Smart.

(** Every line boundary of the text is a single newline. *)
Definition newline_joined (text : str) : Prop :=
  Forall (fun c => is_linebreak c = true -> is_lf c = true) text.

Definition LF : ascii := "010"%char.

(** The text whose lines are [lines], each followed by one newline. *)
Definition unsplit (lines : list str) : str :=
  flat_map (fun l => l ++ [LF]) lines.

(** What the claim about an emitted span says of the document [text]. *)
Definition located (text : str) (sp : Smart.span) : Prop :=
  py_slice text (Smart.start_abs sp) (Smart.end_abs sp) = Smart.value sp
  /\ Smart.value sp <> []
  /\ lstrip (Smart.value sp) = Smart.value sp
  /\ rstrip (Smart.value sp) = Smart.value sp
  /\ 0 <= Smart.start_abs sp
  /\ Smart.end_abs sp = Smart.start_abs sp + len (Smart.value sp)
  /\ Smart.end_abs sp <= len text.

Definition nonnegative_left (f : Smart.field) : Prop :=
  forall l, Smart.left f = Some l -> 0 <= l.

(* ------------------------------------------------------------------ *)
(** ** data_obfuscator.py: more of the obfuscator *)

(** The blocks [i], [i+1], ..., [i+k-1] of the digit stream, end to end. *)
Definition stream_blocks (key : list Z) (seed : str) (i k : nat) : list Z :=
  flat_map (stream_block key seed) (seq i k).

(** [DataObfuscator.obfuscate_account]; [None] is Python's [None], and the
    key is the module's [PSEUDO_KEY] under the environment [env]. *)
Definition obfuscate_account (env : option str) (account : option str)
  : outcome (option str) :=
  match account with
  | None => Returns None
  | Some a =>
      let s := strip a in
      match s with
      | [] => Returns (Some s)
      | _ :: _ =>
          match deterministic_numeric_like s 4 (PSEUDO_KEY env) with
          | Returns out => Returns (Some out)
          | Raises x => Raises x
          end
      end
  end.

(** [x in s] for strings. *)
Fixpoint contains (hay needle : str) : bool :=
  startswith hay needle
  || match hay with
     | [] => false
     | _ :: rest => contains rest needle
     end.

Definition contains_any (hay : str) (needles : list string) : bool :=
  existsb (fun x => contains hay (py x)) needles.

(** [DataObfuscator.obfuscate_description] on a string ([not desc] is the
    empty string). *)
Definition obfuscate_description (desc : str) : str :=
  match desc, strip desc with
  | [], _ => desc
  | _, [] => desc
  | _, _ =>
      let desc_upper := upper desc in
      if contains_any desc_upper ["PAYMENT"; "PMT"; "PAID"]
      then py "Payment Transaction"
      else if contains_any desc_upper ["FEE"; "CHARGE"; "PENALTY"]
      then py "Fee Assessment"
      else if contains_any desc_upper ["INTEREST"; "INT"; "FINANCE"]
      then py "Interest Charge"
      else if contains_any desc_upper ["TRANSFER"; "XFER"; "WIRE"]
      then py "Fund Transfer"
      else if contains_any desc_upper ["ADVANCE"; "WITHDRAWAL"; "DRAW"]
      then py "Cash Advance"
      else if contains_any desc_upper ["DEPOSIT"; "CREDIT"]
      then py "Credit Transaction"
      else py "General Transaction"
  end.

Definition description_categories : list str :=
  map py ["Payment Transaction"; "Fee Assessment"; "Interest Charge";
          "Fund Transfer"; "Cash Advance"; "Credit Transaction";
          "General Transaction"].

(* ------------------------------------------------------------------ *)
(** ** pii_detection.py: more of the reconciliation *)

(** What [_sanitize_label] does to one character. *)
Definition sanitized_char (c : ascii) : str :=
  upper_char (if Ascii.eqb (if Ascii.eqb c " " then "_"%char else c) "-"
              then "_"%char
              else if Ascii.eqb c " " then "_"%char else c).

(** An accepted tuple handed back as a candidate. *)
Definition as_candidate (x : Pii.ent) : Pii.candidate :=
  Pii.Tuple (Pii.val x) (Pii.lbl x) (Pii.s x) (Pii.e x).

(* ------------------------------------------------------------------ *)
(** ** feedback_loop.py: predicates on the dicts *)

(** The span of the dict lies in the text. *)
Definition span_in_text (text : str) (x : Feedback.entity) : Prop :=
  0 <= Feedback.start x < Feedback.end_ x /\ Feedback.end_ x <= len text.

(** A character a canonical label can hold. *)
Definition label_char (o : ascii) : Prop :=
  o <> " "%char /\ o <> "-"%char
  /\ ((97 <=? code o) && (code o <=? 122)) = false.

(** The line metadata of the dict: found, or the three [-1] of a start that
    lies beyond the lines. *)
Definition line_metadata_consistent (x : Feedback.entity) : Prop :=
  (Feedback.line_number x = -1 /\ Feedback.left x = -1 /\ Feedback.right x = -1)
  \/ (1 <= Feedback.line_number x /\ 0 <= Feedback.left x
      /\ Feedback.right x - Feedback.left x = Feedback.end_ x - Feedback.start x).

(* ------------------------------------------------------------------ *)
(** ** utils.py: [clean_entity_spans] and [highlight_entities_in_text] *)

Module Utils.

(** An element of [entities]: a 5-tuple or a 4-tuple whose [start] and [end]
    go through [int()], or anything on which [len], the unpacking or [int()]
    raises. *)
Inductive raw_span : Type :=
| Five (text label : str) (start end_ : Z) (record : str)
| Four (text label : str) (start end_ : Z)
| Refused.

(** A kept tuple [(text, label, start, end, record)]. *)
Record cleaned_span : Type := mkCleaned {
  text : str;
  label : str;
  start : Z;
  end_ : Z;
  record : str
}.

(** The unpacking at the head of the loop body; [None] is the [except]. *)
Definition unpack (ent : raw_span) : option cleaned_span :=
  match ent with
  | Five t l s0 e0 r => Some (mkCleaned t l s0 e0 r)
  | Four t l s0 e0 => Some (mkCleaned t l s0 e0 [])
  | Refused => None
  end.

(** [(start, end) in seen]; the set [seen] is only ever asked this. *)
Definition seen_before (seen : list (Z * Z)) (s0 e0 : Z) : bool :=
  existsb (fun p => (fst p =? s0) && (snd p =? e0)) seen.

(** [not (end <= s or start >= e)] for the kept tuple [c]. *)
Definition overlaps (s0 e0 : Z) (c : cleaned_span) : bool :=
  negb ((e0 <=? start c) || (s0 >=? end_ c)).

(** One turn of [for ent in entities] on the pair [(seen, cleaned)]. *)
Definition clean_step (st : list (Z * Z) * list cleaned_span) (ent : raw_span)
  : list (Z * Z) * list cleaned_span :=
  match unpack ent with
  | None => st
  | Some c =>
      if seen_before (fst st) (start c) (end_ c) then st
      else if existsb (overlaps (start c) (end_ c)) (snd st) then st
      else ((start c, end_ c) :: fst st, snd st ++ [c])
  end.

Definition clean_entity_spans (entities : list raw_span) : list cleaned_span :=
  snd (fold_left clean_step entities ([], [])).

(** [default_style]. *)
Definition default_style (label : str) : str * str :=
  (py "[", py "]<" ++ label ++ py ">").

(** The markers of one entity: [style_func(label)], or the built-in pair when
    no [style_func] is given. *)
Definition markers (style_func : option (str -> str * str)) (label : str)
  : str * str :=
  match style_func with
  | Some f => f label
  | None => (py "[", py "](" ++ label ++ py ")")
  end.

(** One turn of the loop of [highlight_entities_in_text]; [text[:start]] is
    [text[0:start]] and [text[end:]] is [text[end:len(text)]]. *)
Definition highlight_one (style_func : option (str -> str * str))
    (text : str) (ent : Z * Z * str) : str :=
  let '(start, end_, label) := ent in
  let '(prefix, suffix) := markers style_func label in
  py_slice text 0 start ++ prefix ++ py_slice text start end_ ++ suffix
  ++ py_slice text end_ (len text).

(** [sorted(entities, key=lambda x: x[0], reverse=True)] is stable too. *)
Definition by_start_descending (entities : list (Z * Z * str))
  : list (Z * Z * str) :=
  sort_stable (fun a b => fst (fst b) <? fst (fst a)) entities.

Definition highlight_entities_in_text (text : str)
    (entities : list (Z * Z * str)) (style_func : option (str -> str * str))
  : str :=
  fold_left (highlight_one style_func) (by_start_descending entities) text.

End Utils.

(** A kept tuple handed back as an element of [entities]. *)
Definition as_raw_span (c : Utils.cleaned_span) : Utils.raw_span :=
  Utils.Five (Utils.text c) (Utils.label c) (Utils.start c) (Utils.end_ c)
    (Utils.record c).

(** The two spans neither overlap, as [clean_entity_spans] tests it, nor
    share both ends. *)
Definition apart (a b : Utils.cleaned_span) : Prop :=
  Utils.overlaps (Utils.start b) (Utils.end_ b) a = false
  /\ ~ (Utils.start a = Utils.start b /\ Utils.end_ a = Utils.end_ b).

(** The entity lies in a text of [n] characters. *)
Definition entity_in_bounds (n : Z) (ent : Z * Z * str) : Prop :=
  0 <= fst (fst ent) <= snd (fst ent) /\ snd (fst ent) <= n.

(** The number of characters the markers of the entities add up to. *)
Definition markers_length (style_func : option (str -> str * str))
    (entities : list (Z * Z * str)) : Z :=
  fold_right (fun ent acc =>
                len (fst (Utils.markers style_func (snd ent)))
                + len (snd (Utils.markers style_func (snd ent))) + acc)
             0 entities.

(* ------------------------------------------------------------------ *)
(** ** obfuscator.py: [pad_or_trim] *)

(** [value.ljust(width)]. *)
Definition ljust (value : str) (width : Z) : str :=
  value ++ repeat " "%char (Z.to_nat (width - len value)).

Definition pad_or_trim (value : str) (length : Z) : str :=
  if length <=? 0 then value
  else if len value =? length then value
  else if len value <? length then ljust value length
  else py_slice value 0 length.
(* ------------------------------------------------------------------ *)
(** ** Test vectors of the library model (FIPS 180-4, RFC 4231) *)

Example sha256_abc :
  hex_of_bytes (Hashlib.sha256 (encode_utf8 (py "abc")))
  = py "ba7816bf8f01cfea414140de5dae2223b00361a396177a9cb410ff61f20015ad".
Proof. vm_compute. reflexivity. Qed.

Example sha256_empty :
  hex_of_bytes (Hashlib.sha256 [])
  = py "e3b0c44298fc1c149afbf4c8996fb92427ae41e4649b934ca495991b7852b855".
Proof. vm_compute. reflexivity. Qed.

Example sha256_two_blocks :
  hex_of_bytes (Hashlib.sha256 (encode_utf8
    (py "abcdbcdecdefdefgefghfghighijhijkijkljklmklmnlmnomnopnopq")))
  = py "248d6a61d20638b8e5c026930c3e6039a33ce45964ff2167f6ecedd419db06c1".
Proof. vm_compute. reflexivity. Qed.

Example hmac_sha256_rfc4231_2 :
  hex_of_bytes (Hashlib.hmac_sha256 (encode_utf8 (py "Jefe"))
    (encode_utf8 (py "what do ya want for nothing?")))
  = py "5bdcc146bf60754e6a042426089575c75a003f089d2739839dec58b964ec3843".
Proof. vm_compute. reflexivity. Qed.

(* ------------------------------------------------------------------ *)
(** ** List facts used throughout *)

Lemma Forall_take {A} (P : A -> Prop) (n : nat) (l : list A) :
  Forall P l -> Forall P (firstn n l).
Proof.
  intros H. apply Forall_forall. intros x Hx.
  rewrite Forall_forall in H. apply H.
  rewrite <- (firstn_skipn n l). apply in_or_app. now left.
Qed.

Lemma Forall_drop {A} (P : A -> Prop) (n : nat) (l : list A) :
  Forall P l -> Forall P (skipn n l).
Proof.
  intros H. apply Forall_forall. intros x Hx.
  rewrite Forall_forall in H. apply H.
  rewrite <- (firstn_skipn n l). apply in_or_app. now right.
Qed.

Lemma Forall_filter_true {A} (f : A -> bool) (l : list A) :
  Forall (fun x => f x = true) (filter f l).
Proof. apply Forall_forall. intros x Hx. now apply filter_In in Hx. Qed.

(* ------------------------------------------------------------------ *)
(** ** The digit stream *)

Lemma sha256_length (msg : list Z) : length (Hashlib.sha256 msg) = 32%nat.
Proof. reflexivity. Qed.

Lemma hmac_sha256_length (key msg : list Z) :
  length (Hashlib.hmac_sha256 key msg) = 32%nat.
Proof. unfold Hashlib.hmac_sha256. apply sha256_length. Qed.

Lemma stream_block_length key seed i : length (stream_block key seed i) = 32%nat.
Proof. unfold stream_block. rewrite length_map. apply hmac_sha256_length. Qed.

Lemma stream_block_decimal key seed i :
  Forall is_decimal_value (stream_block key seed i).
Proof.
  unfold stream_block. apply Forall_forall. intros d Hd.
  apply in_map_iff in Hd. destruct Hd as [b [<- _]].
  unfold is_decimal_value. apply Z.mod_pos_bound. lia.
Qed.

Lemma stream_loop_length fuel : forall key seed n out i,
  (n <= length out + fuel)%nat ->
  length (stream_loop fuel key seed n out i) = n.
Proof.
  induction fuel as [|fuel IH]; intros key seed n out i Hn; cbn [stream_loop];
    destruct (Nat.ltb_spec (length out) n) as [Hlt|Hge];
    try (apply firstn_length_le; lia).
  apply IH. rewrite length_app, stream_block_length. lia.
Qed.

Lemma stream_loop_decimal fuel : forall key seed n out i,
  Forall is_decimal_value out ->
  Forall is_decimal_value (stream_loop fuel key seed n out i).
Proof.
  induction fuel as [|fuel IH]; intros key seed n out i Hout; cbn [stream_loop];
    destruct (length out <? n)%nat; try (apply Forall_take; assumption).
  apply IH. apply Forall_app. split; [assumption | apply stream_block_decimal].
Qed.

(** More fuel than [n] changes nothing: the loop has left by then. *)
Lemma stream_loop_fuel fuel : forall extra key seed n out i,
  (n <= length out + fuel)%nat ->
  stream_loop (fuel + extra) key seed n out i = stream_loop fuel key seed n out i.
Proof.
  induction fuel as [|fuel IH]; intros extra key seed n out i Hn.
  - cbn [Nat.add]. destruct extra; cbn [stream_loop];
      destruct (Nat.ltb_spec (length out) n); try reflexivity; lia.
  - cbn [Nat.add stream_loop]. destruct (length out <? n)%nat; [|reflexivity].
    apply IH. rewrite length_app, stream_block_length. lia.
Qed.

Lemma _pseudo_digit_stream_length key seed n :
  length (_pseudo_digit_stream key seed n) = n.
Proof. unfold _pseudo_digit_stream. apply stream_loop_length. simpl. lia. Qed.

Lemma _pseudo_digit_stream_decimal key seed n :
  Forall is_decimal_value (_pseudo_digit_stream key seed n).
Proof. unfold _pseudo_digit_stream. apply stream_loop_decimal. constructor. Qed.

Lemma _pseudo_digit_stream_total key seed n extra :
  stream_loop (n + extra) key seed n [] 0 = _pseudo_digit_stream key seed n.
Proof. unfold _pseudo_digit_stream. apply stream_loop_fuel. simpl. lia. Qed.

(** [str(d)] of a stream digit is an ASCII digit. *)
Lemma chr_decimal_is_digit d :
  is_decimal_value d -> re_digit (chr (48 + d)) = true.
Proof.
  unfold is_decimal_value. intros Hd.
  assert (Hc : d = 0 \/ d = 1 \/ d = 2 \/ d = 3 \/ d = 4 \/ d = 5 \/ d = 6
               \/ d = 7 \/ d = 8 \/ d = 9) by lia.
  repeat (destruct Hc as [-> | Hc]; [reflexivity|]). subst. reflexivity.
Qed.

Lemma re_digit_isdigit c : re_digit c = true -> isdigit c = true.
Proof. unfold isdigit. intros ->. reflexivity. Qed.

(* ------------------------------------------------------------------ *)
(** ** The reinsertion loop *)

Lemma reinsert_spec : forall s nd idx acc,
  (idx + length (filter isdigit s) <= length nd)%nat ->
  exists out,
    reinsert s nd idx acc = Returns (acc ++ out)
    /\ length out = length s
    /\ forall i c, nth_error s i = Some c ->
         nth_error out i =
           if isdigit c
           then nth_error nd (idx + length (filter isdigit (firstn i s)))
           else Some c.
Proof.
  induction s as [|ch rest IH]; intros nd idx acc Hlen.
  - exists []. rewrite app_nil_r. repeat split.
    intros [|i] c H; discriminate.
  - simpl in *. destruct (isdigit ch) eqn:Hch.
    + simpl in Hlen.
      destruct (nth_error nd idx) as [d|] eqn:Hd.
      2:{ apply nth_error_None in Hd. lia. }
      destruct (IH nd (S idx) (acc ++ [d])) as [out [Hr [Hl Hi]]]; [lia|].
      exists (d :: out). rewrite Hr, <- app_assoc. repeat split.
      * simpl. now rewrite Hl.
      * intros [|i] c Hc; simpl in *.
        -- injection Hc as <-. rewrite Hch, Nat.add_0_r. now rewrite Hd.
        -- rewrite (Hi i c Hc), Hch. simpl.
           replace (idx + S (length (filter isdigit (firstn i rest))))%nat
             with (S idx + length (filter isdigit (firstn i rest)))%nat by lia.
           reflexivity.
    + destruct (IH nd idx (acc ++ [ch])) as [out [Hr [Hl Hi]]]; [lia|].
      exists (ch :: out). rewrite Hr, <- app_assoc. repeat split.
      * simpl. now rewrite Hl.
      * intros [|i] c Hc; simpl in *.
        -- injection Hc as <-. now rewrite Hch.
        -- rewrite (Hi i c Hc), Hch. reflexivity.
Qed.

(** Too few new digits: the loop raises. *)
Lemma reinsert_raises : forall s nd idx acc,
  (length nd < idx + length (filter isdigit s))%nat ->
  (idx <= length nd)%nat ->
  reinsert s nd idx acc = Raises IndexError.
Proof.
  induction s as [|ch rest IH]; intros nd idx acc Hlen Hidx; simpl in *.
  - lia.
  - destruct (isdigit ch) eqn:Hch; simpl in *.
    + destruct (nth_error nd idx) as [d|] eqn:Hd; [|reflexivity].
      apply IH; [lia|].
      assert (idx < length nd)%nat by (apply nth_error_Some; congruence). lia.
    + apply IH; assumption.
Qed.

Lemma filter_ext_Forall {A} (f g : A -> bool) (l : list A) :
  Forall (fun x => f x = g x) l -> filter f l = filter g l.
Proof. induction 1 as [|x l Hx _ IH]; simpl; [reflexivity|]. now rewrite Hx, IH. Qed.

Lemma nth_error_filter_prefix {A} (f : A -> bool) (l : list A) (i : nat) (c : A) :
  nth_error l i = Some c -> f c = true ->
  nth_error (filter f l) (length (filter f (firstn i l))) = Some c.
Proof.
  intros Hi Hc. rewrite <- (firstn_skipn_middle i l Hi) at 1.
  rewrite filter_app, nth_error_app2 by lia.
  rewrite Nat.sub_diag. simpl. now rewrite Hc.
Qed.

(* ------------------------------------------------------------------ *)
(** ** The new digit sequence of [deterministic_numeric_like] *)

Lemma deterministic_numeric_like_eq value preserve_last key :
  filter re_digit value <> [] ->
  deterministic_numeric_like value preserve_last key
  = reinsert value (new_digits_of value preserve_last key) 0 [].
Proof.
  unfold deterministic_numeric_like, new_digits_of, kept_digits.
  destruct (filter re_digit value); [congruence | reflexivity].
Qed.

Lemma deterministic_numeric_like_no_digit value preserve_last key :
  filter re_digit value = [] ->
  deterministic_numeric_like value preserve_last key = Returns value.
Proof. unfold deterministic_numeric_like. now intros ->. Qed.

Lemma kept_digits_length digits p :
  (length (kept_digits digits p) <= length digits)%nat.
Proof.
  unfold kept_digits. destruct (_ && _); simpl; [|lia].
  rewrite length_skipn. lia.
Qed.

Lemma new_digits_length value p key :
  length (new_digits_of value p key) = length (filter re_digit value).
Proof.
  unfold new_digits_of.
  rewrite length_app, length_map, _pseudo_digit_stream_length.
  pose proof (kept_digits_length (filter re_digit value) p). lia.
Qed.

Lemma new_digits_decimal value p key :
  Forall (fun c => re_digit c = true) (new_digits_of value p key).
Proof.
  unfold new_digits_of. apply Forall_app. split.
  - apply Forall_forall. intros c Hc. apply in_map_iff in Hc.
    destruct Hc as [d [<- Hd]]. apply chr_decimal_is_digit.
    pose proof (_pseudo_digit_stream_decimal (encode_utf8 key)
                  (filter re_digit value)
                  (length (filter re_digit value)
                   - length (kept_digits (filter re_digit value) p))) as H.
    rewrite Forall_forall in H. now apply H.
  - unfold kept_digits. destruct (_ && _); [|constructor].
    apply Forall_drop, Forall_filter_true.
Qed.

(** From index [digit_count - preserve_last] on, the new digits are the
    original ones. *)
Lemma new_digits_tail value p key j :
  0 < p < len (filter re_digit value) ->
  (length (filter re_digit value) - Z.to_nat p <= j)%nat ->
  nth_error (new_digits_of value p key) j = nth_error (filter re_digit value) j.
Proof.
  unfold new_digits_of, kept_digits, len. intros Hp Hj.
  set (digits := filter re_digit value) in *.
  replace ((0 <? p) && (p <? Z.of_nat (length digits))) with true
    by (symmetry; apply andb_true_iff; split; apply Z.ltb_lt; lia).
  rewrite nth_error_app2;
    rewrite length_map, _pseudo_digit_stream_length, length_skipn.
  2: lia.
  rewrite nth_error_skipn. f_equal. lia.
Qed.

(** Without preserved digits every new digit comes from the keyed stream. *)
Lemma new_digits_all_stream value p key :
  ~ (0 < p < len (filter re_digit value)) ->
  new_digits_of value p key
  = map (fun d => chr (48 + d))
        (_pseudo_digit_stream (encode_utf8 key) (filter re_digit value)
           (length (filter re_digit value))).
Proof.
  unfold new_digits_of, kept_digits. intros Hp.
  replace ((0 <? p) && (p <? len (filter re_digit value))) with false.
  - simpl. now rewrite app_nil_r, Nat.sub_0_r.
  - symmetry. apply andb_false_iff.
    destruct (Z.ltb_spec 0 p); [right|left; reflexivity].
    apply Z.ltb_ge. lia.
Qed.

(* ------------------------------------------------------------------ *)
(** ** Properties of [deterministic_numeric_like] on decimal-only inputs *)

Lemma decimal_only_filter value :
  decimal_only value -> filter isdigit value = filter re_digit value.
Proof. apply filter_ext_Forall. Qed.

Lemma decimal_only_prefix value i :
  decimal_only value ->
  filter isdigit (firstn i value) = filter re_digit (firstn i value).
Proof. intros H. apply filter_ext_Forall. now apply Forall_take. Qed.

(** The result as a function of the new digit sequence. *)
Lemma deterministic_numeric_like_positions value p key :
  decimal_only value ->
  exists out,
    deterministic_numeric_like value p key = Returns out
    /\ length out = length value
    /\ forall i c, nth_error value i = Some c ->
         nth_error out i =
           if re_digit c
           then nth_error (new_digits_of value p key) (digits_before i value)
           else Some c.
Proof.
  intros Hdec.
  destruct (filter re_digit value) eqn:Hdig.
  - exists value. rewrite deterministic_numeric_like_no_digit by assumption.
    repeat split. intros i c Hi.
    destruct (re_digit c) eqn:Hc; [|assumption].
    assert (Hin : In c (filter re_digit value)).
    { apply filter_In. split; [eapply nth_error_In; eassumption | assumption]. }
    rewrite Hdig in Hin. destruct Hin.
  - rewrite deterministic_numeric_like_eq by congruence.
    destruct (reinsert_spec value (new_digits_of value p key) 0 [])
      as [out [Hr [Hl Hi]]].
    { rewrite new_digits_length, decimal_only_filter by assumption. simpl. lia. }
    exists out. simpl in Hr. repeat split; try assumption.
    intros i c Hc. rewrite (Hi i c Hc).
    unfold decimal_only in Hdec. rewrite Forall_forall in Hdec.
    rewrite (Hdec c (nth_error_In _ _ Hc)).
    unfold digits_before. rewrite decimal_only_prefix; [reflexivity|].
    now apply Forall_forall.
Qed.

(** Length and separators kept, digits at digit positions. *)
Lemma deterministic_numeric_like_format value p key :
  decimal_only value ->
  exists out,
    deterministic_numeric_like value p key = Returns out
    /\ length out = length value
    /\ (forall i c, nth_error value i = Some c -> isdigit c = false ->
          nth_error out i = Some c)
    /\ (forall i c, nth_error value i = Some c -> isdigit c = true ->
          exists d, nth_error out i = Some d /\ isdigit d = true).
Proof.
  intros Hdec.
  destruct (deterministic_numeric_like_positions value p key Hdec)
    as [out [Hr [Hl Hi]]].
  exists out. repeat split; try assumption.
  - intros i c Hc Hnd. rewrite (Hi i c Hc).
    destruct (re_digit c) eqn:Hre; [|reflexivity].
    apply re_digit_isdigit in Hre. congruence.
  - intros i c Hc Hd.
    assert (Hre : re_digit c = true).
    { unfold decimal_only in Hdec. rewrite Forall_forall in Hdec.
      rewrite <- (Hdec c (nth_error_In _ _ Hc)). assumption. }
    rewrite (Hi i c Hc), Hre.
    destruct (nth_error (new_digits_of value p key) (digits_before i value))
      as [d|] eqn:Hn.
    + exists d. split; [reflexivity|]. apply re_digit_isdigit.
      pose proof (new_digits_decimal value p key) as Hall.
      rewrite Forall_forall in Hall. apply Hall.
      eapply nth_error_In; eassumption.
    + apply nth_error_None in Hn. rewrite new_digits_length in Hn.
      pose proof (nth_error_filter_prefix re_digit value i c Hc Hre) as Hsome.
      assert (digits_before i value < length (filter re_digit value))%nat
        by (apply nth_error_Some; unfold digits_before; congruence).
      lia.
Qed.

(** The last [preserve_last] digit positions keep their digits. *)
Lemma deterministic_numeric_like_tail value p key :
  decimal_only value ->
  0 < p < len (filter re_digit value) ->
  exists out,
    deterministic_numeric_like value p key = Returns out
    /\ forall i c, nth_error value i = Some c -> re_digit c = true ->
         len (filter re_digit value) - p <= Z.of_nat (digits_before i value) ->
         nth_error out i = Some c.
Proof.
  intros Hdec Hp.
  destruct (deterministic_numeric_like_positions value p key Hdec)
    as [out [Hr [Hl Hi]]].
  exists out. split; [assumption|].
  intros i c Hc Hre Hpos. rewrite (Hi i c Hc), Hre.
  rewrite new_digits_tail; [| assumption | unfold len in *; lia].
  now apply nth_error_filter_prefix.
Qed.

(** A digit the two tests classify differently makes the call raise. *)
Lemma deterministic_numeric_like_raises value p key :
  filter re_digit value <> [] ->
  (length (filter re_digit value) < length (filter isdigit value))%nat ->
  deterministic_numeric_like value p key = Raises IndexError.
Proof.
  intros Hne Hlt. rewrite deterministic_numeric_like_eq by assumption.
  apply reinsert_raises; rewrite new_digits_length; simpl; lia.
Qed.

(** The example of the specification, under any key: the separators stay,
    the last four digits stay, the first five positions hold decimal digits. *)
Lemma deterministic_numeric_like_ssn key :
  exists a b c d e,
    deterministic_numeric_like (py "563-73-6000") 4 key
    = Returns ([a; b; c] ++ py "-" ++ [d; e] ++ py "-" ++ py "6000")
    /\ Forall (fun x => re_digit x = true) [a; b; c; d; e].
Proof.
  rewrite deterministic_numeric_like_eq by (vm_compute; discriminate).
  pose proof (new_digits_decimal (py "563-73-6000") 4 key) as Hdec.
  unfold new_digits_of in *.
  change (filter re_digit (py "563-73-6000")) with (py "563736000") in *.
  change (kept_digits (py "563736000") 4) with (py "6000") in *.
  change (length (py "563736000") - length (py "6000"))%nat with 5%nat in *.
  pose proof (_pseudo_digit_stream_length (encode_utf8 key) (py "563736000") 5)
    as Hlen.
  destruct (_pseudo_digit_stream (encode_utf8 key) (py "563736000") 5)
    as [|s1 [|s2 [|s3 [|s4 [|s5 [|s6 rest]]]]]]; try discriminate Hlen.
  cbn [map app] in *.
  exists (chr (48 + s1)), (chr (48 + s2)), (chr (48 + s3)),
         (chr (48 + s4)), (chr (48 + s5)).
  split; [reflexivity|].
  repeat (apply Forall_cons_iff in Hdec; destruct Hdec as [? Hdec]).
  repeat (constructor; [assumption|]). constructor.
Qed.

(* ------------------------------------------------------------------ *)
(** ** C1: the key when the environment does not give one *)

(** C1 (as stated, refuted).  With [SHIELD_PSEUDO_KEY] unset the call does not
    refuse: it pseudonymizes with the built-in key ["CHANGE-ME-IN-ENV"]. *)
Lemma absent_key_is_defaulted :
  PSEUDO_KEY None = py "CHANGE-ME-IN-ENV"
  /\ deterministic_numeric_like_default None (py "563-73-6000") 4
     = deterministic_numeric_like (py "563-73-6000") 4 (py "CHANGE-ME-IN-ENV")
  /\ deterministic_numeric_like_default None (py "563-73-6000") 4
     = Returns (py "530-75-6000").
Proof.
  split; [reflexivity|]. split; [reflexivity|]. vm_compute. reflexivity.
Qed.

(** C1 (amended).  The key is the value of the environment variable when it is
    set and the built-in ["CHANGE-ME-IN-ENV"] when it is not; in the second
    case the call returns the pseudonym computed under that built-in key, of
    the length of the input, for every decimal-only value. *)
Theorem absent_key_uses_builtin_default value preserve_last :
  decimal_only value ->
  (forall k, deterministic_numeric_like_default (Some k) value preserve_last
             = deterministic_numeric_like value preserve_last k)
  /\ exists out,
       deterministic_numeric_like_default None value preserve_last = Returns out
       /\ deterministic_numeric_like value preserve_last (py "CHANGE-ME-IN-ENV")
          = Returns out
       /\ length out = length value.
Proof.
  intros Hdec. split; [reflexivity|].
  destruct (deterministic_numeric_like_format value preserve_last
              (py "CHANGE-ME-IN-ENV") Hdec) as [out [Hr [Hl _]]].
  exists out. repeat split; assumption.
Qed.

Lemma decimal_only_ssn : decimal_only (py "563-73-6000").
Proof. repeat constructor. Qed.

Lemma absent_key_uses_builtin_default_witness :
  decimal_only (py "563-73-6000")
  /\ ((forall k, deterministic_numeric_like_default (Some k) (py "563-73-6000") 4
                 = deterministic_numeric_like (py "563-73-6000") 4 k)
      /\ exists out,
           deterministic_numeric_like_default None (py "563-73-6000") 4
           = Returns out
           /\ deterministic_numeric_like (py "563-73-6000") 4
                (py "CHANGE-ME-IN-ENV") = Returns out
           /\ length out = length (py "563-73-6000")).
Proof.
  split; [exact decimal_only_ssn|].
  apply (absent_key_uses_builtin_default (py "563-73-6000") 4).
  exact decimal_only_ssn.
Defined.

(* ------------------------------------------------------------------ *)
(** ** C2: length and format invariance *)

(** C2 (the code fails it).  The value is the digit 1 followed by U+00B2
    (superscript two): the [\D] substitution keeps one digit, [str.isdigit]
    sees two digit positions, and [new_digits[1]] raises [IndexError] whatever
    [preserve_last] and the key are. *)
Theorem format_invariance_raises_on_superscript preserve_last key :
  deterministic_numeric_like ["1"%char; chr 178] preserve_last key
  = Raises IndexError.
Proof.
  apply deterministic_numeric_like_raises.
  - vm_compute. discriminate.
  - vm_compute. lia.
Qed.

(* ------------------------------------------------------------------ *)
(** ** C4: [preserve_last] at or above the digit count *)

(** C4 (as stated, refuted).  ["12"] has two digits, [preserve_last] is 4, and
    the output is not the input. *)
Lemma large_preserve_last_changes_value :
  4 >= len (filter re_digit (py "12"))
  /\ deterministic_numeric_like (py "12") 4 (py "K") = Returns (py "33")
  /\ deterministic_numeric_like (py "12") 4 (py "K") <> Returns (py "12").
Proof.
  split; [vm_compute; discriminate|].
  assert (H : deterministic_numeric_like (py "12") 4 (py "K") = Returns (py "33"))
    by (vm_compute; reflexivity).
  split; [exact H|]. rewrite H. discriminate.
Qed.

(** C4 (amended).  When [preserve_last] is at least the digit count, no digit
    is kept: the call returns what [preserve_last = 0] returns, every decimal
    digit position being filled from the keyed stream. *)
Theorem large_preserve_last_keeps_nothing value preserve_last key :
  preserve_last >= len (filter re_digit value) ->
  deterministic_numeric_like value preserve_last key
  = deterministic_numeric_like value 0 key
  /\ (filter re_digit value <> [] ->
      deterministic_numeric_like value preserve_last key
      = reinsert value
          (map (fun d => chr (48 + d))
             (_pseudo_digit_stream (encode_utf8 key) (filter re_digit value)
                (length (filter re_digit value)))) 0 []).
Proof.
  intros Hp.
  assert (Hall : filter re_digit value <> [] ->
      deterministic_numeric_like value preserve_last key
      = reinsert value
          (map (fun d => chr (48 + d))
             (_pseudo_digit_stream (encode_utf8 key) (filter re_digit value)
                (length (filter re_digit value)))) 0 []).
  { intros Hne. rewrite deterministic_numeric_like_eq by assumption.
    rewrite new_digits_all_stream by lia. reflexivity. }
  split; [|exact Hall].
  destruct (filter re_digit value) eqn:Hdig.
  - rewrite !deterministic_numeric_like_no_digit by assumption. reflexivity.
  - rewrite <- Hdig in *. rewrite Hall by (rewrite Hdig; discriminate).
    rewrite deterministic_numeric_like_eq by (rewrite Hdig; discriminate).
    rewrite new_digits_all_stream by lia. reflexivity.
Qed.

Lemma large_preserve_last_keeps_nothing_witness :
  4 >= len (filter re_digit (py "12"))
  /\ deterministic_numeric_like (py "12") 4 (py "K")
     = deterministic_numeric_like (py "12") 0 (py "K").
Proof.
  split; [vm_compute; discriminate|].
  apply (proj1 (large_preserve_last_keeps_nothing (py "12") 4 (py "K")
                  ltac:(vm_compute; discriminate))).
Defined.

(* ------------------------------------------------------------------ *)
(** ** C5: tail preservation *)

(** C5 (the code fails it).  The value 1, 2, U+00B2 has two decimal digits and
    [preserve_last = 1] lies strictly between 0 and 2, yet the call raises
    [IndexError] at the superscript digit instead of returning a value whose
    last digit position holds the original digit. *)
Theorem tail_preservation_raises_on_superscript key :
  0 < 1 < len (filter re_digit ["1"%char; "2"%char; chr 178])
  /\ deterministic_numeric_like ["1"%char; "2"%char; chr 178] 1 key
     = Raises IndexError.
Proof.
  split; [vm_compute; split; reflexivity|].
  apply deterministic_numeric_like_raises.
  - vm_compute. discriminate.
  - vm_compute. lia.
Qed.

(* ------------------------------------------------------------------ *)
(** ** [enumerate] *)

Lemma enumerate_from_cons {A} k (x : A) l :
  enumerate_from k (x :: l) = (k, x) :: enumerate_from (S k) l.
Proof. reflexivity. Qed.

Lemma in_enumerate_from {A} (l : list A) : forall k i o,
  In (i, o) (enumerate_from k l) ->
  (k <= i)%nat /\ nth_error l (i - k) = Some o.
Proof.
  induction l as [|x l IH]; intros k i o Hin.
  - destruct Hin.
  - rewrite enumerate_from_cons in Hin. destruct Hin as [Heq | Hin].
    + injection Heq as <- <-. rewrite Nat.sub_diag. split; [lia | reflexivity].
    + apply IH in Hin. destruct Hin as [Hle Hn]. split; [lia|].
      replace (i - k)%nat with (S (i - S k)) by lia. exact Hn.
Qed.

Lemma enumerate_from_index_unique {A} (l : list A) k i o o' :
  In (i, o) (enumerate_from k l) -> In (i, o') (enumerate_from k l) -> o = o'.
Proof.
  intros H1 H2. apply in_enumerate_from in H1, H2.
  destruct H1 as [_ H1], H2 as [_ H2]. congruence.
Qed.

Lemma map_snd_filter_enumerate {A} (f : A -> bool) (l : list A) : forall k,
  map snd (filter (fun io => f (snd io)) (enumerate_from k l)) = filter f l.
Proof.
  induction l as [|x l IH]; intros k; [reflexivity|].
  rewrite enumerate_from_cons. simpl. destruct (f x); simpl; now rewrite IH.
Qed.

Lemma existsb_filter_enumerate {A} (g : A -> bool) (l : list A) : forall k,
  filter (fun io => g (snd io)) (enumerate_from k l) = [] <->
  existsb g l = false.
Proof.
  induction l as [|x l IH]; intros k; [simpl; tauto|].
  rewrite enumerate_from_cons. simpl. destruct (g x); simpl.
  - split; discriminate.
  - apply IH.
Qed.

Lemma forallb_enumerate {A} (f : A -> bool) (l : list A) : forall k,
  forallb (fun io => f (snd io)) (enumerate_from k l) = forallb f l.
Proof.
  induction l as [|x l IH]; intros k; [reflexivity|].
  rewrite enumerate_from_cons. simpl. now rewrite IH.
Qed.

(** Membership of an index in the indices selected by [g]. *)
Lemma index_selected {A} (g : A -> bool) (l : list A) k io :
  In io (enumerate_from k l) ->
  existsb (Nat.eqb (fst io))
    (map fst (filter (fun io' => g (snd io')) (enumerate_from k l)))
  = g (snd io).
Proof.
  intros Hin. apply eq_iff_eq_true. rewrite existsb_exists. split.
  - intros [j [Hj Heq]]. apply Nat.eqb_eq in Heq. subst j.
    apply in_map_iff in Hj. destruct Hj as [[i' o'] [Hfst Hsel]].
    simpl in Hfst. apply filter_In in Hsel. destruct Hsel as [Hin' Hg].
    destruct io as [i o]. simpl in *. subst i'.
    now rewrite (enumerate_from_index_unique l k i o o' Hin Hin').
  - intros Hg. exists (fst io). split; [|apply Nat.eqb_refl].
    apply in_map. apply filter_In. split; assumption.
Qed.

(* ------------------------------------------------------------------ *)
(** ** [step] by elements *)

Import Pii.

Lemma geb_ltb a b : (a >=? b) = negb (a <? b).
Proof. rewrite Z.geb_leb. apply Z.leb_antisym. Qed.

Lemma judge_fold out c : forall (ps : list (nat * ent)) st,
  (forall io, In io ps -> nth_error out (fst io) = Some (snd io)) ->
  fold_left (judge out c) (map fst ps) st
  = (fst st && forallb (fun io => width (snd io) <? width c) ps,
     snd st ++ map fst (filter (fun io => width (snd io) <? width c) ps)).
Proof.
  induction ps as [|[i o] ps IH]; intros [k r] Hps; simpl.
  - now rewrite andb_true_r, app_nil_r.
  - rewrite IH by (intros io Hio; apply Hps; now right).
    pose proof (Hps (i, o) (or_introl eq_refl)) as Hio. simpl in Hio.
    unfold judge. rewrite Hio. simpl.
    rewrite geb_ltb. destruct (width o <? width c); simpl.
    + now rewrite <- app_assoc.
    + now rewrite andb_false_r.
Qed.

Lemma in_enumerate_nth {A} (l : list A) io :
  In io (enumerate l) -> nth_error l (fst io) = Some (snd io).
Proof.
  destruct io as [i o]. intros H. apply (in_enumerate_from l 0) in H.
  simpl. now rewrite Nat.sub_0_r in H.
Qed.

Lemma filter_filter {A} (f g : A -> bool) (l : list A) :
  filter f (filter g l) = filter (fun x => g x && f x) l.
Proof.
  induction l as [|x l IH]; simpl; [reflexivity|].
  destruct (g x); simpl; [destruct (f x)|]; now rewrite IH.
Qed.

Lemma forallb_filter_pred {A} (f g : A -> bool) (l : list A) :
  forallb f (filter g l) = forallb (fun x => negb (g x) || f x) l.
Proof.
  induction l as [|x l IH]; simpl; [reflexivity|].
  destruct (g x); simpl; now rewrite IH.
Qed.

Theorem step_by_elements_eq out c : step out c = step_by_elements out c.
Proof.
  unfold step, step_by_elements.
  destruct (existsb (same_span c) out); [reflexivity|].
  set (sel := filter (fun io => clash c (snd io)) (enumerate out)).
  destruct (existsb (clash c) out) eqn:Hex.
  - assert (Hne : sel <> []).
    { intros H. apply (existsb_filter_enumerate (clash c) out 0) in H. congruence. }
    destruct (map fst sel) eqn:Hmap.
    { destruct sel; [congruence | discriminate]. }
    rewrite <- Hmap. clear Hmap.
    rewrite judge_fold.
    2:{ intros io Hio. apply in_enumerate_nth.
        apply filter_In in Hio. tauto. }
    cbn [fst snd app].
    assert (Hkeep : forallb (fun io => width (snd io) <? width c) sel
                    = forallb (fun o => negb (clash c o) || (width o <? width c)) out).
    { unfold sel.
      rewrite (forallb_filter_pred (fun io => width (snd io) <? width c)
                 (fun io => clash c (snd io)) (enumerate out)).
      apply (forallb_enumerate
               (fun o => negb (clash c o) || (width o <? width c)) out 0). }
    assert (Hrem : map fst (filter (fun io => width (snd io) <? width c) sel)
                   = map fst (filter (fun io => narrower_clash c (snd io))
                                     (enumerate out))).
    { unfold sel. rewrite filter_filter. reflexivity. }
    rewrite Hkeep, Hrem.
    assert (Hout : match map fst (filter (fun io => narrower_clash c (snd io))
                                         (enumerate out)) with
                   | [] => out
                   | _ :: _ =>
                       map snd (filter
                         (fun io => negb (existsb (Nat.eqb (fst io))
                            (map fst (filter (fun io => narrower_clash c (snd io))
                                             (enumerate out)))))
                         (enumerate out))
                   end
                   = filter (fun o => negb (narrower_clash c o)) out).
    { destruct (map fst (filter (fun io => narrower_clash c (snd io))
                                (enumerate out))) eqn:Hm.
      - pose proof (map_eq_nil _ _ Hm) as Hnil.
        apply (existsb_filter_enumerate (narrower_clash c) out 0) in Hnil.
        symmetry. apply forallb_filter_id. apply forallb_forall. intros o Ho.
        destruct (narrower_clash c o) eqn:Hn; [|reflexivity].
        assert (existsb (narrower_clash c) out = true)
          by (apply existsb_exists; eauto).
        congruence.
      - rewrite <- Hm.
        rewrite <- (map_snd_filter_enumerate
                      (fun o => negb (narrower_clash c o)) out 0).
        f_equal. apply filter_ext_in. intros io Hio.
        f_equal. exact (index_selected (narrower_clash c) out 0 io Hio). }
    rewrite Hout. reflexivity.
  - apply (existsb_filter_enumerate (clash c) out 0) in Hex.
    unfold sel. change (enumerate out) with (enumerate_from 0 out).
    now rewrite Hex.
Qed.

(* ------------------------------------------------------------------ *)
(** ** The tests of [step] as propositions *)

Lemma str_eqb_eq a b : str_eqb a b = true <-> a = b.
Proof. unfold str_eqb. destruct (list_eq_dec ascii_dec a b); split; congruence. Qed.

Lemma str_eqb_refl a : str_eqb a a = true.
Proof. now apply str_eqb_eq. Qed.

Lemma str_eqb_sym a b : str_eqb a b = str_eqb b a.
Proof.
  apply eq_iff_eq_true. rewrite !str_eqb_eq. split; congruence.
Qed.

Lemma same_span_iff c o :
  same_span c o = true <-> s c = s o /\ e c = e o /\ lbl c = lbl o.
Proof.
  unfold same_span. rewrite !andb_true_iff, !Z.eqb_eq, str_eqb_eq. tauto.
Qed.

Lemma clash_iff c o :
  clash c o = true <-> lbl o = lbl c /\ s o < e c /\ s c < e o.
Proof.
  unfold clash. rewrite andb_true_iff, negb_true_iff, orb_false_iff, str_eqb_eq.
  rewrite geb_ltb, negb_false_iff, Z.leb_gt, Z.ltb_lt. tauto.
Qed.

Lemma clash_sym c o : clash c o = clash o c.
Proof.
  apply eq_iff_eq_true. rewrite !clash_iff. split; intros [? [? ?]]; auto.
Qed.

Lemma same_span_sym c o : same_span c o = same_span o c.
Proof.
  apply eq_iff_eq_true. rewrite !same_span_iff.
  split; intros [? [? ?]]; auto.
Qed.

Lemma same_span_refl c : same_span c c = true.
Proof. apply same_span_iff. auto. Qed.

(* ------------------------------------------------------------------ *)
(** ** Ordered pairs of a list *)

Lemma FOP_filter {A} (R : A -> A -> Prop) (f : A -> bool) (l : list A) :
  ForallOrdPairs R l -> ForallOrdPairs R (filter f l).
Proof.
  induction 1 as [|a l Ha _ IH]; simpl; [constructor|].
  destruct (f a); [|assumption].
  constructor; [|assumption].
  apply Forall_forall. intros x Hx. apply filter_In in Hx.
  rewrite Forall_forall in Ha. now apply Ha.
Qed.

Lemma FOP_snoc {A} (R : A -> A -> Prop) (l : list A) (c : A) :
  ForallOrdPairs R l -> Forall (fun a => R a c) l ->
  ForallOrdPairs R (l ++ [c]).
Proof.
  induction 1 as [|a l Ha _ IH]; intros Hc; simpl.
  - repeat constructor.
  - inversion Hc as [|? ? Hac Hc']; subst.
    constructor; [|now apply IH].
    apply Forall_app. split; [assumption | now constructor].
Qed.

Lemma fold_left_preserves {A B} (f : A -> B -> A) (P : A -> Prop) :
  (forall a b, P a -> P (f a b)) ->
  forall l a, P a -> P (fold_left f l a).
Proof.
  intros Hf. induction l as [|b l IH]; intros a Ha; simpl; [assumption|].
  apply IH, Hf, Ha.
Qed.

(* ------------------------------------------------------------------ *)
(** ** The invariants of [step] *)

Lemma step_members out c x :
  In x (step out c) -> In x out \/ x = c.
Proof.
  rewrite step_by_elements_eq. unfold step_by_elements.
  destruct (existsb (same_span c) out); [tauto|].
  destruct (existsb (clash c) out).
  - destruct (forallb _ out); intros H.
    + apply in_app_or in H. destruct H as [H|[H|[]]]; [|now right].
      apply filter_In in H. tauto.
    + apply filter_In in H. tauto.
  - intros H. apply in_app_or in H. destruct H as [H|[H|[]]]; auto.
Qed.

Lemma step_no_duplicate_span out c :
  no_duplicate_span out -> no_duplicate_span (step out c).
Proof.
  unfold no_duplicate_span. intros Hout.
  rewrite step_by_elements_eq. unfold step_by_elements.
  destruct (existsb (same_span c) out) eqn:Hdup; [assumption|].
  assert (Hfresh : forall a, In a out -> same_span a c = false).
  { intros a Ha. rewrite same_span_sym.
    destruct (same_span c a) eqn:H; [|reflexivity].
    assert (existsb (same_span c) out = true) by (apply existsb_exists; eauto).
    congruence. }
  destruct (existsb (clash c) out).
  - destruct (forallb _ out).
    + apply FOP_snoc; [now apply FOP_filter|].
      apply Forall_forall. intros a Ha. apply filter_In in Ha.
      apply Hfresh. tauto.
    + now apply FOP_filter.
  - apply FOP_snoc; [assumption|]. now apply Forall_forall.
Qed.

Lemma step_no_same_label_overlap out c :
  no_same_label_overlap out -> no_same_label_overlap (step out c).
Proof.
  unfold no_same_label_overlap. intros Hout.
  rewrite step_by_elements_eq. unfold step_by_elements.
  destruct (existsb (same_span c) out); [assumption|].
  destruct (existsb (clash c) out) eqn:Hclash.
  - destruct (forallb _ out) eqn:Hkeep.
    + apply FOP_snoc; [now apply FOP_filter|].
      apply Forall_forall. intros a Ha. apply filter_In in Ha.
      destruct Ha as [Ha Hn]. rewrite forallb_forall in Hkeep.
      specialize (Hkeep a Ha). unfold narrower_clash in Hn.
      rewrite clash_sym. destruct (clash c a); [|reflexivity].
      simpl in *. rewrite Hkeep in Hn. discriminate.
    + now apply FOP_filter.
  - apply FOP_snoc; [assumption|].
    apply Forall_forall. intros a Ha. rewrite clash_sym.
    destruct (clash c a) eqn:H; [|reflexivity].
    assert (existsb (clash c) out = true) by (apply existsb_exists; eauto).
    congruence.
Qed.

(* ------------------------------------------------------------------ *)
(** ** The stable sort keeps the elements *)

Lemma insert_stable_In {A} (lt : A -> A -> bool) x y l :
  In y (insert_stable lt x l) <-> y = x \/ In y l.
Proof.
  induction l as [|z l IH]; simpl.
  - intuition.
  - destruct (lt z x); simpl; [rewrite IH|]; intuition.
Qed.

Lemma sort_stable_In {A} (lt : A -> A -> bool) y l :
  In y (sort_stable lt l) <-> In y l.
Proof.
  induction l as [|x l IH]; simpl; [tauto|].
  rewrite insert_stable_In, IH. intuition.
Qed.

Lemma flatten_In text lists x :
  In x (flatten text lists) <->
  exists L t, In L lists /\ In t L /\ In x (accept_candidate text t).
Proof.
  unfold flatten. rewrite in_flat_map. split.
  - intros [L [HL Hx]]. apply in_flat_map in Hx. destruct Hx as [t [Ht Hx]].
    eauto.
  - intros [L [t [HL [Ht Hx]]]]. exists L. split; [assumption|].
    apply in_flat_map. eauto.
Qed.

Lemma flatten_within text lists x :
  In x (flatten text lists) -> 0 <= s x < e x /\ e x <= len text.
Proof.
  rewrite flatten_In. intros [L [t [_ [_ Hx]]]].
  destruct t as [v l s0 e0|]; simpl in Hx; [|destruct Hx].
  destruct (_within text s0 e0) eqn:Hw; [|destruct Hx].
  destruct Hx as [<-|[]]. simpl. unfold _within in Hw.
  rewrite !andb_true_iff, !Z.leb_le, Z.ltb_lt in Hw. lia.
Qed.

Lemma merge_members text lists x :
  In x (_merge_and_dedupe text lists) -> In x (flatten text lists).
Proof.
  unfold _merge_and_dedupe.
  rewrite <- (sort_stable_In key_lt x (flatten text lists)).
  generalize (sort_stable key_lt (flatten text lists)). intros ents.
  assert (H : forall out, In x (fold_left step ents out) ->
                          In x out \/ In x ents).
  { induction ents as [|c ents IH]; intros out Hx; simpl in *; [tauto|].
    apply IH in Hx. destruct Hx as [Hx|Hx]; [|tauto].
    apply step_members in Hx. intuition. }
  intros Hx. apply H in Hx. destruct Hx as [[]|Hx]. exact Hx.
Qed.

Lemma merge_no_duplicate_span text lists :
  no_duplicate_span (_merge_and_dedupe text lists).
Proof.
  unfold _merge_and_dedupe. apply fold_left_preserves.
  - intros a b. apply step_no_duplicate_span.
  - constructor.
Qed.

Lemma merge_no_same_label_overlap text lists :
  no_same_label_overlap (_merge_and_dedupe text lists).
Proof.
  unfold _merge_and_dedupe. apply fold_left_preserves.
  - intros a b. apply step_no_same_label_overlap.
  - constructor.
Qed.

(* ------------------------------------------------------------------ *)
(** ** A candidate is lost only to one at least as wide *)

Lemma forallb_false_exists {A} (f : A -> bool) (l : list A) :
  forallb f l = false -> exists x, In x l /\ f x = false.
Proof.
  induction l as [|x l IH]; simpl; [discriminate|].
  destruct (f x) eqn:Hx; simpl.
  - intros H. destruct (IH H) as [y [Hy Hfy]]. eauto.
  - intros _. eauto.
Qed.

Lemma existsb_false_forall {A} (f : A -> bool) (l : list A) x :
  existsb f l = false -> In x l -> f x = false.
Proof.
  intros H Hx. destruct (f x) eqn:Hf; [|reflexivity].
  assert (existsb f l = true) by (apply existsb_exists; eauto). congruence.
Qed.

Lemma step_incl U out c :
  incl out U -> In c U -> incl (step out c) U.
Proof.
  intros Hout Hc x Hx. apply step_members in Hx.
  destruct Hx as [Hx | ->]; auto.
Qed.

Lemma step_covered_kept U out c0 c :
  In c0 U -> covered U out c -> covered U (step out c0) c.
Proof.
  intros Hc0 [[o [Ho Hsame]] | Hlost]; [|now right].
  rewrite step_by_elements_eq. unfold step_by_elements.
  destruct (existsb (same_span c0) out); [left; eauto|].
  destruct (existsb (clash c0) out).
  - destruct (narrower_clash c0 o) eqn:Hn.
    + right. exists c0. unfold narrower_clash in Hn.
      apply andb_true_iff in Hn. destruct Hn as [Hcl Hw].
      apply clash_iff in Hcl. destruct Hcl as [Hlo [Hso Heo]].
      apply Z.ltb_lt in Hw.
      pose proof (proj1 (same_span_iff c o) Hsame) as [Hs [He Hl]].
      unfold width in *. split; [assumption|]. split; [|split; [lia|]].
      * apply clash_iff. split; [congruence | lia].
      * destruct (same_span c c0) eqn:Hsc; [|reflexivity].
        apply same_span_iff in Hsc. lia.
    + left. exists o. split; [|assumption].
      assert (Hin : In o (filter (fun o => negb (narrower_clash c0 o)) out))
        by (apply filter_In; split; [assumption | now rewrite Hn]).
      destruct (forallb _ out); [apply in_or_app; now left | assumption].
  - left. exists o. split; [apply in_or_app; now left | assumption].
Qed.

Lemma step_covered_new U out c0 :
  incl out U -> covered U (step out c0) c0.
Proof.
  intros Hout. rewrite step_by_elements_eq. unfold step_by_elements.
  destruct (existsb (same_span c0) out) eqn:Hdup.
  { apply existsb_exists in Hdup. destruct Hdup as [o [Ho Hs]]. left. eauto. }
  assert (Hself : forall l, covered U (l ++ [c0]) c0).
  { intros l. left. exists c0. split; [|apply same_span_refl].
    apply in_or_app. right. now left. }
  destruct (existsb (clash c0) out); [|apply Hself].
  destruct (forallb _ out) eqn:Hkeep; [apply Hself|].
  apply forallb_false_exists in Hkeep. destruct Hkeep as [o [Ho Hf]].
  apply orb_false_iff in Hf. destruct Hf as [Hcl Hw].
  apply negb_false_iff in Hcl. apply Z.ltb_ge in Hw.
  right. exists o. split; [now apply Hout|]. split; [assumption|].
  split; [assumption|]. now apply (existsb_false_forall _ out).
Qed.

Lemma fold_step_covered U : forall ents out,
  incl out U -> incl ents U ->
  forall c, In c ents \/ covered U out c ->
            covered U (fold_left step ents out) c.
Proof.
  induction ents as [|c0 ents IH]; intros out Hout Hents c Hc; simpl.
  - destruct Hc as [[]|Hc]. exact Hc.
  - assert (Hc0 : In c0 U) by (apply Hents; now left).
    apply IH.
    + now apply step_incl.
    + intros x Hx. apply Hents. now right.
    + destruct Hc as [[<-|Hc]|Hc]; [right | now left | right].
      * now apply step_covered_new.
      * now apply step_covered_kept.
Qed.

Lemma merge_covered text lists c :
  In c (flatten text lists) ->
  covered (flatten text lists) (_merge_and_dedupe text lists) c.
Proof.
  intros Hc. unfold _merge_and_dedupe. apply fold_step_covered.
  - intros x [].
  - intros x Hx. now apply sort_stable_In in Hx.
  - left. now apply sort_stable_In.
Qed.

(* ------------------------------------------------------------------ *)
(** ** The stable sort and [filter] *)

Section StableSortFacts.
Context {A : Type} (lt : A -> A -> bool).
Hypothesis lt_asym : forall a b, lt a b = true -> lt b a = false.
Hypothesis ge_trans : forall a b c,
  lt a b = false -> lt b c = false -> lt a c = false.

Lemma insert_stable_ascending x l :
  ascending lt l -> ascending lt (insert_stable lt x l).
Proof.
  unfold ascending.
  induction 1 as [|y l Hy Hl IH]; simpl; [repeat constructor|].
  destruct (lt y x) eqn:Hyx.
  - constructor; [|assumption].
    apply Forall_forall. intros z Hz. apply insert_stable_In in Hz.
    destruct Hz as [-> | Hz]; [now apply lt_asym|].
    rewrite Forall_forall in Hy. now apply Hy.
  - constructor; [|now constructor].
    constructor; [assumption|].
    apply Forall_forall. intros z Hz. rewrite Forall_forall in Hy.
    apply ge_trans with y; [now apply Hy | assumption].
Qed.

Lemma sort_stable_ascending l : ascending lt (sort_stable lt l).
Proof.
  induction l as [|x l IH]; simpl; [constructor|].
  now apply insert_stable_ascending.
Qed.

Lemma insert_stable_head x l :
  Forall (fun z => lt z x = false) l -> insert_stable lt x l = x :: l.
Proof.
  destruct l as [|y l]; [reflexivity|]. intros H.
  inversion H as [|? ? Hy _]; subst. simpl. now rewrite Hy.
Qed.

Lemma filter_insert_stable (p : A -> bool) x l :
  ascending lt l ->
  filter p (insert_stable lt x l)
  = if p x then insert_stable lt x (filter p l) else filter p l.
Proof.
  unfold ascending.
  induction 1 as [|y l Hy Hl IH]; simpl.
  - now destruct (p x).
  - destruct (lt y x) eqn:Hyx; simpl.
    + rewrite IH. destruct (p y), (p x); simpl; try reflexivity.
      now rewrite Hyx.
    + destruct (p x); [|reflexivity].
      rewrite insert_stable_head; [reflexivity|].
      apply Forall_forall. intros z Hz.
      assert (Hin : In z (y :: l)).
      { destruct (p y); [|apply filter_In in Hz; right; tauto].
        destruct Hz as [->|Hz]; [now left|].
        apply filter_In in Hz. right. tauto. }
      destruct Hin as [->|Hin]; [assumption|].
      rewrite Forall_forall in Hy.
      apply ge_trans with y; [now apply Hy | assumption].
Qed.

Lemma filter_sort_stable (p : A -> bool) l :
  filter p (sort_stable lt l) = sort_stable lt (filter p l).
Proof.
  induction l as [|x l IH]; simpl; [reflexivity|].
  rewrite filter_insert_stable by apply sort_stable_ascending.
  rewrite IH. now destruct (p x).
Qed.
End StableSortFacts.

Lemma key_lt_iff a b :
  key_lt a b = true <-> s a < s b \/ (s a = s b /\ e b < e a).
Proof.
  unfold key_lt, span_key_lt.
  rewrite orb_true_iff, andb_true_iff, !Z.ltb_lt, Z.eqb_eq. lia.
Qed.

Lemma key_lt_false a b :
  key_lt a b = false <-> s b < s a \/ (s a = s b /\ e a <= e b).
Proof.
  rewrite <- not_true_iff_false, key_lt_iff. lia.
Qed.

Lemma key_lt_asym a b : key_lt a b = true -> key_lt b a = false.
Proof. rewrite key_lt_iff, key_lt_false. lia. Qed.

Lemma key_ge_trans a b c :
  key_lt a b = false -> key_lt b c = false -> key_lt a c = false.
Proof. rewrite !key_lt_false. lia. Qed.

(* ------------------------------------------------------------------ *)
(** ** Labels are reconciled independently *)

Lemma filter_flat_map {A B} (p : B -> bool) (f : A -> list B) (l : list A) :
  filter p (flat_map f l) = flat_map (fun x => filter p (f x)) l.
Proof.
  induction l as [|x l IH]; simpl; [reflexivity|].
  now rewrite filter_app, IH.
Qed.

Lemma flat_map_filter {A B} (q : A -> bool) (f : A -> list B) (l : list A) :
  flat_map f (filter q l) = flat_map (fun x => if q x then f x else []) l.
Proof.
  induction l as [|x l IH]; simpl; [reflexivity|].
  destruct (q x); simpl; now rewrite IH.
Qed.

Lemma flat_map_map {A B C} (f : B -> list C) (g : A -> B) (l : list A) :
  flat_map f (map g l) = flat_map (fun x => f (g x)) l.
Proof. induction l as [|x l IH]; simpl; [reflexivity|]. now rewrite IH. Qed.

Lemma accept_candidate_label text L t :
  filter (has_label L) (accept_candidate text t)
  = if labelled L t then accept_candidate text t else [].
Proof.
  destruct t as [v l s0 e0|]; simpl; [|reflexivity].
  destruct (_within text s0 e0); simpl.
  - unfold has_label. simpl. now destruct (str_eqb (_sanitize_label l) L).
  - now destruct (str_eqb (_sanitize_label l) L).
Qed.

Lemma flatten_label text L lists :
  filter (has_label L) (flatten text lists)
  = flatten text (map (filter (labelled L)) lists).
Proof.
  unfold flatten. rewrite filter_flat_map, flat_map_map.
  apply flat_map_ext. intros l.
  rewrite filter_flat_map, flat_map_filter. apply flat_map_ext. intros t.
  apply accept_candidate_label.
Qed.

Lemma existsb_filter_implied {A} (f p : A -> bool) (l : list A) :
  (forall x, f x = true -> p x = true) ->
  existsb f (filter p l) = existsb f l.
Proof.
  intros H. induction l as [|x l IH]; simpl; [reflexivity|].
  destruct (p x) eqn:Hp; simpl; rewrite IH; [reflexivity|].
  destruct (f x) eqn:Hf; [|reflexivity].
  apply H in Hf. congruence.
Qed.

Lemma forallb_filter_implied {A} (g p : A -> bool) (l : list A) :
  (forall x, p x = false -> g x = true) ->
  forallb g (filter p l) = forallb g l.
Proof.
  intros H. induction l as [|x l IH]; simpl; [reflexivity|].
  destruct (p x) eqn:Hp; simpl; rewrite IH; [reflexivity|].
  now rewrite (H x Hp).
Qed.

Lemma filter_comm {A} (f g : A -> bool) (l : list A) :
  filter f (filter g l) = filter g (filter f l).
Proof.
  rewrite !filter_filter. apply filter_ext. intros x. apply andb_comm.
Qed.

Lemma same_span_label L c o :
  has_label L c = true -> same_span c o = true -> has_label L o = true.
Proof.
  unfold has_label. rewrite !str_eqb_eq, same_span_iff. intros <- [_ [_ H]].
  now symmetry.
Qed.

Lemma clash_label L c o :
  has_label L c = true -> clash c o = true -> has_label L o = true.
Proof.
  unfold has_label. rewrite !str_eqb_eq, clash_iff. intros <- [H _].
  assumption.
Qed.

Lemma clash_other_label L c o :
  has_label L c = false -> has_label L o = true -> clash c o = false.
Proof.
  intros Hc Ho. destruct (clash c o) eqn:H; [|reflexivity].
  rewrite clash_sym in H. pose proof (clash_label L o c Ho H). congruence.
Qed.

Lemma step_label_same L out c :
  has_label L c = true ->
  filter (has_label L) (step out c) = step (filter (has_label L) out) c.
Proof.
  intros Hc. rewrite !step_by_elements_eq. unfold step_by_elements.
  rewrite (existsb_filter_implied (same_span c))
    by (intros x; apply same_span_label; assumption).
  rewrite (existsb_filter_implied (clash c))
    by (intros x; apply clash_label; assumption).
  rewrite (forallb_filter_implied
             (fun o => negb (clash c o) || (width o <? width c))).
  2:{ intros x Hx. destruct (clash c x) eqn:Hcl; [|reflexivity].
      pose proof (clash_label L c x Hc Hcl). congruence. }
  destruct (existsb (same_span c) out); [reflexivity|].
  destruct (existsb (clash c) out).
  - destruct (forallb _ out).
    + rewrite filter_app. simpl. rewrite Hc. now rewrite filter_comm.
    + apply filter_comm.
  - rewrite filter_app. simpl. now rewrite Hc.
Qed.

Lemma step_label_other L out c :
  has_label L c = false ->
  filter (has_label L) (step out c) = filter (has_label L) out.
Proof.
  intros Hc. rewrite step_by_elements_eq. unfold step_by_elements.
  assert (Hrem : filter (has_label L)
                   (filter (fun o => negb (narrower_clash c o)) out)
                 = filter (has_label L) out).
  { rewrite filter_filter. apply filter_ext. intros o.
    destruct (has_label L o) eqn:Ho; [|apply andb_false_r].
    unfold narrower_clash. now rewrite (clash_other_label L c o Hc Ho). }
  destruct (existsb (same_span c) out); [reflexivity|].
  destruct (existsb (clash c) out).
  - destruct (forallb _ out); [|exact Hrem].
    rewrite filter_app. simpl. rewrite Hc, app_nil_r. exact Hrem.
  - rewrite filter_app. simpl. now rewrite Hc, app_nil_r.
Qed.

Lemma fold_step_label L : forall ents out,
  filter (has_label L) (fold_left step ents out)
  = fold_left step (filter (has_label L) ents) (filter (has_label L) out).
Proof.
  induction ents as [|c ents IH]; intros out; simpl; [reflexivity|].
  rewrite IH. destruct (has_label L c) eqn:Hc; simpl.
  - now rewrite step_label_same.
  - now rewrite step_label_other.
Qed.

Lemma merge_label text L lists :
  filter (has_label L) (_merge_and_dedupe text lists)
  = _merge_and_dedupe text (map (filter (labelled L)) lists).
Proof.
  unfold _merge_and_dedupe. rewrite fold_step_label. simpl.
  rewrite (filter_sort_stable key_lt key_lt_asym key_ge_trans).
  now rewrite flatten_label.
Qed.

(** Dropping what the flattening loop rejects changes nothing. *)
Lemma flatten_acceptable text lists :
  flatten text (map (filter (acceptable text)) lists) = flatten text lists.
Proof.
  unfold flatten. rewrite flat_map_map. apply flat_map_ext. intros l.
  rewrite flat_map_filter. apply flat_map_ext. intros [v l0 s0 e0|]; simpl.
  - now destruct (_within text s0 e0).
  - reflexivity.
Qed.

(* ------------------------------------------------------------------ *)
(** ** Two candidates resolved against each other *)


Lemma step_single_loses o c :
  clash c o = true -> width c <= width o -> same_span c o = false ->
  step [o] c = [o].
Proof.
  intros Hcl Hw Hs. rewrite step_by_elements_eq. unfold step_by_elements.
  simpl. rewrite Hs, Hcl. simpl.
  replace (width o <? width c) with false by (symmetry; apply Z.ltb_ge; lia).
  simpl. unfold narrower_clash. rewrite Hcl.
  replace (width o <? width c) with false by (symmetry; apply Z.ltb_ge; lia).
  reflexivity.
Qed.

Lemma step_single_wins o c :
  clash c o = true -> width o < width c -> step [o] c = [c].
Proof.
  intros Hcl Hw. rewrite step_by_elements_eq. unfold step_by_elements.
  assert (Hs : same_span c o = false).
  { destruct (same_span c o) eqn:H; [|reflexivity].
    apply same_span_iff in H. unfold width in Hw. lia. }
  simpl. rewrite Hs, Hcl. simpl.
  replace (width o <? width c) with true by (symmetry; apply Z.ltb_lt; lia).
  simpl. unfold narrower_clash. rewrite Hcl.
  replace (width o <? width c) with true by (symmetry; apply Z.ltb_lt; lia).
  reflexivity.
Qed.

Lemma sort_pair a b :
  sort_stable key_lt [a; b] = if key_lt b a then [b; a] else [a; b].
Proof. reflexivity. Qed.

(** Of two intersecting candidates of one label the wider stays, alone,
    in whatever order they arrive. *)
Lemma fold_pair_widest a b :
  clash a b = true -> width b < width a ->
  fold_left step (sort_stable key_lt [a; b]) [] = [a]
  /\ fold_left step (sort_stable key_lt [b; a]) [] = [a].
Proof.
  intros Hcl Hw. rewrite !sort_pair.
  assert (Hs : same_span b a = false).
  { destruct (same_span b a) eqn:H; [|reflexivity].
    apply same_span_iff in H. unfold width in Hw. lia. }
  assert (Hab : step [a] b = [a])
    by (apply step_single_loses; [now rewrite clash_sym | lia | assumption]).
  assert (Hba : step [b] a = [a]) by now apply step_single_wins.
  split; [destruct (key_lt b a) | destruct (key_lt a b)]; simpl; assumption.
Qed.

Lemma accept_candidate_within text v l s0 e0 :
  _within text s0 e0 = true ->
  accept_candidate text (Tuple v l s0 e0) = [mkEnt v (_sanitize_label l) s0 e0].
Proof. simpl. now intros ->. Qed.

Lemma within_iff text s0 e0 :
  _within text s0 e0 = true <-> 0 <= s0 < e0 /\ e0 <= len text.
Proof.
  unfold _within. rewrite !andb_true_iff, !Z.leb_le, Z.ltb_lt. lia.
Qed.

(** The same on candidates: two valid candidates of one canonical label
    whose ranges intersect, one strictly wider than the other. *)
Lemma merge_pair_widest text va la sa ea vb lb sb eb :
  _within text sa ea = true -> _within text sb eb = true ->
  _sanitize_label la = _sanitize_label lb ->
  sb < ea -> sa < eb -> eb - sb < ea - sa ->
  _merge_and_dedupe text [[Tuple va la sa ea; Tuple vb lb sb eb]]
  = [mkEnt va (_sanitize_label la) sa ea]
  /\ _merge_and_dedupe text [[Tuple vb lb sb eb; Tuple va la sa ea]]
     = [mkEnt va (_sanitize_label la) sa ea].
Proof.
  intros Ha Hb Hl H1 H2 Hw. unfold _merge_and_dedupe, flatten.
  cbn [flat_map app]. rewrite !accept_candidate_within by assumption.
  cbn [app]. apply fold_pair_widest.
  - apply clash_iff. simpl. repeat split; [now symmetry | lia | lia].
  - unfold width. simpl. lia.
Qed.

(** C3 (as stated, refuted).  Of two candidates of one label whose ranges
    intersect, the wider need not be the one that survives: (5,14) and (12,13)
    are both inside the text and intersect, (5,14) is the wider, and the
    result holds (12,13) and not (5,14), which was lost to (0,10) before
    (12,13) was looked at. *)
Example lost_to_a_third_candidate :
  _merge_and_dedupe (py "0123456789abcdefghij")
    [[Tuple (py "a") (py "X") 0 10; Tuple (py "b") (py "X") 5 14;
      Tuple (py "c") (py "X") 12 13]]
  = [mkEnt (py "a") (py "X") 0 10; mkEnt (py "c") (py "X") 12 13]
  /\ _within (py "0123456789abcdefghij") 5 14 = true
  /\ _within (py "0123456789abcdefghij") 12 13 = true
  /\ clash (mkEnt (py "c") (py "X") 12 13) (mkEnt (py "b") (py "X") 5 14) = true
  /\ width (mkEnt (py "c") (py "X") 12 13) < width (mkEnt (py "b") (py "X") 5 14)
  /\ In (mkEnt (py "c") (py "X") 12 13)
        (_merge_and_dedupe (py "0123456789abcdefghij")
           [[Tuple (py "a") (py "X") 0 10; Tuple (py "b") (py "X") 5 14;
             Tuple (py "c") (py "X") 12 13]])
  /\ ~ In (mkEnt (py "b") (py "X") 5 14)
        (_merge_and_dedupe (py "0123456789abcdefghij")
           [[Tuple (py "a") (py "X") 0 10; Tuple (py "b") (py "X") 5 14;
             Tuple (py "c") (py "X") 12 13]]).
Proof.
  assert (Hout : _merge_and_dedupe (py "0123456789abcdefghij")
            [[Tuple (py "a") (py "X") 0 10; Tuple (py "b") (py "X") 5 14;
              Tuple (py "c") (py "X") 12 13]]
          = [mkEnt (py "a") (py "X") 0 10; mkEnt (py "c") (py "X") 12 13])
    by (vm_compute; reflexivity).
  rewrite Hout.
  split; [reflexivity|]. split; [vm_compute; reflexivity|].
  split; [vm_compute; reflexivity|]. split; [vm_compute; reflexivity|].
  split; [vm_compute; reflexivity|]. split; [right; left; reflexivity|].
  intros [H|[H|[]]]; discriminate H.
Qed.

(* ------------------------------------------------------------------ *)
(** ** C3: the invariants of the reconciled set *)

(** C3 (amended).  For every text and every collection of candidate batches,
    the list returned by [_merge_and_dedupe]
    - has no two members with the same (start, end, label);
    - has no two members of one label whose ranges intersect;
    - accounts for every valid candidate: either a member has its span and
      label, or a candidate of the same label intersects it and is at least
      as wide (a candidate is lost only to a wider or equal one, which may
      itself be lost to a third);
    - resolves each label on its own: the members of label [L] are what
      reconciling the candidates of label [L] alone returns;
    of two valid candidates of one label whose ranges intersect, reconciled
    against each other and nothing else, only the wider is returned; and on
    any text of 9 characters or more, (0,4,"PERSON") with (0,9,"PERSON")
    leaves only (0,9,"PERSON"), while (0,9,"PERSON") and (3,6,"DATE") both
    stay. *)
Theorem reconciled_set_invariants (text : str) (lists : list (list candidate)) :
  no_duplicate_span (_merge_and_dedupe text lists)
  /\ no_same_label_overlap (_merge_and_dedupe text lists)
  /\ (forall c, In c (flatten text lists) ->
        covered (flatten text lists) (_merge_and_dedupe text lists) c)
  /\ (forall L, filter (has_label L) (_merge_and_dedupe text lists)
                = _merge_and_dedupe text (map (filter (labelled L)) lists))
  /\ (forall va la sa ea vb lb sb eb,
        _within text sa ea = true -> _within text sb eb = true ->
        _sanitize_label la = _sanitize_label lb ->
        sb < ea -> sa < eb -> eb - sb < ea - sa ->
        _merge_and_dedupe text [[Tuple va la sa ea; Tuple vb lb sb eb]]
        = [mkEnt va (_sanitize_label la) sa ea]
        /\ _merge_and_dedupe text [[Tuple vb lb sb eb; Tuple va la sa ea]]
           = [mkEnt va (_sanitize_label la) sa ea])
  /\ (forall v1 v2, 9 <= len text ->
        _merge_and_dedupe text
          [[Tuple v1 (py "PERSON") 0 4; Tuple v2 (py "PERSON") 0 9]]
        = [mkEnt v2 (py "PERSON") 0 9])
  /\ (forall v1 v2, 9 <= len text ->
        _merge_and_dedupe text
          [[Tuple v1 (py "PERSON") 0 9; Tuple v2 (py "DATE") 3 6]]
        = [mkEnt v1 (py "PERSON") 0 9; mkEnt v2 (py "DATE") 3 6]).
Proof.
  split; [apply merge_no_duplicate_span|].
  split; [apply merge_no_same_label_overlap|].
  split; [intros c; apply merge_covered|].
  split; [intros L; apply merge_label|].
  split; [apply merge_pair_widest|].
  assert (H4 : 9 <= len text -> _within text 0 4 = true)
    by (intros; apply within_iff; lia).
  assert (H9 : 9 <= len text -> _within text 0 9 = true)
    by (intros; apply within_iff; lia).
  assert (H6 : 9 <= len text -> _within text 3 6 = true)
    by (intros; apply within_iff; lia).
  split; intros v1 v2 Hlen; unfold _merge_and_dedupe, flatten;
    cbn [flat_map app]; rewrite !accept_candidate_within by auto;
    vm_compute; reflexivity.
Qed.

Lemma reconciled_set_invariants_witness :
  _merge_and_dedupe (py "John Smith was here")
    [[Tuple (py "John") (py "PERSON") 0 4; Tuple (py "John Smit") (py "PERSON") 0 9]]
  = [mkEnt (py "John Smit") (py "PERSON") 0 9]
  /\ no_same_label_overlap
       (_merge_and_dedupe (py "John Smith was here")
          [[Tuple (py "John") (py "PERSON") 0 4];
           [Tuple (py "John Smit") (py "PERSON") 0 9;
            Tuple (py "n S") (py "DATE") 3 6]]).
Proof.
  split.
  - apply (proj1 (proj2 (proj2 (proj2 (proj2 (proj2
      (reconciled_set_invariants (py "John Smith was here") []))))))).
    vm_compute. discriminate.
  - apply (proj1 (proj2 (reconciled_set_invariants (py "John Smith was here")
      [[Tuple (py "John") (py "PERSON") 0 4];
       [Tuple (py "John Smit") (py "PERSON") 0 9;
        Tuple (py "n S") (py "DATE") 3 6]]))).
Defined.

(* ------------------------------------------------------------------ *)
(** ** C8: malformed candidates *)

(** C8 (as stated, refuted).  No count of the dropped candidates is returned:
    the returned list is the same with and without the malformed span
    (5,3,"X"), so nothing computed from the return value can be that count. *)
Lemma rejection_count_not_returned :
  ~ exists count : list ent -> nat,
      forall text lists,
        count (_merge_and_dedupe text lists) = rejected text lists.
Proof.
  intros [count H].
  pose proof (H (py "abcdef") [[]]) as H0.
  pose proof (H (py "abcdef") [[Tuple (py "X") (py "X") 5 3]]) as H1.
  vm_compute in H0, H1. congruence.
Qed.

(** C8 (amended).  [_merge_and_dedupe] returns a list for whatever candidates
    it is given: a candidate that is out of bounds, has [start >= end] or is
    wrong-typed is dropped without a trace, the result being the one obtained
    from the remaining candidates alone, and every returned span lies within
    the text.  The function returns the span list only. *)
Theorem malformed_candidates_dropped (text : str) (lists : list (list candidate)) :
  _merge_and_dedupe text lists
  = _merge_and_dedupe text (map (filter (acceptable text)) lists)
  /\ Forall (fun x => 0 <= s x < e x /\ e x <= len text)
            (_merge_and_dedupe text lists)
  /\ (forall L1 L2 v l,
        _merge_and_dedupe text (L1 :: (Tuple v l 5 3 :: L2) :: lists)
        = _merge_and_dedupe text (L1 :: L2 :: lists))
  /\ (forall L1 L2,
        _merge_and_dedupe text (L1 :: (Malformed :: L2) :: lists)
        = _merge_and_dedupe text (L1 :: L2 :: lists)).
Proof.
  split; [unfold _merge_and_dedupe; now rewrite flatten_acceptable|].
  split.
  - apply Forall_forall. intros x Hx. apply merge_members in Hx.
    now apply flatten_within in Hx.
  - split; intros; unfold _merge_and_dedupe, flatten; cbn [flat_map];
      reflexivity.
Qed.

(* ------------------------------------------------------------------ *)
(** ** feedback_loop.py: [dedupe_overlaps] *)

Module FeedbackFacts.
Import Feedback.

Lemma fb_clash_iff a b :
  clash a b = true <->
  label b = label a /\ start b < end_ a /\ start a < end_ b.
Proof.
  unfold clash. rewrite andb_true_iff, negb_true_iff, orb_false_iff, str_eqb_eq.
  rewrite geb_ltb, negb_false_iff, Z.leb_gt, Z.ltb_lt. tauto.
Qed.

Lemma fb_clash_sym a b : clash a b = clash b a.
Proof.
  apply eq_iff_eq_true. rewrite !fb_clash_iff. split; intros [? [? ?]]; auto.
Qed.

Lemma fb_same_span_iff a b :
  same_span a b = true <->
  start a = start b /\ end_ a = end_ b /\ label a = label b.
Proof.
  unfold same_span. rewrite !andb_true_iff, !Z.eqb_eq, str_eqb_eq. tauto.
Qed.

Lemma fb_same_span_sym a b : same_span a b = same_span b a.
Proof.
  apply eq_iff_eq_true. rewrite !fb_same_span_iff.
  split; intros [? [? ?]]; auto.
Qed.

Lemma entity_eqb_refl a : entity_eqb a a = true.
Proof.
  unfold entity_eqb. now rewrite !Z.eqb_refl, !str_eqb_refl.
Qed.

Lemma widest_In first rest : In (widest first rest) (first :: rest).
Proof.
  unfold widest. revert first.
  induction rest as [|z rest IH]; intros first; simpl; [now left|].
  destruct (IH (if width first <? width z then z else first)) as [H|H].
  - rewrite <- H. destruct (width first <? width z); auto.
  - auto.
Qed.

(** No member of [rest] is wider than the chosen one. *)
Lemma widest_max first rest x :
  In x (first :: rest) -> width x <= width (widest first rest).
Proof.
  unfold widest. revert first.
  induction rest as [|z rest IH]; intros first Hx; simpl.
  - destruct Hx as [<-|[]]. lia.
  - assert (Hmono : forall l b,
              width b <= width (fold_left
                (fun best z0 => if width best <? width z0 then z0 else best) l b)).
    { induction l as [|y l IHl]; intros b; simpl; [lia|].
      specialize (IHl (if width b <? width y then y else b)).
      destruct (Z.ltb_spec (width b) (width y)); lia. }
    destruct Hx as [Hx|[Hx|Hx]].
    + subst x. etransitivity; [|apply Hmono].
      destruct (Z.ltb_spec (width first) (width z)); lia.
    + subst x. etransitivity; [|apply Hmono].
      destruct (Z.ltb_spec (width first) (width z)); lia.
    + apply IH. now right.
Qed.

(** With no strictly wider member behind it, the first one is chosen. *)
Lemma widest_first first rest :
  Forall (fun z => width z <= width first) rest -> widest first rest = first.
Proof.
  unfold widest. induction 1 as [|z rest Hz _ IH]; simpl; [reflexivity|].
  replace (width first <? width z) with false
    by (symmetry; apply Z.ltb_ge; lia).
  exact IH.
Qed.

Lemma dedupe_step_no_overlap out x :
  no_same_label_overlap out -> no_same_label_overlap (dedupe_step out x).
Proof.
  unfold no_same_label_overlap, dedupe_step. intros Hout.
  destruct (existsb (same_span x) out); [assumption|].
  destruct (filter (clash x) out) as [|c0 cs] eqn:Hcl.
  - apply FOP_snoc; [assumption|].
    apply Forall_forall. intros a Ha. rewrite fb_clash_sym.
    destruct (clash x a) eqn:H; [|reflexivity].
    assert (Hin : In a (filter (clash x) out)) by (apply filter_In; auto).
    rewrite Hcl in Hin. destruct Hin.
  - rewrite <- Hcl. apply FOP_snoc; [now apply FOP_filter|].
    apply Forall_forall. intros a Ha. apply filter_In in Ha.
    destruct Ha as [Ha Hnot]. apply negb_true_iff in Hnot.
    assert (Hna : forall b, In b (filter (clash x) out) -> a <> b).
    { intros b Hb ->.
      assert (existsb (entity_eqb b) (filter (clash x) out) = true)
        by (apply existsb_exists; exists b; split;
            [assumption | apply entity_eqb_refl]).
      congruence. }
    destruct (widest_In x (filter (clash x) out)) as [<-|Hw].
    + rewrite fb_clash_sym. destruct (clash x a) eqn:H; [|reflexivity].
      exfalso. apply (Hna a); [apply filter_In; auto | reflexivity].
    + pose proof (Hna _ Hw) as Hneq.
      apply filter_In in Hw. destruct Hw as [Hw _].
      destruct (ForallOrdPairs_In Hout a _ Ha Hw) as [Heq|[H|H]];
        [contradiction | assumption | now rewrite fb_clash_sym].
Qed.

Lemma dedupe_step_no_duplicate out x :
  no_duplicate_span out -> no_duplicate_span (dedupe_step out x).
Proof.
  unfold no_duplicate_span, dedupe_step. intros Hout.
  destruct (existsb (same_span x) out) eqn:Hdup; [assumption|].
  assert (Hfresh : forall a, In a out -> same_span a x = false).
  { intros a Ha. rewrite fb_same_span_sym.
    now apply (existsb_false_forall _ out). }
  destruct (filter (clash x) out) as [|c0 cs] eqn:Hcl.
  - apply FOP_snoc; [assumption | now apply Forall_forall].
  - rewrite <- Hcl. apply FOP_snoc; [now apply FOP_filter|].
    apply Forall_forall. intros a Ha. apply filter_In in Ha.
    destruct Ha as [Ha Hnot]. apply negb_true_iff in Hnot.
    destruct (widest_In x (filter (clash x) out)) as [<-|Hw]; [now apply Hfresh|].
    assert (Hneq : a <> widest x (filter (clash x) out)).
    { intros ->.
      assert (existsb (entity_eqb (widest x (filter (clash x) out)))
                (filter (clash x) out) = true)
        by (apply existsb_exists; eexists; split;
            [exact Hw | apply entity_eqb_refl]).
      congruence. }
    apply filter_In in Hw. destruct Hw as [Hw _].
    destruct (ForallOrdPairs_In Hout a _ Ha Hw) as [Heq|[H|H]];
      [contradiction | assumption | now rewrite fb_same_span_sym].
Qed.

Lemma dedupe_overlaps_no_overlap ents :
  no_same_label_overlap (dedupe_overlaps ents).
Proof.
  unfold dedupe_overlaps. apply fold_left_preserves.
  - intros a b. apply dedupe_step_no_overlap.
  - constructor.
Qed.

Lemma dedupe_overlaps_no_duplicate ents :
  no_duplicate_span (dedupe_overlaps ents).
Proof.
  unfold dedupe_overlaps. apply fold_left_preserves.
  - intros a b. apply dedupe_step_no_duplicate.
  - constructor.
Qed.

(** The review loop returns as soon as it has a line for every span. *)
Lemma review_returns text : forall clean inputs final,
  (length clean <= length inputs)%nat ->
  exists out, review text clean inputs final = Returns out.
Proof.
  induction clean as [|x clean IH]; intros inputs final Hlen; simpl.
  - eauto.
  - destruct inputs as [|line inputs]; simpl in Hlen; [lia|].
    assert (Hrec : forall f, exists out, review text clean inputs f = Returns out)
      by (intros f; apply IH; lia).
    repeat match goal with
    | |- exists out, review _ _ _ _ = Returns out => apply Hrec
    | |- exists out, Returns _ = Returns out => eexists; reflexivity
    | |- context [if ?b then _ else _] => destruct b
    | |- context [match ?l with [] => _ | _ :: _ => _ end] => destruct l
    | |- context [match ?o with Some _ => _ | None => _ end] => destruct o
    end.
Qed.

End FeedbackFacts.

(* ------------------------------------------------------------------ *)
(** ** Two spans resolved against each other in the review path *)

Module FeedbackPairs.
Import Feedback FeedbackFacts.

Lemma dedupe_step_first x : dedupe_step [] x = [x].
Proof. reflexivity. Qed.


(** The span at hand replaces a clashing one that is not strictly wider. *)
Lemma dedupe_step_single_wins o x :
  clash x o = true -> width o <= width x -> same_span x o = false ->
  dedupe_step [o] x = [x].
Proof.
  intros Hcl Hw Hs. unfold dedupe_step. simpl. rewrite Hs, Hcl. simpl.
  rewrite entity_eqb_refl. simpl. unfold widest. simpl.
  now replace (width x <? width o) with false
    by (symmetry; apply Z.ltb_ge; lia).
Qed.

Lemma dedupe_step_single_loses o x :
  clash x o = true -> width x < width o -> dedupe_step [o] x = [o].
Proof.
  intros Hcl Hw. unfold dedupe_step. simpl.
  assert (Hs : same_span x o = false).
  { destruct (same_span x o) eqn:H; [|reflexivity].
    apply fb_same_span_iff in H. unfold width in Hw. lia. }
  rewrite Hs, Hcl. simpl. rewrite entity_eqb_refl. simpl. unfold widest. simpl.
  now replace (width x <? width o) with true
    by (symmetry; apply Z.ltb_lt; lia).
Qed.

Lemma fb_key_lt_iff a b :
  key_lt a b = true <->
  start a < start b \/ (start a = start b /\ end_ b < end_ a).
Proof.
  unfold key_lt, span_key_lt.
  rewrite orb_true_iff, andb_true_iff, !Z.ltb_lt, Z.eqb_eq. lia.
Qed.

Lemma fb_sort_pair a b :
  sort_stable key_lt [a; b] = if key_lt b a then [b; a] else [a; b].
Proof. reflexivity. Qed.

(** Equal widths, different starts: the later start is kept. *)
Lemma dedupe_overlaps_tie A B :
  label A = label B -> width A = width B -> start A < start B < end_ A ->
  dedupe_overlaps [A; B] = [B] /\ dedupe_overlaps [B; A] = [B].
Proof.
  intros Hl Hw Hs. unfold dedupe_overlaps. rewrite !fb_sort_pair.
  assert (Hab : key_lt A B = true) by (apply fb_key_lt_iff; lia).
  assert (Hba : key_lt B A = false).
  { apply not_true_iff_false. rewrite fb_key_lt_iff. lia. }
  rewrite Hab, Hba. simpl fold_left. rewrite dedupe_step_first.
  assert (Hstep : dedupe_step [A] B = [B]).
  { apply dedupe_step_single_wins.
    - apply fb_clash_iff. unfold width in Hw. repeat split; [assumption | lia | lia].
    - lia.
    - apply not_true_iff_false. rewrite fb_same_span_iff. lia. }
  now rewrite Hstep.
Qed.


End FeedbackPairs.




(* ------------------------------------------------------------------ *)
(** ** C7: equal-width ties *)




(* ------------------------------------------------------------------ *)
(** ** C10: the review loop re-applies overlap resolution *)

(** C10.  Whatever the text, the initial entities and the lines typed, the
    list [collect_user_feedback] returns has no two intersecting spans of one
    label (and no two with the same start, end and label): the final list goes
    through [dedupe_overlaps] again.  The loop returns as soon as there is a
    line for each span it presents. *)
Theorem review_result_no_same_label_overlap
    (text : str) (entities : list Feedback.raw_entity) (inputs : list str) :
  (forall out,
     Feedback.collect_user_feedback text entities inputs = Returns out ->
     Feedback.no_same_label_overlap out /\ Feedback.no_duplicate_span out)
  /\ ((length (Feedback.clean_entities text entities) <= length inputs)%nat ->
      exists out,
        Feedback.collect_user_feedback text entities inputs = Returns out).
Proof.
  unfold Feedback.collect_user_feedback. split.
  - intros out H.
    destruct (Feedback.review text _ inputs []) as [final|x]; [|discriminate].
    injection H as <-. split.
    + apply FeedbackFacts.dedupe_overlaps_no_overlap.
    + apply FeedbackFacts.dedupe_overlaps_no_duplicate.
  - intros Hlen.
    destruct (FeedbackFacts.review_returns text _ inputs [] Hlen) as [final ->].
    eauto.
Qed.

(** An edit that moves the first span onto the second one. *)
Lemma review_result_no_same_label_overlap_witness :
  exists out,
    Feedback.collect_user_feedback (py "John Smith was here")
      [Feedback.ValueTuple None (py "person") 0 4;
       Feedback.ValueTuple None (py "person") 5 10]
      [py "e 2 6"; []] = Returns out
    /\ Feedback.no_same_label_overlap out.
Proof.
  destruct (proj2 (review_result_no_same_label_overlap (py "John Smith was here")
      [Feedback.ValueTuple None (py "person") 0 4;
       Feedback.ValueTuple None (py "person") 5 10]
      [py "e 2 6"; []]) ltac:(vm_compute; lia)) as [out Hout].
  exists out. split; [exact Hout|].
  apply (proj1 (review_result_no_same_label_overlap _ _ _) out Hout).
Defined.

(* ------------------------------------------------------------------ *)
(** ** utils.py: the row loop of [extract_spans_from_smart_config] *)

Module SmartFacts.
Import Smart.

Section Rows.
Variable lines : list str.
Variable win_first win_last : Z.
Variable base_rel : Z.
Variable fs : list field.

Local Abbreviation loop := (row_loop lines win_first win_last).
Local Abbreviation spans_at := (row_spans lines win_first win_last base_rel fs).

Lemma row_loop_unfold fuel row started :
  loop (S fuel) base_rel fs row started
  = if row <? win_last then
      match spans_at row with
      | [] => if started then [] else loop fuel base_rel fs (row + 1) false
      | added => added ++ loop fuel base_rel fs (row + 1) true
      end
    else [].
Proof.
  cbn [row_loop]. destruct (row <? win_last); [|reflexivity].
  destruct (spans_at row); [|reflexivity].
  destruct started; simpl; [reflexivity|].
  now destruct (is_break_line _).
Qed.

(** The loop needs no more than [win_last - row] turns. *)
Lemma row_loop_fuel : forall fuel extra row started,
  win_last - row <= Z.of_nat fuel ->
  loop (fuel + extra) base_rel fs row started
  = loop fuel base_rel fs row started.
Proof.
  induction fuel as [|fuel IH]; intros extra row started Hfuel.
  - destruct extra; [reflexivity|]. cbn [Nat.add]. rewrite row_loop_unfold.
    replace (row <? win_last) with false by (symmetry; apply Z.ltb_ge; lia).
    reflexivity.
  - cbn [Nat.add]. rewrite !row_loop_unfold.
    destruct (row <? win_last); [|reflexivity].
    rewrite !IH by lia. reflexivity.
Qed.

(** Rows that yield nothing before the first value are passed over. *)
Lemma row_loop_skip : forall k fuel row,
  (forall j, 0 <= j < Z.of_nat k -> spans_at (row + j) = []) ->
  loop (k + fuel) base_rel fs row false
  = loop fuel base_rel fs (row + Z.of_nat k) false.
Proof.
  induction k as [|k IH]; intros fuel row Hrows.
  - simpl. now rewrite Z.add_0_r.
  - cbn [Nat.add]. rewrite row_loop_unfold.
    destruct (Z.ltb_spec row win_last) as [Hin|Hout].
    + pose proof (Hrows 0 ltac:(lia)) as H0. rewrite Z.add_0_r in H0.
      rewrite H0, IH.
      * f_equal. lia.
      * intros j Hj. replace (row + 1 + j) with (row + (1 + j)) by lia.
        apply Hrows. lia.
    + destruct fuel; [reflexivity|]. rewrite row_loop_unfold.
      replace (row + Z.of_nat (S k) <? win_last) with false
        by (symmetry; apply Z.ltb_ge; lia).
      reflexivity.
Qed.

Lemma row_loop_nothing : forall fuel row,
  (forall r, row <= r < win_last -> spans_at r = []) ->
  loop fuel base_rel fs row false = [].
Proof.
  induction fuel as [|fuel IH]; intros row Hrows; [reflexivity|].
  rewrite row_loop_unfold.
  destruct (Z.ltb_spec row win_last) as [Hin|Hout]; [|reflexivity].
  rewrite (Hrows row) by lia. apply IH. intros r Hr. apply Hrows. lia.
Qed.

(** A loop that has not started and returns nothing met no row that yields. *)
Lemma row_loop_nothing_inv : forall fuel row,
  win_last - row <= Z.of_nat fuel ->
  loop fuel base_rel fs row false = [] ->
  forall r, row <= r < win_last -> spans_at r = [].
Proof.
  induction fuel as [|fuel IH]; intros row Hfuel Hnil r Hr; [lia|].
  rewrite row_loop_unfold in Hnil.
  replace (row <? win_last) with true in Hnil
    by (symmetry; apply Z.ltb_lt; lia).
  destruct (spans_at row) as [|sp added] eqn:Hrow; [|discriminate].
  destruct (Z.eq_dec r row) as [->|Hneq]; [assumption|].
  apply (IH (row + 1)); [lia | assumption | lia].
Qed.

(** Every emitted span is the span of one field on one row of the window. *)
Lemma row_loop_In sp : forall fuel row started,
  In sp (loop fuel base_rel fs row started) ->
  exists r f, row <= r < win_last /\ In f fs
              /\ In sp (field_span lines win_first win_last base_rel r f).
Proof.
  induction fuel as [|fuel IH]; intros row started Hsp; [destruct Hsp|].
  rewrite row_loop_unfold in Hsp.
  destruct (Z.ltb_spec row win_last) as [Hin|Hout]; [|destruct Hsp].
  assert (Hrec : forall b, In sp (loop fuel base_rel fs (row + 1) b) ->
            exists r f, row <= r < win_last /\ In f fs
              /\ In sp (field_span lines win_first win_last base_rel r f)).
  { intros b Hb. destruct (IH _ _ Hb) as [r [f [Hr H]]].
    exists r, f. split; [lia | exact H]. }
  destruct (spans_at row) as [|sp0 added] eqn:Hrow.
  - destruct started; [destruct Hsp | eauto].
  - apply in_app_or in Hsp. destruct Hsp as [Hsp|Hsp]; [|eauto].
    rewrite <- Hrow in Hsp. unfold row_spans in Hsp.
    apply in_flat_map in Hsp. destruct Hsp as [f [Hf Hsp]].
    exists row, f. split; [lia | auto].
Qed.
End Rows.

End SmartFacts.

(* ------------------------------------------------------------------ *)
(** ** C9: a group whose anchor row yields nothing *)

(** C9 (as stated, refuted).  Two lines, the first blank: the anchor row of
    the group yields no field value, and the group still emits the value of
    the second row. *)
Lemma blank_anchor_row_is_skipped :
  Smart.row_spans (splitlines ("010"%char :: py "JOHN")) 0 2 0
    [Smart.mkField (Some (py "NAME")) (Some 1) (Some 0) (Some 0) (Some 8)] 0 = []
  /\ Smart.extract_spans_from_smart_config ("010"%char :: py "JOHN")
       (Smart.mkConfig 0 0
          [Smart.mkField (Some (py "NAME")) (Some 1) (Some 0) (Some 0) (Some 8)])
     = [Smart.mkSpan (py "JOHN") (py "NAME") 1 5].
Proof. split; vm_compute; reflexivity. Qed.

(** [min] over the lines of the fields is there exactly when every field of
    a non-empty group has a readable line. *)
Lemma min_line_readable fs base_rel :
  Smart.min_line fs = Some base_rel ->
  Forall (fun f => Smart.line f <> None) fs.
Proof.
  revert base_rel. induction fs as [|f fs IH]; intros base_rel Hmin;
    [constructor|].
  cbn [Smart.min_line] in Hmin.
  destruct (Smart.line f) as [l|] eqn:Hl; [|discriminate].
  constructor; [congruence|].
  destruct fs as [|f' fs']; [constructor|].
  destruct (Smart.min_line (f' :: fs')) as [b|] eqn:Hb; [|discriminate].
  now apply (IH b).
Qed.

Lemma min_line_found fs :
  fs <> [] -> Forall (fun f => Smart.line f <> None) fs ->
  exists base_rel, Smart.min_line fs = Some base_rel.
Proof.
  induction fs as [|f fs IH]; intros Hne Hall; [congruence|].
  inversion Hall as [|? ? Hf Hrest]; subst. cbn [Smart.min_line].
  destruct (Smart.line f) as [l|]; [|congruence].
  destruct fs as [|f' fs']; [eauto|].
  destruct (IH ltac:(discriminate) Hrest) as [b Hb]. rewrite Hb.
  simpl. eauto.
Qed.

(** C9 (amended).  A group never raises, and a blank anchor row does not end
    it.  The group emits no span when one of its fields has no readable line,
    or when its anchor row (the first row of the window plus the least line of
    its fields) lies outside the window.  With every line readable and the
    anchor row inside the window, the rows that yield nothing are passed over
    and the group's spans are those read from the first row that yields a
    value on; such a group emits no span exactly when no row from the anchor
    row to the end of the window yields one.  The loop takes at most one turn
    per row of the window. *)
Theorem leading_empty_rows_skipped
    (lines : list str) (win_first win_last : Z) (fs : list Smart.field) :
  ((exists f, In f fs /\ Smart.line f = None) ->
   Smart.group_spans lines win_first win_last fs = [])
  /\ (fs <> [] -> Forall (fun f => Smart.line f <> None) fs ->
      exists base_rel, Smart.min_line fs = Some base_rel)
  /\ (forall base_rel,
        Smart.min_line fs = Some base_rel ->
        (win_first + base_rel < win_first \/ win_last <= win_first + base_rel ->
         Smart.group_spans lines win_first win_last fs = [])
        /\ (win_first <= win_first + base_rel < win_last ->
            (forall first,
               win_first + base_rel <= first < win_last ->
               (forall r, win_first + base_rel <= r < first ->
                  Smart.row_spans lines win_first win_last base_rel fs r = []) ->
               Smart.row_spans lines win_first win_last base_rel fs first <> [] ->
               Smart.group_spans lines win_first win_last fs
               = Smart.row_spans lines win_first win_last base_rel fs first
                 ++ Smart.row_loop lines win_first win_last
                      (Z.to_nat (win_last - (first + 1))) base_rel fs
                      (first + 1) true)
            /\ (Smart.group_spans lines win_first win_last fs = []
                <-> forall r, win_first + base_rel <= r < win_last ->
                      Smart.row_spans lines win_first win_last base_rel fs r
                      = []))
        /\ (forall extra row started,
              Smart.row_loop lines win_first win_last
                (Z.to_nat (win_last - row) + extra) base_rel fs row started
              = Smart.row_loop lines win_first win_last
                  (Z.to_nat (win_last - row)) base_rel fs row started)).
Proof.
  split; [|split; [apply min_line_found|]].
  - intros [f [Hf Hline]]. unfold Smart.group_spans.
    destruct fs as [|f0 fs0]; [reflexivity|].
    destruct (Smart.min_line (f0 :: fs0)) as [b|] eqn:Hmin; [|reflexivity].
    apply min_line_readable in Hmin. rewrite Forall_forall in Hmin.
    now destruct (Hmin f Hf).
  - intros base_rel Hmin.
    assert (Hne : fs <> []) by (intros ->; discriminate Hmin).
    split; [|split].
    + intros Hout. unfold Smart.group_spans.
      destruct fs as [|f fs']; [reflexivity|]. rewrite Hmin.
      destruct Hout as [Hlow|Hhigh].
      * replace (win_first + base_rel <? win_first) with true
          by (symmetry; apply Z.ltb_lt; lia).
        reflexivity.
      * replace (win_first + base_rel >=? win_last) with true
          by (rewrite geb_ltb; symmetry; apply negb_true_iff, Z.ltb_ge; lia).
        now rewrite orb_true_r.
    + intros Hrow.
      assert (Hgroup : Smart.group_spans lines win_first win_last fs
                = Smart.row_loop lines win_first win_last
                    (Z.to_nat (win_last - (win_first + base_rel))) base_rel fs
                    (win_first + base_rel) false).
      { unfold Smart.group_spans. destruct fs as [|f fs']; [congruence|].
        rewrite Hmin.
        replace (win_first + base_rel <? win_first) with false
          by (symmetry; apply Z.ltb_ge; lia).
        replace (win_first + base_rel >=? win_last) with false
          by (rewrite geb_ltb; symmetry; apply negb_false_iff, Z.ltb_lt; lia).
        reflexivity. }
      split.
      * intros first Hfirst Hbefore Hyield. rewrite Hgroup.
        set (row := win_first + base_rel) in *.
        replace (Z.to_nat (win_last - row))
          with (Z.to_nat (first - row)
                + S (Z.to_nat (win_last - (first + 1))))%nat by lia.
        rewrite SmartFacts.row_loop_skip.
        -- replace (row + Z.of_nat (Z.to_nat (first - row))) with first by lia.
           rewrite SmartFacts.row_loop_unfold.
           replace (first <? win_last) with true
             by (symmetry; apply Z.ltb_lt; lia).
           destruct (Smart.row_spans lines win_first win_last base_rel fs first);
             [congruence | reflexivity].
        -- intros j Hj. apply Hbefore. lia.
      * rewrite Hgroup. split.
        -- apply SmartFacts.row_loop_nothing_inv. lia.
        -- apply SmartFacts.row_loop_nothing.
    + intros extra row started. apply SmartFacts.row_loop_fuel. lia.
Qed.

Lemma leading_empty_rows_skipped_witness :
  Smart.group_spans (splitlines ("010"%char :: py "JOHN")) 0 2
    [Smart.mkField (Some (py "NAME")) (Some 1) (Some 0) (Some 0) (Some 8)]
  = Smart.row_spans (splitlines ("010"%char :: py "JOHN")) 0 2 0
      [Smart.mkField (Some (py "NAME")) (Some 1) (Some 0) (Some 0) (Some 8)] 1
    ++ Smart.row_loop (splitlines ("010"%char :: py "JOHN")) 0 2
         (Z.to_nat (2 - (1 + 1))) 0
         [Smart.mkField (Some (py "NAME")) (Some 1) (Some 0) (Some 0) (Some 8)]
         (1 + 1) true.
Proof.
  destruct (proj2 (proj2 (leading_empty_rows_skipped
              (splitlines ("010"%char :: py "JOHN")) 0 2
              [Smart.mkField (Some (py "NAME")) (Some 1) (Some 0) (Some 0)
                 (Some 8)])) 0 eq_refl) as [_ [Hin _]].
  assert (Hrow : 0 <= 0 + 0 < 2) by lia.
  destruct (Hin Hrow) as [Hfirst _].
  apply (Hfirst 1).
  - lia.
  - intros r Hr. assert (r = 0) by lia. subst r. vm_compute. reflexivity.
  - vm_compute. discriminate.
Defined.

(* ------------------------------------------------------------------ *)
(** ** [strip], [lstrip], [rstrip] *)

Lemma lstrip_length s : (length (lstrip s) <= length s)%nat.
Proof.
  induction s as [|c s IH]; simpl; [lia|].
  destruct (isspace c); simpl; lia.
Qed.

Lemma lstrip_skipn s : lstrip s = skipn (length s - length (lstrip s)) s.
Proof.
  induction s as [|c s IH]; [reflexivity|].
  simpl lstrip. destruct (isspace c).
  - pose proof (lstrip_length s).
    replace (length (c :: s) - length (lstrip s))%nat
      with (S (length s - length (lstrip s))) by (cbn [length]; lia).
    exact IH.
  - now rewrite Nat.sub_diag.
Qed.

Lemma lstrip_head s c t : lstrip s = c :: t -> isspace c = false.
Proof.
  induction s as [|c' s IH]; simpl; [discriminate|].
  destruct (isspace c') eqn:Hc; [exact IH|].
  intros H. injection H as <- _. exact Hc.
Qed.

Lemma lstrip_fixed c t : isspace c = false -> lstrip (c :: t) = c :: t.
Proof. simpl. now intros ->. Qed.

Lemma lstrip_idem s : lstrip (lstrip s) = lstrip s.
Proof.
  destruct (lstrip s) as [|c t] eqn:H; [reflexivity|].
  apply lstrip_fixed. eapply lstrip_head. eassumption.
Qed.

Lemma rstrip_firstn s : rstrip s = firstn (length (rstrip s)) s.
Proof.
  unfold rstrip. rewrite length_rev.
  rewrite (lstrip_skipn (rev s)) at 1.
  rewrite skipn_rev, rev_involutive, length_rev.
  pose proof (lstrip_length (rev s)) as H. rewrite length_rev in H.
  f_equal. lia.
Qed.

Lemma rstrip_idem s : rstrip (rstrip s) = rstrip s.
Proof. unfold rstrip. now rewrite rev_involutive, lstrip_idem. Qed.

Lemma strip_rstrip s : rstrip (strip s) = strip s.
Proof. unfold strip. apply rstrip_idem. Qed.

Lemma strip_lstrip s : lstrip (strip s) = strip s.
Proof.
  unfold strip. rewrite (rstrip_firstn (lstrip s)).
  destruct (lstrip s) as [|c t] eqn:H; [now rewrite firstn_nil|].
  destruct (length (rstrip (c :: t))); [reflexivity|].
  simpl firstn. apply lstrip_fixed. eapply lstrip_head. eassumption.
Qed.

(** [raw.strip()] is the part of [raw] from [lead] on, [len(value)] long. *)
Lemma strip_slice raw :
  strip raw
  = slice raw (length raw - length (lstrip raw))
      (length raw - length (lstrip raw) + length (strip raw)).
Proof.
  unfold slice, strip.
  rewrite <- lstrip_skipn, (rstrip_firstn (lstrip raw)) at 1.
  f_equal. lia.
Qed.

(* ------------------------------------------------------------------ *)
(** ** Slices *)

Lemma slice_app_middle {A} (p l q : list A) a b :
  (b <= length l)%nat ->
  slice (p ++ l ++ q) (length p + a) (length p + b) = slice l a b.
Proof.
  intros Hb. unfold slice.
  rewrite skipn_app, skipn_all2 by lia. simpl.
  replace (length p + a - length p)%nat with a by lia.
  replace (length p + b - (length p + a))%nat with (b - a)%nat by lia.
  rewrite skipn_app, firstn_app, length_skipn.
  replace (b - a - (length l - a))%nat with 0%nat by lia.
  rewrite firstn_0. apply app_nil_r.
Qed.

Lemma slice_app_left {A} (l q : list A) a b :
  (b <= length l)%nat -> slice (l ++ q) a b = slice l a b.
Proof.
  intros Hb. apply (slice_app_middle [] l q a b Hb).
Qed.

Lemma slice_slice {A} (l : list A) a b c d :
  (a + d <= b)%nat -> (b <= length l)%nat ->
  slice (slice l a b) c d = slice l (a + c) (a + d).
Proof.
  intros Hd Hb. unfold slice.
  rewrite skipn_firstn_comm, firstn_firstn, skipn_skipn.
  f_equal; [lia | f_equal; lia].
Qed.

Lemma py_slice_nonneg {A} (l : list A) a b :
  0 <= a -> 0 <= b -> a <= len l -> b <= len l ->
  py_slice l a b = slice l (Z.to_nat a) (Z.to_nat b).
Proof.
  intros Ha Hb Hal Hbl. unfold py_slice, slice_index.
  replace (a <? 0) with false by (symmetry; apply Z.ltb_ge; lia).
  replace (b <? 0) with false by (symmetry; apply Z.ltb_ge; lia).
  f_equal; lia.
Qed.

(* ------------------------------------------------------------------ *)
(** ** Lines and offsets of a newline-joined text *)

Lemma is_lf_LF c : is_lf c = true -> c = LF.
Proof.
  unfold is_lf, code. intros H. apply Z.eqb_eq in H.
  rewrite <- (ascii_N_embedding c).
  replace (N_of_ascii c) with 10%N by lia. reflexivity.
Qed.

Lemma is_lf_not_cr c : is_lf c = true -> is_cr c = false.
Proof.
  unfold is_lf, is_cr. intros H. apply Z.eqb_eq in H. apply Z.eqb_neq. lia.
Qed.

Lemma splitlines_from_break c rest cur :
  is_linebreak c = true -> is_cr c = false ->
  splitlines_from (c :: rest) cur = cur :: splitlines_from rest [].
Proof.
  intros H1 H2. cbn [splitlines_from]. rewrite H1, H2.
  destruct rest; reflexivity.
Qed.

(** A newline-joined text is its lines, each followed by a newline, short of
    the last newline when the text does not end with one. *)
Lemma splitlines_from_unsplit : forall text cur,
  newline_joined text ->
  exists tail, (tail = [] \/ tail = [LF])
               /\ cur ++ text ++ tail = unsplit (splitlines_from text cur).
Proof.
  induction text as [|c rest IH]; intros cur Hnl.
  - destruct cur as [|c0 cur].
    + exists []. split; [now left | reflexivity].
    + exists [LF]. split; [now right|]. simpl.
      now rewrite app_nil_r.
  - inversion Hnl as [|? ? Hc Hrest]; subst.
    destruct (is_linebreak c) eqn:Hlb.
    + pose proof (Hc eq_refl) as Hlf.
      rewrite (splitlines_from_break c rest cur Hlb (is_lf_not_cr c Hlf)).
      destruct (IH [] Hrest) as [tail [Htail Hu]].
      exists tail. split; [assumption|].
      cbn [unsplit flat_map]. fold (unsplit (splitlines_from rest [])).
      rewrite <- Hu, (is_lf_LF c Hlf). simpl. now rewrite <- app_assoc.
    + cbn [splitlines_from]. rewrite Hlb.
      destruct (IH (cur ++ [c]) Hrest) as [tail [Htail Hu]].
      exists tail. split; [assumption|].
      rewrite <- Hu, <- app_assoc. reflexivity.
Qed.

Lemma splitlines_unsplit text :
  newline_joined text ->
  exists tail, (tail = [] \/ tail = [LF])
               /\ text ++ tail = unsplit (splitlines text).
Proof. intros H. exact (splitlines_from_unsplit text [] H). Qed.

Lemma build_offsets_nth : forall lines acc i,
  (i <= length lines)%nat ->
  nth i (Smart.build_offsets lines acc) 0
  = acc + len (unsplit (firstn i lines)).
Proof.
  induction lines as [|ln lines IH]; intros acc i Hi.
  - destruct i; simpl in *; [unfold len; simpl; lia | lia].
  - destruct i as [|i]; [unfold len; simpl; lia|].
    cbn [Smart.build_offsets nth firstn]. rewrite IH by (simpl in Hi; lia).
    unfold unsplit, len. cbn [flat_map]. rewrite !length_app. simpl. lia.
Qed.

Lemma unsplit_at lines i :
  (i < length lines)%nat ->
  unsplit lines
  = unsplit (firstn i lines) ++ nth i lines [] ++ LF :: unsplit (skipn (S i) lines).
Proof.
  revert i. induction lines as [|ln lines IH]; intros i Hi; [simpl in Hi; lia|].
  destruct i as [|i].
  - simpl. now rewrite <- app_assoc.
  - cbn [firstn nth skipn unsplit flat_map].
    fold (unsplit lines). fold (unsplit (firstn i lines)).
    rewrite (IH i) at 1 by (simpl in Hi; lia).
    now rewrite <- !app_assoc.
Qed.

(** Characters [a..b) of line [i] sit at [offsets[i] + a .. offsets[i] + b)
    of the text. *)
Lemma line_slice_in_text text i a b :
  newline_joined text ->
  (i < length (splitlines text))%nat ->
  (a <= b)%nat -> (b <= length (nth i (splitlines text) []))%nat ->
  slice text (length (unsplit (firstn i (splitlines text))) + a)
             (length (unsplit (firstn i (splitlines text))) + b)
  = slice (nth i (splitlines text) []) a b
  /\ (length (unsplit (firstn i (splitlines text))) + b <= length text)%nat.
Proof.
  intros Hnl Hi Hab Hb.
  destruct (splitlines_unsplit text Hnl) as [tail [Htail Hu]].
  pose proof (unsplit_at (splitlines text) i Hi) as Hat.
  set (p := unsplit (firstn i (splitlines text))) in *.
  set (l := nth i (splitlines text) []) in *.
  set (q := unsplit (skipn (S i) (splitlines text))) in *.
  assert (Hlen : (length p + b <= length text)%nat).
  { assert (Hl : length (text ++ tail) = length (p ++ l ++ LF :: q))
      by (rewrite Hu, Hat; reflexivity).
    rewrite !length_app in Hl. simpl in Hl.
    destruct Htail as [-> | ->]; simpl in Hl; lia. }
  split; [|exact Hlen].
  rewrite <- (slice_app_left text tail) by exact Hlen.
  rewrite Hu, Hat. apply slice_app_middle. exact Hb.
Qed.

Lemma rstrip_length s : (length (rstrip s) <= length s)%nat.
Proof.
  unfold rstrip. rewrite length_rev.
  pose proof (lstrip_length (rev s)) as H. now rewrite length_rev in H.
Qed.

Lemma slice_length {A} (l : list A) a b :
  (a <= b)%nat -> (b <= length l)%nat -> length (slice l a b) = (b - a)%nat.
Proof.
  intros Hab Hb. unfold slice. rewrite length_firstn, length_skipn. lia.
Qed.

(** A span emitted for one field on one row, when the field's [left] is not
    negative, is where it says it is. *)
Lemma field_span_located text win_first win_last base_rel row f sp :
  newline_joined text ->
  0 <= win_first -> win_last <= len (splitlines text) ->
  nonnegative_left f ->
  In sp (Smart.field_span (splitlines text) win_first win_last base_rel row f) ->
  located text sp.
Proof.
  intros Hnl Hwf Hwl Hleft Hsp. unfold Smart.field_span in Hsp.
  destruct (Smart.label f) as [lbl|]; [|destruct Hsp].
  destruct (Smart.line f) as [ln|]; [|destruct Hsp].
  destruct (Smart.left f) as [left|] eqn:Hl; [|destruct Hsp].
  destruct (Smart.right f) as [right|]; [|destruct Hsp].
  specialize (Hleft left Hl).
  set (line_idx := row + (ln - base_rel)) in *.
  destruct ((line_idx <? win_first) || (line_idx >=? win_last)) eqn:Hwin;
    [destruct Hsp|].
  apply orb_false_iff in Hwin. destruct Hwin as [Hlo Hhi].
  apply Z.ltb_ge in Hlo. rewrite geb_ltb in Hhi.
  apply negb_false_iff, Z.ltb_lt in Hhi.
  set (i := Z.to_nat line_idx) in *.
  set (src := nth i (splitlines text) []) in *.
  destruct (left >=? len src) eqn:Hfit; [destruct Hsp|].
  rewrite geb_ltb in Hfit. apply negb_false_iff, Z.ltb_lt in Hfit.
  set (r := Z.min (Z.max right left) (len src)) in *.
  assert (Hraw : py_slice src left r = slice src (Z.to_nat left) (Z.to_nat r))
    by (apply py_slice_nonneg; unfold r, len in *; lia).
  rewrite Hraw in Hsp.
  set (L := Z.to_nat left) in *. set (R := Z.to_nat r) in *.
  set (raw := slice src L R) in *.
  assert (HLR : (L <= R)%nat /\ (R <= length src)%nat)
    by (unfold L, R, r, len in *; lia).
  assert (Hrawlen : length raw = (R - L)%nat)
    by (apply slice_length; lia).
  destruct raw as [|c0 raw0] eqn:Hrawnil; [destruct Hsp|].
  rewrite <- Hrawnil in *. clear Hrawnil c0 raw0.
  destruct (strip raw) as [|v0 vs] eqn:Hval; [destruct Hsp|].
  rewrite <- Hval in *.
  destruct Hsp as [<-|[]].
  set (lead := (length raw - length (lstrip raw))%nat).
  set (m := length (strip raw)).
  pose proof (lstrip_length raw) as Hll.
  assert (Hm : (lead + m <= length raw)%nat).
  { unfold lead, m, strip.
    pose proof (rstrip_length (lstrip raw)). lia. }
  assert (Hi : (i < length (splitlines text))%nat)
    by (unfold i, len in *; lia).
  destruct (line_slice_in_text text i (L + lead) (L + lead + m) Hnl Hi)
    as [Hslice Hbound]; [lia | fold src; lia |]. fold src in Hslice.
  assert (Hstart : Smart.abs_pos (splitlines text) line_idx
                     (left + (len raw - len (lstrip raw)))
                   = Z.of_nat (length (unsplit (firstn i (splitlines text)))
                               + (L + lead))).
  { unfold Smart.abs_pos, Smart.offsets. fold i.
    rewrite build_offsets_nth by lia. unfold len, lead, L. lia. }
  unfold located. cbn [Smart.value Smart.start_abs Smart.end_abs].
  rewrite Hstart.
  assert (Hvalue : strip raw = slice src (L + lead) (L + lead + m)).
  { rewrite (strip_slice raw) at 1. fold lead m. unfold raw.
    replace (L + lead + m)%nat with (L + (lead + m))%nat by lia.
    apply slice_slice; lia. }
  split.
  - rewrite py_slice_nonneg by (unfold len, m in *; lia).
    rewrite Nat2Z.id.
    replace (Z.to_nat (Z.of_nat (length (unsplit (firstn i (splitlines text)))
                                 + (L + lead)) + len (strip raw)))
      with (length (unsplit (firstn i (splitlines text))) + (L + lead + m))%nat
      by (unfold len, m; lia).
    rewrite Hvalue. exact Hslice.
  - split; [rewrite Hval; discriminate|].
    split; [apply strip_lstrip|]. split; [apply strip_rstrip|].
    split; [lia|]. split; [reflexivity|]. unfold len, m in *. lia.
Qed.

(* ------------------------------------------------------------------ *)
(** ** The groups hold the fields of the configuration *)

Lemma setdefault_append_In groups g f x :
  In x (flat_map snd (Smart.setdefault_append groups g f)) ->
  x = f \/ In x (flat_map snd groups).
Proof.
  induction groups as [|[g' fs'] groups IH]; simpl.
  - intuition.
  - destruct (g' =? g); simpl; intros H; apply in_app_or in H.
    + destruct H as [H|H].
      * apply in_app_or in H. destruct H as [H|[H|[]]]; [|now left].
        right. apply in_or_app. now left.
      * right. apply in_or_app. now right.
    + destruct H as [H|H].
      * right. apply in_or_app. now left.
      * destruct (IH H) as [Hx|Hx]; [now left|].
        right. apply in_or_app. now right.
Qed.

Lemma group_fields_In fs x :
  In x (flat_map snd (Smart.group_fields fs)) -> In x fs.
Proof.
  unfold Smart.group_fields.
  assert (H : forall groups,
            In x (flat_map snd
                    (fold_left (fun gs f =>
                       Smart.setdefault_append gs (Smart.group_of f) f) fs groups)) ->
            In x (flat_map snd groups) \/ In x fs).
  { induction fs as [|f fs IH]; intros groups Hx; simpl in *; [now left|].
    destruct (IH _ Hx) as [Hg|Hf]; [|now right; right].
    apply setdefault_append_In in Hg. destruct Hg as [->|Hg]; auto. }
  intros Hx. destruct (H [] Hx) as [[]|Hf]. exact Hf.
Qed.

Lemma sorted_groups_In fs g gfs x :
  In (g, gfs) (Smart.sorted_groups fs) -> In x gfs -> In x fs.
Proof.
  unfold Smart.sorted_groups. intros Hg Hx. apply sort_stable_In in Hg.
  apply group_fields_In. apply in_flat_map. exists (g, gfs). auto.
Qed.

(* ------------------------------------------------------------------ *)
(** ** Emitted spans of a newline-joined text, columns not negative *)

Lemma extracted_spans_located text cfg :
  newline_joined text ->
  Forall nonnegative_left (Smart.fields cfg) ->
  Forall (located text) (Smart.extract_spans_from_smart_config text cfg).
Proof.
  intros Hnl Hleft. apply Forall_forall. intros sp Hsp.
  unfold Smart.extract_spans_from_smart_config in Hsp.
  apply in_flat_map in Hsp. destruct Hsp as [[g gfs] [Hg Hsp]].
  cbn [snd] in Hsp. unfold Smart.group_spans in Hsp.
  destruct gfs as [|f0 gfs0] eqn:Hgfs; [destruct Hsp|]. rewrite <- Hgfs in *.
  destruct (Smart.min_line gfs) as [base_rel|]; [|destruct Hsp].
  destruct (_ || _); [destruct Hsp|].
  apply SmartFacts.row_loop_In in Hsp.
  destruct Hsp as [r [f [_ [Hf Hsp]]]].
  apply (field_span_located text (Z.max 0 (Smart.header_skip cfg))
           (len (splitlines text) - Z.max 0 (Smart.footer_skip cfg))
           base_rel r f sp Hnl); try lia; try assumption.
  rewrite Forall_forall in Hleft. apply Hleft.
  eapply sorted_groups_In; eassumption.
Qed.

(* ------------------------------------------------------------------ *)
(** ** C6: where the emitted spans are *)

(** C6 (the code fails it).  The text is the two lines ["ab"] and ["cd"]
    joined by one newline; the field has [left = -2]: [src[left:r]] counts
    the negative column from the end of the line while [abs_pos] adds it as it
    is, so both emitted spans are misplaced: the first has [start = -2] and
    [text[-2:0]] is empty, the second is (1, 3) and [text[1:3]] is not its
    value. *)
Theorem negative_left_misplaces_spans :
  newline_joined (py "ab" ++ [LF] ++ py "cd")
  /\ Smart.extract_spans_from_smart_config (py "ab" ++ [LF] ++ py "cd")
       (Smart.mkConfig 0 0
          [Smart.mkField (Some (py "X")) (Some 0) (Some 0) (Some (-2)) (Some 2)])
     = [Smart.mkSpan (py "ab") (py "X") (-2) 0;
        Smart.mkSpan (py "cd") (py "X") 1 3]
  /\ py_slice (py "ab" ++ [LF] ++ py "cd") (-2) 0 = []
  /\ py_slice (py "ab" ++ [LF] ++ py "cd") 1 3 = py "b" ++ [LF].
Proof.
  split.
  - unfold newline_joined. repeat constructor; intros H; vm_compute in H |- *;
      congruence.
  - repeat split; vm_compute; reflexivity.
Qed.

(** The example of the claim: one group, ["JOHN DOE  EXTRA"]. *)
Lemma john_doe_span :
  Smart.extract_spans_from_smart_config (py "JOHN DOE  EXTRA")
    (Smart.mkConfig 0 0
       [Smart.mkField (Some (py "NAME")) (Some 1) (Some 0) (Some 0) (Some 8)])
  = [Smart.mkSpan (py "JOHN DOE") (py "NAME") 0 8].
Proof. vm_compute. reflexivity. Qed.

(* ------------------------------------------------------------------ *)
(** * Further properties *)

(* ------------------------------------------------------------------ *)
(** ** The digit stream as a prefix of the block sequence *)

Lemma stream_blocks_length key seed i k :
  length (stream_blocks key seed i k) = (32 * k)%nat.
Proof.
  unfold stream_blocks. revert i.
  induction k as [|k IH]; intros i; [reflexivity|].
  cbn [seq flat_map]. rewrite length_app, stream_block_length, IH. lia.
Qed.

Lemma stream_loop_blocks fuel : forall key seed n out i,
  (n <= length out + fuel)%nat ->
  stream_loop fuel key seed n out i
  = firstn n (out ++ stream_blocks key seed i fuel).
Proof.
  induction fuel as [|fuel IH]; intros key seed n out i Hn; cbn [stream_loop].
  - unfold stream_blocks. simpl. rewrite app_nil_r.
    now destruct (length out <? n)%nat.
  - destruct (Nat.ltb_spec (length out) n) as [Hlt|Hge].
    + rewrite IH by (rewrite length_app, stream_block_length; lia).
      unfold stream_blocks. cbn [seq flat_map]. now rewrite <- app_assoc.
    + rewrite firstn_app. replace (n - length out)%nat with 0%nat by lia.
      simpl. now rewrite app_nil_r.
Qed.

Lemma _pseudo_digit_stream_blocks key seed n :
  _pseudo_digit_stream key seed n = firstn n (stream_blocks key seed 0 n).
Proof.
  unfold _pseudo_digit_stream. rewrite stream_loop_blocks by (simpl; lia).
  reflexivity.
Qed.

(** X1: the stream has exactly the length asked for and holds decimal digit
    values only. *)
Theorem digit_stream_has_length_and_range (key : list Z) (seed : str) (n : nat) :
  length (_pseudo_digit_stream key seed n) = n
  /\ Forall (fun d => 0 <= d < 10) (_pseudo_digit_stream key seed n).
Proof.
  split; [apply _pseudo_digit_stream_length|].
  exact (_pseudo_digit_stream_decimal key seed n).
Qed.

(** X2: a shorter stream is the beginning of a longer one under the same key
    and seed. *)
Theorem digit_stream_prefix (key : list Z) (seed : str) (n m : nat) :
  (n <= m)%nat ->
  _pseudo_digit_stream key seed n = firstn n (_pseudo_digit_stream key seed m).
Proof.
  intros Hnm. rewrite !_pseudo_digit_stream_blocks.
  rewrite firstn_firstn. replace (Nat.min n m) with n by lia.
  unfold stream_blocks.
  replace m with (n + (m - n))%nat at 1 by lia.
  rewrite seq_app, flat_map_app.
  fold (stream_blocks key seed 0 n).
  rewrite firstn_app.
  replace (n - length (stream_blocks key seed 0 n))%nat with 0%nat
    by (rewrite stream_blocks_length; lia).
  simpl. now rewrite app_nil_r.
Qed.

Lemma digit_stream_prefix_witness :
  _pseudo_digit_stream (encode_utf8 (py "K")) (py "563736000") 5
  = firstn 5 (_pseudo_digit_stream (encode_utf8 (py "K")) (py "563736000") 40).
Proof.
  apply (digit_stream_prefix (encode_utf8 (py "K")) (py "563736000") 5 40).
  lia.
Defined.

(* ------------------------------------------------------------------ *)
(** ** [deterministic_numeric_like]: what it returns and when it raises *)

(** X3: on a value whose digit characters are all decimal digits the call
    returns a string of the same length, with every non-digit character in
    place and a digit at every digit position. *)
Theorem pseudonym_keeps_format (value : str) (preserve_last : Z) (key : str) :
  decimal_only value ->
  exists out,
    deterministic_numeric_like value preserve_last key = Returns out
    /\ length out = length value
    /\ (forall i c, nth_error value i = Some c -> isdigit c = false ->
          nth_error out i = Some c)
    /\ (forall i c, nth_error value i = Some c -> isdigit c = true ->
          exists d, nth_error out i = Some d /\ re_digit d = true).
Proof.
  intros Hdec.
  destruct (deterministic_numeric_like_positions value preserve_last key Hdec)
    as [out [Hr [Hl Hi]]].
  exists out. split; [assumption|]. split; [assumption|]. split.
  - intros i c Hc Hnd. rewrite (Hi i c Hc).
    destruct (re_digit c) eqn:Hre; [|reflexivity].
    apply re_digit_isdigit in Hre. congruence.
  - intros i c Hc Hd.
    assert (Hre : re_digit c = true).
    { unfold decimal_only in Hdec. rewrite Forall_forall in Hdec.
      rewrite <- (Hdec c (nth_error_In _ _ Hc)). assumption. }
    rewrite (Hi i c Hc), Hre.
    destruct (nth_error (new_digits_of value preserve_last key)
                (digits_before i value)) as [d|] eqn:Hn.
    + exists d. split; [reflexivity|].
      pose proof (new_digits_decimal value preserve_last key) as Hall.
      rewrite Forall_forall in Hall. apply Hall.
      eapply nth_error_In; eassumption.
    + apply nth_error_None in Hn. rewrite new_digits_length in Hn.
      pose proof (nth_error_filter_prefix re_digit value i c Hc Hre) as Hsome.
      assert (digits_before i value < length (filter re_digit value))%nat
        by (apply nth_error_Some; unfold digits_before; congruence).
      lia.
Qed.

Lemma pseudonym_keeps_format_witness :
  exists out,
    deterministic_numeric_like (py "563-73-6000") 4 (py "K") = Returns out
    /\ length out = length (py "563-73-6000").
Proof.
  destruct (pseudonym_keeps_format (py "563-73-6000") 4 (py "K")
              decimal_only_ssn) as [out [Hr [Hl _]]].
  exists out. split; assumption.
Defined.

(** X4: with [0 < preserve_last < digit count], on such a value, the digit
    positions from the [preserve_last]-th last on keep their digits. *)
Theorem pseudonym_keeps_tail (value : str) (preserve_last : Z) (key : str) :
  decimal_only value ->
  0 < preserve_last < len (filter re_digit value) ->
  exists out,
    deterministic_numeric_like value preserve_last key = Returns out
    /\ forall i c, nth_error value i = Some c -> re_digit c = true ->
         len (filter re_digit value) - preserve_last
           <= Z.of_nat (digits_before i value) ->
         nth_error out i = Some c.
Proof.
  intros Hdec Hp.
  destruct (deterministic_numeric_like_positions value preserve_last key Hdec)
    as [out [Hr [Hl Hi]]].
  exists out. split; [assumption|].
  intros i c Hc Hre Hpos. rewrite (Hi i c Hc), Hre.
  rewrite new_digits_tail; [| assumption | unfold len in *; lia].
  now apply nth_error_filter_prefix.
Qed.

Lemma pseudonym_keeps_tail_witness :
  exists out,
    deterministic_numeric_like (py "563-73-6000") 4 (py "K") = Returns out
    /\ nth_error out 7 = Some "6"%char.
Proof.
  destruct (pseudonym_keeps_tail (py "563-73-6000") 4 (py "K")
              decimal_only_ssn ltac:(vm_compute; split; reflexivity))
    as [out [Hr Hi]].
  exists out. split; [exact Hr|].
  apply (Hi 7%nat "6"%char); [reflexivity | reflexivity |].
  vm_compute. discriminate.
Defined.

Lemma filter_length_strict {A} (f g : A -> bool) (l : list A) :
  (forall x, f x = true -> g x = true) ->
  (exists x, In x l /\ f x = false /\ g x = true) ->
  (length (filter f l) < length (filter g l))%nat.
Proof.
  intros Hfg. induction l as [|y l IH]; intros [x [Hx [Hf Hg]]];
    [destruct Hx|].
  assert (Hle : forall l', (length (filter f l') <= length (filter g l'))%nat).
  { induction l' as [|z l' IHl]; simpl; [lia|].
    destruct (f z) eqn:Hz; [rewrite (Hfg z Hz); simpl; lia|].
    destruct (g z); simpl; lia. }
  simpl. destruct Hx as [->|Hx].
  - rewrite Hf, Hg. simpl. specialize (Hle l). lia.
  - assert (IH' : (length (filter f l) < length (filter g l))%nat)
      by (apply IH; eauto).
    destruct (f y) eqn:Hy; [rewrite (Hfg y Hy); simpl; lia|].
    destruct (g y); simpl; lia.
Qed.

Lemma decimal_only_dec value : {decimal_only value} + {~ decimal_only value}.
Proof.
  unfold decimal_only. apply Forall_dec. intros c. apply bool_dec.
Qed.

(** X5: the call raises exactly on the values that hold a decimal digit
    together with a character [str.isdigit] accepts and [\d] does not; on
    every other value it returns. *)
Theorem pseudonym_raises_iff (value : str) (preserve_last : Z) (key : str) :
  (deterministic_numeric_like value preserve_last key = Raises IndexError
   <-> filter re_digit value <> [] /\ ~ decimal_only value)
  /\ ((filter re_digit value = [] \/ decimal_only value) ->
      exists out, deterministic_numeric_like value preserve_last key = Returns out).
Proof.
  assert (Hret : (filter re_digit value = [] \/ decimal_only value) ->
            exists out,
              deterministic_numeric_like value preserve_last key = Returns out).
  { intros [Hnil|Hdec].
    - exists value. now apply deterministic_numeric_like_no_digit.
    - destruct (deterministic_numeric_like_positions value preserve_last key Hdec)
        as [out [Hr _]]. eauto. }
  split; [|exact Hret]. split.
  - intros Hraise. split.
    + intros Hnil. destruct (Hret (or_introl Hnil)) as [out Hr]. congruence.
    + intros Hdec. destruct (Hret (or_intror Hdec)) as [out Hr]. congruence.
  - intros [Hne Hnd]. apply deterministic_numeric_like_raises; [assumption|].
    apply filter_length_strict; [apply re_digit_isdigit|].
    unfold decimal_only in Hnd. apply neg_Forall_Exists_neg in Hnd.
    + apply Exists_exists in Hnd. destruct Hnd as [c [Hc Hdiff]].
      exists c. split; [assumption|].
      destruct (re_digit c) eqn:Hre.
      * exfalso. apply Hdiff. now apply re_digit_isdigit.
      * split; [reflexivity|]. destruct (isdigit c); [reflexivity | congruence].
    + intros c. apply bool_dec.
Qed.

Lemma pseudonym_raises_iff_witness :
  exists out,
    deterministic_numeric_like (py "12-34") 2 (py "k") = Returns out.
Proof.
  apply (proj2 (pseudonym_raises_iff (py "12-34") 2 (py "k"))).
  right. unfold decimal_only. repeat constructor.
Defined.

(* ------------------------------------------------------------------ *)
(** ** The same digits under different separators *)

Lemma skipn_nth_error {A} (l : list A) : forall n x,
  nth_error l n = Some x -> skipn n l = x :: skipn (S n) l.
Proof.
  induction l as [|y l IH]; intros [|n] x H; try discriminate.
  - injection H as ->. reflexivity.
  - simpl in H. apply (IH n x H).
Qed.

Lemma reinsert_digits : forall txt nd idx acc,
  Forall (fun c => isdigit c = true) nd ->
  (idx + length (filter isdigit txt) <= length nd)%nat ->
  exists out,
    reinsert txt nd idx acc = Returns (acc ++ out)
    /\ filter isdigit out
       = firstn (length (filter isdigit txt)) (skipn idx nd).
Proof.
  induction txt as [|ch rest IH]; intros nd idx acc Hnd Hlen.
  - exists []. now rewrite app_nil_r.
  - simpl in *. destruct (isdigit ch) eqn:Hch.
    + simpl in Hlen.
      destruct (nth_error nd idx) as [d|] eqn:Hd.
      2:{ apply nth_error_None in Hd. lia. }
      destruct (IH nd (S idx) (acc ++ [d]) Hnd) as [out [Hr Hf]]; [lia|].
      exists (d :: out). rewrite Hr, <- app_assoc. split; [reflexivity|].
      assert (Hdd : isdigit d = true).
      { rewrite Forall_forall in Hnd. apply Hnd.
        eapply nth_error_In; eassumption. }
      rewrite (skipn_nth_error nd idx d Hd).
      cbn [filter firstn length]. now rewrite Hdd, Hf.
    + destruct (IH nd idx (acc ++ [ch]) Hnd Hlen) as [out [Hr Hf]].
      exists (ch :: out). rewrite Hr, <- app_assoc. split; [reflexivity|].
      simpl. now rewrite Hch.
Qed.

(** On a decimal-only value the decimal digits of the result are the new
    digit sequence. *)
Lemma deterministic_numeric_like_digits value p key :
  decimal_only value -> filter re_digit value <> [] ->
  exists out,
    deterministic_numeric_like value p key = Returns out
    /\ filter isdigit out = new_digits_of value p key.
Proof.
  intros Hdec Hne. rewrite deterministic_numeric_like_eq by assumption.
  destruct (reinsert_digits value (new_digits_of value p key) 0 [])
    as [out [Hr Hf]].
  - pose proof (new_digits_decimal value p key) as H.
    rewrite Forall_forall in *. intros c Hc. apply re_digit_isdigit. auto.
  - rewrite new_digits_length, decimal_only_filter by assumption. simpl. lia.
  - exists out. split; [exact Hr|]. rewrite Hf. simpl.
    rewrite decimal_only_filter, <- (new_digits_length value p key) by assumption.
    apply firstn_all.
Qed.

(** X6: two decimal-only values with the same digits in the same order, however
    they are separated, receive the same new digits in the same order. *)
Theorem same_digits_same_pseudonym_digits
    (v1 v2 : str) (preserve_last : Z) (key : str) :
  decimal_only v1 -> decimal_only v2 ->
  filter re_digit v1 = filter re_digit v2 ->
  exists out1 out2,
    deterministic_numeric_like v1 preserve_last key = Returns out1
    /\ deterministic_numeric_like v2 preserve_last key = Returns out2
    /\ filter isdigit out1 = filter isdigit out2.
Proof.
  intros H1 H2 Heq.
  destruct (filter re_digit v1) as [|d ds] eqn:Hd1.
  - exists v1, v2.
    rewrite !deterministic_numeric_like_no_digit by congruence.
    split; [reflexivity|]. split; [reflexivity|].
    now rewrite !decimal_only_filter, Hd1, <- Heq by assumption.
  - destruct (deterministic_numeric_like_digits v1 preserve_last key H1)
      as [o1 [Hr1 Hf1]]; [congruence|].
    destruct (deterministic_numeric_like_digits v2 preserve_last key H2)
      as [o2 [Hr2 Hf2]]; [congruence|].
    exists o1, o2. split; [assumption|]. split; [assumption|].
    rewrite Hf1, Hf2. unfold new_digits_of. now rewrite Hd1, <- Heq.
Qed.

Lemma same_digits_same_pseudonym_digits_witness :
  exists out1 out2,
    deterministic_numeric_like (py "563-73-6000") 4 (py "K") = Returns out1
    /\ deterministic_numeric_like (py "563 73 6000") 4 (py "K") = Returns out2
    /\ filter isdigit out1 = filter isdigit out2.
Proof.
  apply (same_digits_same_pseudonym_digits (py "563-73-6000") (py "563 73 6000")
           4 (py "K")).
  - exact decimal_only_ssn.
  - repeat constructor.
  - reflexivity.
Defined.

(* ------------------------------------------------------------------ *)
(** ** [obfuscate_account] *)

Lemma Forall_lstrip (P : ascii -> Prop) (a : str) :
  Forall P a -> Forall P (lstrip a).
Proof. intros H. rewrite lstrip_skipn. now apply Forall_drop. Qed.

Lemma Forall_strip (P : ascii -> Prop) (a : str) :
  Forall P a -> Forall P (strip a).
Proof.
  intros H. unfold strip. rewrite rstrip_firstn.
  now apply Forall_take, Forall_lstrip.
Qed.

Lemma strip_idem a : strip (strip a) = strip a.
Proof. unfold strip at 1. now rewrite strip_lstrip, strip_rstrip. Qed.

(** X7: [obfuscate_account] passes [None] and blank strings through (a blank
    one comes back empty), ignores surrounding whitespace, and on an account
    whose digit characters are all decimal digits returns a string as long as
    the stripped account in which the separators are in place and, when there
    are more than four digits, the last four digits are the original ones. *)
Theorem account_pseudonym_shape (env : option str) (a : str) :
  obfuscate_account env None = Returns None
  /\ (strip a = [] -> obfuscate_account env (Some a) = Returns (Some []))
  /\ obfuscate_account env (Some (strip a)) = obfuscate_account env (Some a)
  /\ (decimal_only a ->
      exists out,
        obfuscate_account env (Some a) = Returns (Some out)
        /\ length out = length (strip a)
        /\ (forall i c, nth_error (strip a) i = Some c -> isdigit c = false ->
              nth_error out i = Some c)
        /\ (4 < len (filter re_digit (strip a)) ->
            forall i c, nth_error (strip a) i = Some c -> re_digit c = true ->
              len (filter re_digit (strip a)) - 4
                <= Z.of_nat (digits_before i (strip a)) ->
              nth_error out i = Some c)).
Proof.
  split; [reflexivity|]. split; [|split].
  - intros H. unfold obfuscate_account. now rewrite H.
  - unfold obfuscate_account. now rewrite strip_idem.
  - intros Hdec. pose proof (Forall_strip _ a Hdec) as Hs.
    fold (decimal_only (strip a)) in Hs.
    destruct (deterministic_numeric_like_positions (strip a) 4 (PSEUDO_KEY env) Hs)
      as [out [Hr [Hl Hi]]].
    unfold obfuscate_account.
    destruct (strip a) as [|c0 rest] eqn:Hstrip.
    + exists []. split; [reflexivity|]. split; [reflexivity|].
      split; intros; destruct i; discriminate.
    + rewrite <- Hstrip in *. rewrite Hr. exists out.
      split; [reflexivity|]. split; [assumption|]. split.
      * intros i c Hc Hnd. rewrite (Hi i c Hc).
        destruct (re_digit c) eqn:Hre; [|reflexivity].
        apply re_digit_isdigit in Hre. congruence.
      * intros Hmore i c Hc Hre Hpos. rewrite (Hi i c Hc), Hre.
        rewrite new_digits_tail; [| lia | unfold len in *; lia].
        now apply nth_error_filter_prefix.
Qed.

Lemma account_pseudonym_shape_witness :
  exists out,
    obfuscate_account None (Some (py "  563-73-6000 ")) = Returns (Some out)
    /\ length out = 11%nat
    /\ nth_error out 10 = Some "0"%char.
Proof.
  destruct (proj2 (proj2 (proj2
      (account_pseudonym_shape None (py "  563-73-6000 "))))
      ltac:(repeat constructor)) as [out [Hr [Hl [_ Ht]]]].
  exists out. split; [exact Hr|]. split; [exact Hl|].
  apply (Ht ltac:(vm_compute; reflexivity) 10%nat "0"%char);
    [reflexivity | reflexivity | vm_compute; discriminate].
Defined.

(* ------------------------------------------------------------------ *)
(** ** [obfuscate_description] *)

Lemma strip_nil_iff a : strip a = [] <-> forallb isspace a = true.
Proof.
  assert (Hl : forall b, lstrip b = [] <-> forallb isspace b = true).
  { induction b as [|c b IH]; simpl; [tauto|].
    destruct (isspace c); simpl; [exact IH | split; discriminate]. }
  unfold strip, rstrip. split.
  - intros H. apply Hl.
    assert (Hr : lstrip (rev (lstrip a)) = []).
    { apply (f_equal (@rev ascii)) in H. rewrite rev_involutive in H.
      exact H. }
    apply Hl in Hr. rewrite forallb_forall in Hr.
    destruct (lstrip a) as [|c t] eqn:Ha; [reflexivity|].
    pose proof (lstrip_head a c t Ha) as Hc.
    rewrite (Hr c) in Hc; [discriminate|]. apply in_rev. rewrite rev_involutive.
    now left.
  - intros H. apply Hl in H. now rewrite H.
Qed.

Lemma upper_lower_char c : upper_char (lower_char c) = upper_char c.
Proof.
  destruct c as [[] [] [] [] [] [] [] []]; vm_compute; reflexivity.
Qed.

Lemma upper_lower d : upper (lower d) = upper d.
Proof.
  unfold upper, lower. induction d as [|c d IH]; simpl; [reflexivity|].
  now rewrite upper_lower_char, IH.
Qed.

Lemma isspace_lower_char c : isspace (lower_char c) = isspace c.
Proof.
  destruct c as [[] [] [] [] [] [] [] []]; vm_compute; reflexivity.
Qed.

Lemma blank_lower d : forallb isspace (lower d) = forallb isspace d.
Proof.
  unfold lower. induction d as [|c d IH]; simpl; [reflexivity|].
  now rewrite isspace_lower_char, IH.
Qed.

Lemma obfuscate_description_category desc :
  strip desc <> [] -> In (obfuscate_description desc) description_categories.
Proof.
  intros Hne. unfold obfuscate_description.
  destruct desc as [|c d]; [now contradiction Hne|].
  destruct (strip (c :: d)); [now contradiction Hne|].
  unfold description_categories.
  repeat match goal with
         | |- context [if ?b then _ else _] => destruct b
         end; simpl; tauto.
Qed.

(** The category read off the upper-cased description alone. *)
Lemma obfuscate_description_upper d1 d2 :
  strip d1 <> [] -> strip d2 <> [] -> upper d1 = upper d2 ->
  obfuscate_description d1 = obfuscate_description d2.
Proof.
  intros H1 H2 Hu. unfold obfuscate_description.
  destruct d1 as [|c1 t1]; [now contradiction H1|].
  destruct d2 as [|c2 t2]; [now contradiction H2|].
  destruct (strip (c1 :: t1)); [now contradiction H1|].
  destruct (strip (c2 :: t2)); [now contradiction H2|].
  now rewrite Hu.
Qed.

(** X8: a description that is not blank is replaced by one of seven fixed
    category names, and two descriptions that differ only in the case of
    their letters get the same one; a blank description is returned as it
    is. *)
Theorem description_generalized (d1 d2 : str) :
  (strip d1 = [] -> obfuscate_description d1 = d1)
  /\ (strip d1 <> [] -> In (obfuscate_description d1) description_categories)
  /\ (strip d1 <> [] -> lower d1 = lower d2 ->
      obfuscate_description d1 = obfuscate_description d2).
Proof.
  split; [|split].
  - intros H. unfold obfuscate_description.
    destruct d1 as [|c t]; [reflexivity|]. now rewrite H.
  - apply obfuscate_description_category.
  - intros Hne Hlow.
    assert (H2 : strip d2 <> []).
    { intros H. apply Hne. apply strip_nil_iff. apply strip_nil_iff in H.
      now rewrite <- blank_lower, Hlow, blank_lower. }
    apply obfuscate_description_upper; try assumption.
    now rewrite <- upper_lower, Hlow, upper_lower.
Qed.

Lemma description_generalized_witness :
  obfuscate_description (py "Late fee waived")
  = obfuscate_description (py "LATE FEE WAIVED")
  /\ In (obfuscate_description (py "Late fee waived")) description_categories.
Proof.
  split.
  - apply (proj2 (proj2 (description_generalized (py "Late fee waived")
             (py "LATE FEE WAIVED")))); [vm_compute; discriminate | reflexivity].
  - apply (proj1 (proj2 (description_generalized (py "Late fee waived") []))).
    vm_compute. discriminate.
Defined.

(* ------------------------------------------------------------------ *)
(** ** [_sanitize_label] *)

Lemma _sanitize_label_chars l : _sanitize_label l = flat_map sanitized_char l.
Proof.
  unfold _sanitize_label, upper, replace_char.
  induction l as [|c l IH]; [reflexivity|].
  cbn [map flat_map]. rewrite IH. reflexivity.
Qed.

Lemma sanitized_char_fixed c o :
  In o (sanitized_char c) ->
  sanitized_char o = [o] /\ o <> " "%char /\ o <> "-"%char
  /\ ((97 <=? code o) && (code o <=? 122)) = false.
Proof.
  intros H.
  destruct c as [[] [] [] [] [] [] [] []]; vm_compute in H;
    repeat (destruct H as [<-|H]; [vm_compute; repeat split; discriminate|]);
    destruct H.
Qed.

Lemma flat_map_fixed {A} (f : A -> list A) (l : list A) :
  Forall (fun o => f o = [o]) l -> flat_map f l = l.
Proof.
  induction 1 as [|o l Ho _ IH]; [reflexivity|].
  cbn [flat_map]. now rewrite Ho, IH.
Qed.

Lemma sanitize_label_chars_fixed (l : str) :
  Forall (fun o => sanitized_char o = [o] /\ o <> " "%char /\ o <> "-"%char
                   /\ ((97 <=? code o) && (code o <=? 122)) = false)
         (_sanitize_label l).
Proof.
  rewrite _sanitize_label_chars. apply Forall_forall. intros o Ho.
  apply in_flat_map in Ho. destruct Ho as [c [_ Ho]].
  now apply (sanitized_char_fixed c).
Qed.

Lemma sanitize_label_idem (l : str) :
  _sanitize_label (_sanitize_label l) = _sanitize_label l.
Proof.
  rewrite (_sanitize_label_chars (_sanitize_label l)).
  apply flat_map_fixed.
  eapply Forall_impl; [|exact (sanitize_label_chars_fixed l)]. simpl. tauto.
Qed.

(** X9: a canonical label holds no space, no hyphen and no lower-case ASCII
    letter, and canonicalizing it again leaves it as it is. *)
Theorem sanitize_label_canonical (l : str) :
  _sanitize_label (_sanitize_label l) = _sanitize_label l
  /\ Forall (fun o => o <> " "%char /\ o <> "-"%char
                      /\ ((97 <=? code o) && (code o <=? 122)) = false)
            (_sanitize_label l).
Proof.
  pose proof (sanitize_label_chars_fixed l) as H. split.
  - rewrite (_sanitize_label_chars (_sanitize_label l)).
    apply flat_map_fixed. eapply Forall_impl; [|exact H]. simpl. tauto.
  - eapply Forall_impl; [|exact H]. simpl. tauto.
Qed.

(* ------------------------------------------------------------------ *)
(** ** Order of the reconciled list *)

Lemma FOP_app {A} (R : A -> A -> Prop) (a b : list A) :
  ForallOrdPairs R (a ++ b) <->
  ForallOrdPairs R a /\ ForallOrdPairs R b
  /\ Forall (fun x => Forall (R x) b) a.
Proof.
  induction a as [|x a IH]; simpl.
  - split; [intros H; repeat split; [constructor | assumption | constructor]
           | tauto].
  - split.
    + intros H. inversion H as [|? ? Hx Ha]; subst.
      apply IH in Ha. destruct Ha as [Ha [Hb Hab]].
      apply Forall_app in Hx. destruct Hx as [Hxa Hxb].
      split; [now constructor|]. split; [assumption|]. now constructor.
    + intros [Ha [Hb Hab]].
      inversion Ha as [|? ? Hxa Ha']; subst.
      inversion Hab as [|? ? Hxb Hab']; subst.
      constructor; [apply Forall_app; now split | apply IH; tauto].
Qed.

Lemma step_shape out c :
  exists g, step out c = filter g out \/ step out c = filter g out ++ [c].
Proof.
  rewrite step_by_elements_eq. unfold step_by_elements.
  assert (Hid : filter (fun _ : ent => true) out = out).
  { induction out as [|x l IH]; simpl; [reflexivity | now rewrite IH]. }
  destruct (existsb (same_span c) out).
  { exists (fun _ => true). left. now rewrite Hid. }
  destruct (existsb (clash c) out).
  - exists (fun o => negb (narrower_clash c o)).
    destruct (forallb _ out); [now right | now left].
  - exists (fun _ => true). right. now rewrite Hid.
Qed.

Lemma FOP_filter_app {A} (R : A -> A -> Prop) (g : A -> bool) (a b : list A) :
  ForallOrdPairs R (a ++ b) -> ForallOrdPairs R (filter g a ++ b).
Proof.
  rewrite !FOP_app. intros [Ha [Hb Hab]].
  split; [now apply FOP_filter|]. split; [assumption|].
  apply Forall_forall. intros x Hx. apply filter_In in Hx.
  rewrite Forall_forall in Hab. apply Hab. tauto.
Qed.

Lemma fold_step_ascending : forall l out,
  ascending key_lt (out ++ l) -> ascending key_lt (fold_left step l out).
Proof.
  unfold ascending.
  induction l as [|c l IH]; intros out H; simpl.
  - now rewrite app_nil_r in H.
  - apply IH. destruct (step_shape out c) as [g [-> | ->]].
    + apply FOP_filter_app.
      apply FOP_app in H. destruct H as [Ha [Hb Hab]].
      inversion Hb as [|? ? _ Hl]; subst.
      apply FOP_app. split; [assumption|]. split; [assumption|].
      eapply Forall_impl; [|exact Hab]. intros x Hx.
      now inversion Hx.
    + rewrite <- app_assoc. simpl. now apply FOP_filter_app.
Qed.

(** X10: the reconciled list is in the order of [(start, -end)]: starts never
    decrease, and of two members with one start the wider comes first. *)
Theorem reconciled_list_ordered (text : str) (lists : list (list candidate)) :
  ForallOrdPairs
    (fun a b => s a < s b \/ (s a = s b /\ e b <= e a))
    (_merge_and_dedupe text lists).
Proof.
  assert (H : ascending key_lt (_merge_and_dedupe text lists)).
  { unfold _merge_and_dedupe. apply fold_step_ascending. simpl.
    apply (sort_stable_ascending key_lt key_lt_asym key_ge_trans). }
  unfold ascending in H.
  induction H as [|a l Ha _ IH]; constructor; [|assumption].
  eapply Forall_impl; [|exact Ha]. intros b Hb. simpl in Hb.
  apply key_lt_false in Hb. lia.
Qed.

(* ------------------------------------------------------------------ *)
(** ** Members are candidates; reconciling twice *)

Lemma flatten_member text lists x :
  In x (flatten text lists) ->
  exists L v l,
    In L lists /\ In (Tuple v l (s x) (e x)) L
    /\ x = mkEnt v (_sanitize_label l) (s x) (e x)
    /\ _within text (s x) (e x) = true.
Proof.
  rewrite flatten_In. intros [L [t [HL [Ht Hx]]]].
  destruct t as [v l s0 e0|]; simpl in Hx; [|destruct Hx].
  destruct (_within text s0 e0) eqn:Hw; [|destruct Hx].
  destruct Hx as [<-|[]]. simpl. exists L, v, l. auto.
Qed.

(** X11: every member of the reconciled list is one of the candidates, with its
    label in canonical form and its range inside the text: nothing is
    invented, widened or moved. *)
Theorem reconciled_members_are_candidates
    (text : str) (lists : list (list candidate)) (x : ent) :
  In x (_merge_and_dedupe text lists) ->
  exists L v l,
    In L lists /\ In (Tuple v l (s x) (e x)) L
    /\ x = mkEnt v (_sanitize_label l) (s x) (e x)
    /\ 0 <= s x < e x /\ e x <= len text.
Proof.
  intros Hx. apply merge_members in Hx.
  destruct (flatten_member text lists x Hx) as [L [v [l [HL [Ht [Heq Hw]]]]]].
  exists L, v, l. apply within_iff in Hw. tauto.
Qed.

Lemma reconciled_members_are_candidates_witness :
  exists L v l,
    In L [[Tuple (py "John") (py "person") 0 4]]
    /\ In (Tuple v l 0 4) L
    /\ mkEnt (py "John") (py "PERSON") 0 4 = mkEnt v (_sanitize_label l) 0 4
    /\ 0 <= 0 < 4 /\ 4 <= len (py "John Smith").
Proof.
  apply (reconciled_members_are_candidates (py "John Smith")
           [[Tuple (py "John") (py "person") 0 4]]
           (mkEnt (py "John") (py "PERSON") 0 4)).
  vm_compute. now left.
Defined.

Lemma sort_stable_fixed {A} (lt : A -> A -> bool) (l : list A) :
  ascending lt l -> sort_stable lt l = l.
Proof.
  unfold ascending. induction 1 as [|x l Hx _ IH]; [reflexivity|].
  simpl. rewrite IH. now apply insert_stable_head.
Qed.

Lemma fold_step_fixed : forall l out,
  no_duplicate_span (out ++ l) -> no_same_label_overlap (out ++ l) ->
  fold_left step l out = out ++ l.
Proof.
  unfold no_duplicate_span, no_same_label_overlap.
  induction l as [|c l IH]; intros out Hd Ho; simpl.
  - now rewrite app_nil_r.
  - assert (Hstep : step out c = out ++ [c]).
    { apply FOP_app in Hd, Ho.
      destruct Hd as [_ [_ Hd]], Ho as [_ [_ Ho]].
      rewrite Forall_forall in Hd, Ho.
      rewrite step_by_elements_eq. unfold step_by_elements.
      replace (existsb (same_span c) out) with false.
      - replace (existsb (clash c) out) with false; [reflexivity|].
        symmetry. apply not_true_iff_false. intros H.
        apply existsb_exists in H. destruct H as [x [Hx Hcl]].
        specialize (Ho x Hx). inversion Ho as [|? ? Hxc _]; subst.
        rewrite clash_sym in Hcl. congruence.
      - symmetry. apply not_true_iff_false. intros H.
        apply existsb_exists in H. destruct H as [x [Hx Hs]].
        specialize (Hd x Hx). inversion Hd as [|? ? Hxc _]; subst.
        rewrite same_span_sym in Hs. congruence. }
    rewrite Hstep, IH; rewrite <- ?app_assoc; simpl; auto.
Qed.

Lemma flatten_canonical text (out : list ent) :
  Forall (fun x => _sanitize_label (lbl x) = lbl x
                   /\ _within text (s x) (e x) = true) out ->
  flatten text [map as_candidate out] = out.
Proof.
  unfold flatten. cbn [flat_map]. rewrite app_nil_r.
  induction 1 as [|x out [Hl Hw] _ IH]; [reflexivity|].
  cbn [map flat_map]. rewrite IH. unfold as_candidate.
  rewrite accept_candidate_within by assumption. rewrite Hl.
  now destruct x.
Qed.

(** X12: reconciling the reconciled list once more, as a single batch, gives
    the same list back. *)
Theorem reconcile_idempotent (text : str) (lists : list (list candidate)) :
  _merge_and_dedupe text [map as_candidate (_merge_and_dedupe text lists)]
  = _merge_and_dedupe text lists.
Proof.
  set (out := _merge_and_dedupe text lists).
  assert (Hflat : flatten text [map as_candidate out] = out).
  { apply flatten_canonical. apply Forall_forall. intros x Hx.
    apply merge_members in Hx.
    destruct (flatten_member text lists x Hx) as [L [v [l [_ [_ [Heq Hw]]]]]].
    split; [|assumption]. rewrite Heq. simpl.
    apply sanitize_label_idem. }
  unfold _merge_and_dedupe at 1. rewrite Hflat.
  rewrite sort_stable_fixed.
  - apply (fold_step_fixed out []); simpl.
    + apply merge_no_duplicate_span.
    + apply merge_no_same_label_overlap.
  - unfold out, _merge_and_dedupe. apply fold_step_ascending. simpl.
    apply (sort_stable_ascending key_lt key_lt_asym key_ge_trans).
Qed.

(* ------------------------------------------------------------------ *)
(** ** [compute_line_position] and the offsets of the lines *)

Lemma build_offsets_lower lines : forall acc i,
  (i <= length lines)%nat -> acc <= nth i (Smart.build_offsets lines acc) 0.
Proof.
  intros acc i Hi. rewrite build_offsets_nth by assumption. unfold len. lia.
Qed.

Lemma line_position_from_offset : forall lines k off i col e0,
  (i < length lines)%nat -> 0 <= col <= len (nth i lines []) ->
  Feedback.line_position_from lines k off
    (nth i (Smart.build_offsets lines off) 0 + col) e0
  = (k + Z.of_nat i + 1, col, e0 - nth i (Smart.build_offsets lines off) 0).
Proof.
  induction lines as [|ln lines IH]; intros k off i col e0 Hi Hcol;
    [simpl in Hi; lia|].
  destruct i as [|i].
  - cbn [Feedback.line_position_from Smart.build_offsets nth] in *.
    replace (off + (len ln + 1) >? off + col) with true
      by (symmetry; apply Z.gtb_lt; lia).
    repeat (f_equal; try lia).
  - cbn [Smart.build_offsets nth] in *.
    cbn [Feedback.line_position_from].
    assert (Hi' : (i < length lines)%nat) by (simpl in Hi; lia).
    pose proof (build_offsets_lower lines (off + (len ln + 1)) i
                  (Nat.lt_le_incl _ _ Hi')) as Hlow.
    replace (off + (len ln + 1)
             >? nth i (Smart.build_offsets lines (off + (len ln + 1))) 0 + col)
      with false by (symmetry; rewrite Z.gtb_ltb; apply Z.ltb_ge; lia).
    rewrite IH by assumption.
    repeat (f_equal; try lia).
Qed.

(** X13: [compute_line_position] undoes [abs_pos]: the absolute offset of
    column [col] of line [i] (the column may be the one just after the line)
    is given back as line [i + 1], column [col]. *)
Theorem line_position_inverts_abs_pos (text : str) (i : nat) (col e0 : Z) :
  (i < length (splitlines text))%nat ->
  0 <= col <= len (nth i (splitlines text) []) ->
  Feedback.compute_line_position text
    (Smart.abs_pos (splitlines text) (Z.of_nat i) col) e0
  = (Z.of_nat i + 1, col,
     e0 - nth i (Smart.offsets (splitlines text)) 0).
Proof.
  intros Hi Hcol. unfold Feedback.compute_line_position, Smart.abs_pos,
    Smart.offsets. rewrite Nat2Z.id.
  rewrite line_position_from_offset by assumption. f_equal.
Qed.

Lemma line_position_inverts_abs_pos_witness :
  Feedback.compute_line_position (py "ab" ++ [LF] ++ py "cde")
    (Smart.abs_pos (splitlines (py "ab" ++ [LF] ++ py "cde")) (Z.of_nat 1) 2) 6
  = (Z.of_nat 1 + 1, 2,
     6 - nth 1 (Smart.offsets (splitlines (py "ab" ++ [LF] ++ py "cde"))) 0).
Proof.
  apply (line_position_inverts_abs_pos (py "ab" ++ [LF] ++ py "cde") 1 2 6).
  - vm_compute. lia.
  - vm_compute. split; discriminate.
Defined.

(** Every offset below the total falls in one line. *)
Lemma offset_in_some_line : forall lines off start,
  off <= start < off + len (unsplit lines) ->
  exists i col,
    (i < length lines)%nat /\ 0 <= col <= len (nth i lines [])
    /\ start = nth i (Smart.build_offsets lines off) 0 + col.
Proof.
  induction lines as [|ln lines IH]; intros off start Hs.
  - unfold len in Hs. simpl in Hs. lia.
  - destruct (Z_lt_le_dec start (off + (len ln + 1))) as [Hin|Hout].
    + exists 0%nat, (start - off). simpl. split; [lia|]. split; [lia|]. lia.
    + destruct (IH (off + (len ln + 1)) start) as [i [col [Hi [Hcol Heq]]]].
      { unfold unsplit, len in *. cbn [flat_map] in Hs.
        rewrite !length_app in Hs. simpl in Hs.
        unfold unsplit in *. lia. }
      exists (S i), col. simpl. split; [lia|]. split; assumption.
Qed.

Lemma slice_one {A} (l : list A) : forall a,
  slice l a (S a) = match nth_error l a with Some x => [x] | None => [] end.
Proof.
  unfold slice. intros a. replace (S a - a)%nat with 1%nat by lia.
  revert a. induction l as [|y l IH]; intros [|a]; try reflexivity.
  simpl. apply IH.
Qed.

(** X14: in a newline-joined text every start inside the text is found: the
    line number is between 1 and the number of lines, the column is within
    the line (or just after it, on the newline), [right - left] is
    [end - start], and a column within the line holds the character the text
    has at [start]. *)
Theorem line_position_found (text : str) (start e0 : Z) :
  newline_joined text ->
  0 <= start < len text ->
  exists i col,
    Feedback.compute_line_position text start e0
    = (Z.of_nat i + 1, col, col + (e0 - start))
    /\ (i < length (splitlines text))%nat
    /\ 0 <= col <= len (nth i (splitlines text) [])
    /\ (col < len (nth i (splitlines text) []) ->
        nth_error text (Z.to_nat start)
        = nth_error (nth i (splitlines text) []) (Z.to_nat col)).
Proof.
  intros Hnl Hs.
  destruct (splitlines_unsplit text Hnl) as [tail [Htail Hu]].
  assert (Htot : len text <= len (unsplit (splitlines text))).
  { rewrite <- Hu. unfold len. rewrite length_app. lia. }
  destruct (offset_in_some_line (splitlines text) 0 start)
    as [i [col [Hi [Hcol Heq]]]]; [lia|].
  exists i, col. split; [|split; [assumption | split; [assumption|]]].
  - unfold Feedback.compute_line_position. rewrite Heq.
    rewrite line_position_from_offset by assumption. repeat (f_equal; try lia).
  - intros Hlt.
    rewrite build_offsets_nth in Heq by lia.
    destruct (line_slice_in_text text i (Z.to_nat col) (S (Z.to_nat col))
                Hnl Hi) as [Hslice _]; [lia | unfold len in *; lia |].
    replace (length (unsplit (firstn i (splitlines text))) + S (Z.to_nat col))%nat
      with (S (length (unsplit (firstn i (splitlines text))) + Z.to_nat col))
      in Hslice by lia.
    rewrite !slice_one in Hslice.
    replace (Z.to_nat start)
      with (length (unsplit (firstn i (splitlines text))) + Z.to_nat col)%nat
      by (unfold len in *; lia).
    destruct (nth_error text _) eqn:H1;
      destruct (nth_error (nth i (splitlines text) []) (Z.to_nat col)) eqn:H2;
      congruence.
Qed.

Lemma line_position_found_witness :
  exists i col,
    Feedback.compute_line_position (py "ab" ++ [LF] ++ py "cde") 4 6
    = (Z.of_nat i + 1, col, col + (6 - 4))
    /\ (i < length (splitlines (py "ab" ++ [LF] ++ py "cde")))%nat.
Proof.
  destruct (line_position_found (py "ab" ++ [LF] ++ py "cde") 4 6)
    as [i [col [H1 [H2 _]]]].
  - unfold newline_joined. repeat constructor; intros H; vm_compute in H |- *;
      congruence.
  - vm_compute. split; [discriminate | reflexivity].
  - exists i, col. split; assumption.
Defined.

(* ------------------------------------------------------------------ *)
(** ** [normalize_entity] *)

Lemma line_position_from_shape : forall lines k off start e0,
  1 <= k + 1 -> off <= start ->
  let r := Feedback.line_position_from lines k off start e0 in
  r = (-1, -1, -1)
  \/ (1 <= fst (fst r) /\ 0 <= snd (fst r)
      /\ snd r - snd (fst r) = e0 - start).
Proof.
  induction lines as [|ln lines IH]; intros k off start e0 Hk Hoff; simpl.
  - now left.
  - destruct (off + (len ln + 1) >? start) eqn:Hgt.
    + right. simpl. lia.
    + rewrite Z.gtb_ltb in Hgt. apply Z.ltb_ge in Hgt. apply IH; lia.
Qed.

Lemma py_slice_length (text : str) s0 e0 :
  0 <= s0 -> s0 <= e0 -> e0 <= len text ->
  len (py_slice text s0 e0) = e0 - s0.
Proof.
  intros H0 H1 H2. rewrite py_slice_nonneg by lia.
  unfold len in *. rewrite slice_length; lia.
Qed.

Lemma feedback_sanitize_label_chars l :
  Forall label_char (Feedback.sanitize_label l).
Proof.
  change (Feedback.sanitize_label l) with (_sanitize_label (strip l)).
  eapply Forall_impl; [|exact (sanitize_label_chars_fixed (strip l))].
  unfold label_char. simpl. tauto.
Qed.

Lemma build_entity_spec text s0 e0 lbl v x :
  Feedback.build_entity text s0 e0 lbl v = Some x ->
  Feedback.start x = s0 /\ Feedback.end_ x = e0 /\ Feedback.label x = lbl
  /\ span_in_text text x /\ Feedback.value x <> []
  /\ line_metadata_consistent x.
Proof.
  unfold Feedback.build_entity.
  destruct ((0 <=? s0) && (s0 <? e0) && (e0 <=? len text)) eqn:Hb;
    [|discriminate].
  rewrite !andb_true_iff, !Z.leb_le, Z.ltb_lt in Hb.
  pose proof (line_position_from_shape (splitlines text) 0 0 s0 e0
                ltac:(lia) ltac:(lia)) as Hshape.
  unfold Feedback.compute_line_position.
  destruct (Feedback.line_position_from (splitlines text) 0 0 s0 e0)
    as [[ln lf] rt]. simpl in Hshape.
  intros H. injection H as <-. simpl.
  unfold span_in_text, line_metadata_consistent. simpl.
  split; [reflexivity|]. split; [reflexivity|]. split; [reflexivity|].
  split; [lia|]. split.
  - assert (Hsl : py_slice text s0 e0 <> []).
    { intros Hnil.
      assert (Hl : len (py_slice text s0 e0) = e0 - s0)
        by (apply py_slice_length; lia).
      rewrite Hnil in Hl. unfold len in Hl. simpl in Hl. lia. }
    destruct v as [v|]; [|assumption].
    destruct v as [|c v]; [assumption|].
    destruct (strip (c :: v)); [assumption | discriminate].
  - destruct Hshape as [Hm|Hf]; [left; injection Hm; auto | right; lia].
Qed.



(* ------------------------------------------------------------------ *)
(** ** [dedupe_overlaps] and the review loop keep to what they are given *)

Lemma dedupe_step_members out x y :
  In y (Feedback.dedupe_step out x) -> In y out \/ y = x.
Proof.
  unfold Feedback.dedupe_step.
  destruct (existsb (Feedback.same_span x) out); [tauto|].
  destruct (filter (Feedback.clash x) out) as [|c0 cs] eqn:Hcl.
  - intros H. apply in_app_or in H. destruct H as [H|[H|[]]]; auto.
  - rewrite <- Hcl. intros H. apply in_app_or in H. destruct H as [H|[H|[]]].
    + apply filter_In in H. tauto.
    + subst y.
      destruct (FeedbackFacts.widest_In x (filter (Feedback.clash x) out))
        as [Hw|Hw]; [now right|].
      apply filter_In in Hw. tauto.
Qed.

Lemma dedupe_overlaps_members ents y :
  In y (Feedback.dedupe_overlaps ents) -> In y ents.
Proof.
  unfold Feedback.dedupe_overlaps.
  rewrite <- (sort_stable_In Feedback.key_lt y ents).
  generalize (sort_stable Feedback.key_lt ents). intros l.
  assert (H : forall out, In y (fold_left Feedback.dedupe_step l out) ->
                          In y out \/ In y l).
  { induction l as [|x l IH]; intros out Hy; simpl in *; [tauto|].
    apply IH in Hy. destruct Hy as [Hy|Hy]; [|tauto].
    apply dedupe_step_members in Hy. intuition. }
  intros Hy. apply H in Hy. destruct Hy as [[]|Hy]. exact Hy.
Qed.

(** X16: [dedupe_overlaps] returns entities of its input only, unchanged, and
    no two of them share start, end and label or intersect under one
    label. *)
Theorem dedupe_overlaps_selects (ents : list Feedback.entity) :
  incl (Feedback.dedupe_overlaps ents) ents
  /\ Feedback.no_duplicate_span (Feedback.dedupe_overlaps ents)
  /\ Feedback.no_same_label_overlap (Feedback.dedupe_overlaps ents).
Proof.
  split; [intros y; apply dedupe_overlaps_members|].
  split.
  - apply FeedbackFacts.dedupe_overlaps_no_duplicate.
  - apply FeedbackFacts.dedupe_overlaps_no_overlap.
Qed.

Lemma review_keeps_spans text : forall clean inputs final out,
  Forall (fun x => span_in_text text x /\ Forall label_char (Feedback.label x))
         clean ->
  Forall (fun x => span_in_text text x /\ Forall label_char (Feedback.label x))
         final ->
  Feedback.review text clean inputs final = Returns out ->
  Forall (fun x => span_in_text text x /\ Forall label_char (Feedback.label x))
         out.
Proof.
  induction clean as [|x clean IH]; intros inputs final out Hc Hf Hr;
    cbn [Feedback.review] in Hr.
  - injection Hr as <-. assumption.
  - inversion Hc as [|? ? [Hx Hlx] Hc']; subst.
    destruct inputs as [|line inputs]; [discriminate|].
    assert (Hsame : forall f,
              Forall (fun x => span_in_text text x
                               /\ Forall label_char (Feedback.label x)) f ->
              Feedback.review text clean inputs f = Returns out ->
              Forall (fun x => span_in_text text x
                               /\ Forall label_char (Feedback.label x)) out)
      by (intros f Hf' Hr'; exact (IH inputs f out Hc' Hf' Hr')).
    assert (Hadd : forall y,
              span_in_text text y -> Forall label_char (Feedback.label y) ->
              Forall (fun x => span_in_text text x
                               /\ Forall label_char (Feedback.label x))
                     (final ++ [y]))
      by (intros y Hy Hly; apply Forall_app; split;
          [assumption | constructor; [split; assumption | constructor]]).
    cbv zeta in Hr.
    destruct (strip line) as [|c0 cmd0] eqn:Hcmd.
    { apply (Hsame _ (Hadd x Hx Hlx) Hr). }
    destruct (str_eqb (lower (c0 :: cmd0)) (py "x")); [exact (Hsame _ Hf Hr)|].
    destruct (startswith (lower (c0 :: cmd0)) (py "l ")).
    { refine (Hsame _ _ Hr).
      apply Hadd; [exact Hx | apply feedback_sanitize_label_chars]. }
    destruct (startswith (lower (c0 :: cmd0)) (py "e ")).
    { destruct (split (c0 :: cmd0)) as [|t1 [|t2 [|t3 [|t4 ts]]]];
        try exact (Hsame _ Hf Hr).
      destruct (py_int t2) as [s'|]; [|exact (Hsame _ Hf Hr)].
      destruct (py_int t3) as [e'|]; [|exact (Hsame _ Hf Hr)].
      destruct ((0 <=? s') && (s' <? e') && (e' <=? len text)) eqn:Hb;
        [|exact (Hsame _ Hf Hr)].
      refine (Hsame _ _ Hr).
      rewrite !andb_true_iff, !Z.leb_le, Z.ltb_lt in Hb.
      unfold Feedback.edit_entity.
      destruct (Feedback.compute_line_position text s' e') as [[? ?] ?].
      apply Hadd; [unfold span_in_text; simpl; lia | exact Hlx]. }
    destruct (str_eqb (lower (c0 :: cmd0)) (py "s")); [|exact (Hsame _ Hf Hr)].
    injection Hr as <-. assumption.
Qed.

(** X17: whatever is typed, every entity the review loop returns has its span
    in the text, [0 <= start < end <= len(text)], and a canonical label: an
    edit outside the text is refused and a new label is canonicalized. *)
Theorem review_result_spans_in_text
    (text : str) (entities : list Feedback.raw_entity) (inputs : list str)
    (out : list Feedback.entity) :
  Feedback.collect_user_feedback text entities inputs = Returns out ->
  Forall (fun x => span_in_text text x /\ Forall label_char (Feedback.label x))
         out.
Proof.
  unfold Feedback.collect_user_feedback. intros H.
  destruct (Feedback.review text _ inputs []) as [final|] eqn:Hr;
    [|discriminate].
  injection H as <-.
  assert (Hclean : Forall (fun x => span_in_text text x
                                    /\ Forall label_char (Feedback.label x))
                          (Feedback.clean_entities text entities)).
  { apply Forall_forall. intros x Hx. unfold Feedback.clean_entities in Hx.
    apply dedupe_overlaps_members in Hx. apply in_flat_map in Hx.
    destruct Hx as [ent [_ Hx]].
    destruct (Feedback.normalize_entity text ent) as [y|] eqn:Hn;
      [|destruct Hx].
    destruct Hx as [<-|[]].
    destruct ent as [s0 e0 l v | v l [[s0 e0]|] | s0 e0 | v l s0 e0 |];
      simpl in Hn; try discriminate;
      apply build_entity_spec in Hn;
      destruct Hn as [_ [_ [Hl [Hspan _]]]];
      (split; [assumption | rewrite Hl; apply feedback_sanitize_label_chars]). }
  pose proof (review_keeps_spans text _ inputs [] final Hclean
                (Forall_nil _) Hr) as Hfinal.
  apply Forall_forall. intros x Hx. apply dedupe_overlaps_members in Hx.
  rewrite Forall_forall in Hfinal. now apply Hfinal.
Qed.

Lemma review_result_spans_in_text_witness :
  Forall (fun x => span_in_text (py "John Smith was here") x
                   /\ Forall label_char (Feedback.label x))
    [Feedback.mkEntity 5 10 (py "PERSON") 1 5 10 (py "Smith")].
Proof.
  apply (review_result_spans_in_text (py "John Smith was here")
           [Feedback.ValueTuple None (py "person") 0 4;
            Feedback.ValueTuple None (py "person") 5 10]
           [py "e 2 6"; []]).
  vm_compute. reflexivity.
Defined.

(* ------------------------------------------------------------------ *)
(** ** utils.py: where [extract_spans_from_smart_config] takes its spans *)

(** A span emitted for one field on one row sits on one line of the window:
    the line, the column and the slice of the line it is. *)
Lemma field_span_on_line lines win_first win_last base_rel row f sp :
  0 <= win_first -> win_last <= len lines ->
  nonnegative_left f ->
  In sp (Smart.field_span lines win_first win_last base_rel row f) ->
  exists (i : nat) (col : Z),
    win_first <= Z.of_nat i < win_last
    /\ 0 <= col /\ col + len (Smart.value sp) <= len (nth i lines [])
    /\ py_slice (nth i lines []) col (col + len (Smart.value sp))
       = Smart.value sp
    /\ Smart.start_abs sp = nth i (Smart.offsets lines) 0 + col
    /\ Smart.end_abs sp = Smart.start_abs sp + len (Smart.value sp).
Proof.
  intros Hwf Hwl Hleft Hsp. unfold Smart.field_span in Hsp.
  destruct (Smart.label f) as [lbl|]; [|destruct Hsp].
  destruct (Smart.line f) as [ln|]; [|destruct Hsp].
  destruct (Smart.left f) as [left|] eqn:Hl; [|destruct Hsp].
  destruct (Smart.right f) as [right|]; [|destruct Hsp].
  specialize (Hleft left Hl).
  set (line_idx := row + (ln - base_rel)) in *.
  destruct ((line_idx <? win_first) || (line_idx >=? win_last)) eqn:Hwin;
    [destruct Hsp|].
  apply orb_false_iff in Hwin. destruct Hwin as [Hlo Hhi].
  apply Z.ltb_ge in Hlo. rewrite geb_ltb in Hhi.
  apply negb_false_iff, Z.ltb_lt in Hhi.
  set (i := Z.to_nat line_idx) in *.
  set (src := nth i lines []) in *.
  destruct (left >=? len src) eqn:Hfit; [destruct Hsp|].
  rewrite geb_ltb in Hfit. apply negb_false_iff, Z.ltb_lt in Hfit.
  set (r := Z.min (Z.max right left) (len src)) in *.
  assert (Hraw : py_slice src left r = slice src (Z.to_nat left) (Z.to_nat r))
    by (apply py_slice_nonneg; unfold r, len in *; lia).
  rewrite Hraw in Hsp.
  set (L := Z.to_nat left) in *. set (R := Z.to_nat r) in *.
  set (raw := slice src L R) in *.
  assert (HLR : (L <= R)%nat /\ (R <= length src)%nat)
    by (unfold L, R, r, len in *; lia).
  assert (Hrawlen : length raw = (R - L)%nat)
    by (apply slice_length; lia).
  destruct raw as [|c0 raw0] eqn:Hrawnil; [destruct Hsp|].
  rewrite <- Hrawnil in *. clear Hrawnil c0 raw0.
  destruct (strip raw) as [|v0 vs] eqn:Hval; [destruct Hsp|].
  rewrite <- Hval in *.
  destruct Hsp as [<-|[]].
  set (lead := (length raw - length (lstrip raw))%nat).
  set (m := length (strip raw)).
  pose proof (lstrip_length raw) as Hll.
  assert (Hm : (lead + m <= length raw)%nat).
  { unfold lead, m, strip.
    pose proof (rstrip_length (lstrip raw)). lia. }
  assert (Hvalue : strip raw = slice src (L + lead) (L + lead + m)).
  { rewrite (strip_slice raw) at 1. fold lead m. unfold raw.
    replace (L + lead + m)%nat with (L + (lead + m))%nat by lia.
    apply slice_slice; lia. }
  exists i, (left + Z.of_nat lead).
  cbn [Smart.value Smart.start_abs Smart.end_abs].
  split; [unfold i; lia|]. split; [lia|].
  split; [fold src; unfold len, m in *; lia|]. split.
  - fold src. rewrite py_slice_nonneg by (unfold len, m in *; lia).
    etransitivity; [|symmetry; exact Hvalue]. f_equal; unfold len, m, L; lia.
  - split; [|reflexivity]. unfold Smart.abs_pos. fold i.
    unfold len, lead. lia.
Qed.

(** Every span the function returns was cut by one field on one row. *)
Lemma extracted_span_origin text cfg sp :
  In sp (Smart.extract_spans_from_smart_config text cfg) ->
  exists g gfs base_rel row f,
    In (g, gfs) (Smart.sorted_groups (Smart.fields cfg))
    /\ Smart.min_line gfs = Some base_rel
    /\ In f gfs
    /\ In sp (Smart.field_span (splitlines text)
                (Z.max 0 (Smart.header_skip cfg))
                (len (splitlines text) - Z.max 0 (Smart.footer_skip cfg))
                base_rel row f).
Proof.
  intros Hsp. unfold Smart.extract_spans_from_smart_config in Hsp.
  apply in_flat_map in Hsp. destruct Hsp as [[g gfs] [Hg Hsp]].
  cbn [snd] in Hsp. unfold Smart.group_spans in Hsp.
  destruct gfs as [|f0 gfs0] eqn:Hgfs; [destruct Hsp|]. rewrite <- Hgfs in *.
  destruct (Smart.min_line gfs) as [base_rel|] eqn:Hmin; [|destruct Hsp].
  destruct (_ || _); [destruct Hsp|].
  apply SmartFacts.row_loop_In in Hsp.
  destruct Hsp as [r [f [_ [Hf Hsp]]]].
  exists g, gfs, base_rel, r, f. auto.
Qed.

(** X18: with no negative [left], every span comes from one row of the active
    window, never from a header or footer row, and never runs over the end of
    its row: it is the slice [col : col + len(value)] of that row, and its
    absolute start is the offset of the row plus [col]. *)
Theorem extracted_span_on_window_row
    (text : str) (cfg : Smart.config) (sp : Smart.span) :
  Forall nonnegative_left (Smart.fields cfg) ->
  In sp (Smart.extract_spans_from_smart_config text cfg) ->
  exists (i : nat) (col : Z),
    Z.max 0 (Smart.header_skip cfg) <= Z.of_nat i
    /\ Z.of_nat i < len (splitlines text) - Z.max 0 (Smart.footer_skip cfg)
    /\ 0 <= col
    /\ col + len (Smart.value sp) <= len (nth i (splitlines text) [])
    /\ py_slice (nth i (splitlines text) []) col (col + len (Smart.value sp))
       = Smart.value sp
    /\ Smart.start_abs sp = nth i (Smart.offsets (splitlines text)) 0 + col
    /\ Smart.end_abs sp = Smart.start_abs sp + len (Smart.value sp).
Proof.
  intros Hleft Hsp.
  destruct (extracted_span_origin text cfg sp Hsp)
    as [g [gfs [base_rel [row [f [Hg [_ [Hf Hfs]]]]]]]].
  assert (Hnn : nonnegative_left f).
  { rewrite Forall_forall in Hleft. apply Hleft.
    eapply sorted_groups_In; eassumption. }
  apply field_span_on_line in Hfs; [|lia|lia|assumption].
  destruct Hfs as [i [col [[Hlo Hhi] [Hc [Hfit [Hsl [Hst Hen]]]]]]].
  exists i, col. repeat (split; [assumption|]). assumption.
Qed.

Lemma extracted_span_on_window_row_witness :
  exists (i : nat) (col : Z),
    1 <= Z.of_nat i
    /\ py_slice (nth i (splitlines (py "ID" ++ [LF] ++ py " ab ")) []) col
         (col + 2) = py "ab".
Proof.
  destruct (extracted_span_on_window_row (py "ID" ++ [LF] ++ py " ab ")
              (Smart.mkConfig 1 0
                 [Smart.mkField (Some (py "X")) (Some 0) (Some 0) (Some 0)
                    (Some 4)])
              (Smart.mkSpan (py "ab") (py "X") 4 6))
    as [i [col [H1 [_ [_ [_ [H5 _]]]]]]].
  - repeat constructor. intros l Hl. injection Hl as <-. lia.
  - vm_compute. left. reflexivity.
  - exists i, col. split; [exact H1 | exact H5].
Defined.

(* ------------------------------------------------------------------ *)
(** ** The review loop takes the spans of a fixed-width report *)

(** X19: in a newline-joined text with no negative [left], [normalize_entity]
    accepts every extracted span handed on as [(value, label, start, end)]:
    the dict keeps the span and the value, its line number is the row the
    value was cut from, counted from 1, and [left] and [right] are the columns
    of the value in that row. *)
Theorem feedback_accepts_extracted_span
    (text : str) (cfg : Smart.config) (sp : Smart.span) :
  newline_joined text ->
  Forall nonnegative_left (Smart.fields cfg) ->
  In sp (Smart.extract_spans_from_smart_config text cfg) ->
  exists (i : nat) (col : Z),
    py_slice (nth i (splitlines text) []) col (col + len (Smart.value sp))
    = Smart.value sp
    /\ Feedback.normalize_entity text
         (Feedback.ValueTuple (Some (Smart.value sp)) (Smart.span_label sp)
            (Smart.start_abs sp) (Smart.end_abs sp))
       = Some (Feedback.mkEntity (Smart.start_abs sp) (Smart.end_abs sp)
                 (Feedback.sanitize_label (Smart.span_label sp))
                 (Z.of_nat i + 1) col (col + len (Smart.value sp))
                 (Smart.value sp)).
Proof.
  intros Hnl Hleft Hsp.
  pose proof (extracted_spans_located text cfg Hnl Hleft) as Hloc.
  rewrite Forall_forall in Hloc. specialize (Hloc sp Hsp).
  destruct Hloc as [_ [Hne [Hls [Hrs [H0 [Hend Hlen]]]]]].
  destruct (extracted_span_origin text cfg sp Hsp)
    as [g [gfs [base_rel [row [f [Hg [_ [Hf Hfs]]]]]]]].
  assert (Hnn : nonnegative_left f).
  { rewrite Forall_forall in Hleft. apply Hleft.
    eapply sorted_groups_In; eassumption. }
  apply field_span_on_line in Hfs; [|lia|lia|assumption].
  destruct Hfs as [i [col [[Hlo Hhi] [Hc [Hfit [Hsl [Hst _]]]]]]].
  exists i, col. split; [assumption|].
  assert (Hpos : 0 < len (Smart.value sp)).
  { destruct (Smart.value sp); [congruence | unfold len; simpl; lia]. }
  cbn [Feedback.normalize_entity]. unfold Feedback.build_entity.
  replace ((0 <=? Smart.start_abs sp) && (Smart.start_abs sp <? Smart.end_abs sp)
           && (Smart.end_abs sp <=? len text)) with true
    by (symmetry; rewrite !andb_true_iff, !Z.leb_le, Z.ltb_lt; lia).
  unfold Feedback.compute_line_position.
  assert (Hpos' : Feedback.line_position_from (splitlines text) 0 0
                    (Smart.start_abs sp) (Smart.end_abs sp)
                  = (Z.of_nat i + 1, col, col + len (Smart.value sp))).
  { rewrite Hst. unfold Smart.offsets in *.
    rewrite line_position_from_offset by (unfold len, str in *; lia).
    repeat (f_equal; try lia). }
  rewrite Hpos'.
  assert (Hstrip : strip (Smart.value sp) = Smart.value sp)
    by (unfold strip; rewrite Hls; exact Hrs).
  destruct (Smart.value sp) as [|c v]; [congruence|].
  rewrite Hstrip. reflexivity.
Qed.

Lemma feedback_accepts_extracted_span_witness :
  exists (i : nat) (col : Z),
    Feedback.normalize_entity (py "ID" ++ [LF] ++ py " ab ")
      (Feedback.ValueTuple (Some (py "ab")) (py "acct no") 4 6)
    = Some (Feedback.mkEntity 4 6 (Feedback.sanitize_label (py "acct no"))
              (Z.of_nat i + 1) col (col + 2) (py "ab")).
Proof.
  destruct (feedback_accepts_extracted_span (py "ID" ++ [LF] ++ py " ab ")
              (Smart.mkConfig 1 0
                 [Smart.mkField (Some (py "acct no")) (Some 0) (Some 0)
                    (Some 0) (Some 4)])
              (Smart.mkSpan (py "ab") (py "acct no") 4 6))
    as [i [col [_ H]]].
  - unfold newline_joined. repeat constructor; intros H; vm_compute in H |- *;
      congruence.
  - repeat constructor. intros l Hl. injection Hl as <-. lia.
  - vm_compute. left. reflexivity.
  - exists i, col. exact H.
Defined.

(* ------------------------------------------------------------------ *)
(** ** An empty window *)

Lemma flat_map_nothing {A B} (f : A -> list B) (l : list A) :
  (forall x, In x l -> f x = []) -> flat_map f l = [].
Proof.
  induction l as [|x l IH]; intros H; [reflexivity|].
  cbn [flat_map]. rewrite (H x (or_introl eq_refl)).
  apply IH. intros y Hy. apply H. now right.
Qed.

(** X20: when the header and footer rows together cover every line of the
    text, and so for the empty text, nothing is extracted, whatever the
    fields are. *)
Theorem empty_window_extracts_nothing (text : str) (cfg : Smart.config) :
  len (splitlines text)
  <= Z.max 0 (Smart.header_skip cfg) + Z.max 0 (Smart.footer_skip cfg) ->
  Smart.extract_spans_from_smart_config text cfg = [].
Proof.
  intros Hwin. unfold Smart.extract_spans_from_smart_config.
  apply flat_map_nothing. intros [g gfs] _. cbn [snd].
  unfold Smart.group_spans.
  destruct gfs as [|f0 gfs0]; [reflexivity|].
  destruct (Smart.min_line (f0 :: gfs0)) as [base_rel|]; [|reflexivity].
  destruct (Z.ltb_spec (Z.max 0 (Smart.header_skip cfg) + base_rel)
              (Z.max 0 (Smart.header_skip cfg))) as [Hlt|Hge];
    [reflexivity|].
  replace (Z.max 0 (Smart.header_skip cfg) + base_rel
           >=? len (splitlines text) - Z.max 0 (Smart.footer_skip cfg))
    with true by (symmetry; rewrite geb_ltb; apply negb_true_iff, Z.ltb_ge; lia).
  reflexivity.
Qed.

Lemma empty_window_extracts_nothing_witness :
  Smart.extract_spans_from_smart_config (py "HEAD" ++ [LF] ++ py "FOOT")
    (Smart.mkConfig 1 1
       [Smart.mkField (Some (py "X")) (Some 0) (Some 0) (Some 0) (Some 4)])
  = [].
Proof.
  apply (empty_window_extracts_nothing (py "HEAD" ++ [LF] ++ py "FOOT")).
  vm_compute. discriminate.
Defined.

(* ------------------------------------------------------------------ *)
(** ** The groups of the configuration *)

Lemma setdefault_append_keys groups g f :
  map fst (Smart.setdefault_append groups g f)
  = if existsb (fun k => k =? g) (map fst groups) then map fst groups
    else map fst groups ++ [g].
Proof.
  induction groups as [|[g' fs'] groups IH]; [reflexivity|].
  cbn [Smart.setdefault_append map fst existsb].
  destruct (g' =? g); [reflexivity|].
  cbn [map fst orb]. rewrite IH.
  now destruct (existsb _ (map fst groups)).
Qed.

Lemma setdefault_append_entry groups g f g' l' :
  NoDup (map fst groups) ->
  In (g', l') (Smart.setdefault_append groups g f) ->
  (g' <> g /\ In (g', l') groups)
  \/ (g' = g
      /\ ((exists l, In (g, l) groups /\ l' = l ++ [f])
          \/ (~ In g (map fst groups) /\ l' = [f]))).
Proof.
  induction groups as [|[g1 l1] groups IH]; intros Hnd Hin.
  - destruct Hin as [Hin|[]]. injection Hin as <- <-.
    right. split; [reflexivity|]. right. split; [intros []|reflexivity].
  - cbn [Smart.setdefault_append] in Hin. cbn [map fst] in Hnd.
    inversion Hnd as [|? ? Hfresh Hnd']; subst.
    destruct (Z.eqb_spec g1 g) as [->|Hneq].
    + destruct Hin as [Hin|Hin].
      * injection Hin as <- <-. right. split; [reflexivity|].
        left. exists l1. split; [now left | reflexivity].
      * left. split; [|now right]. intros ->. apply Hfresh.
        apply in_map_iff. exists (g, l'). auto.
    + destruct Hin as [Hin|Hin].
      * injection Hin as <- <-. left. split; [assumption | now left].
      * destruct (IH Hnd' Hin) as [[Hd Hg]|[-> [[l [Hl ->]]|[Hno ->]]]].
        -- left. split; [assumption | now right].
        -- right. split; [reflexivity|]. left. exists l.
           split; [now right | reflexivity].
        -- right. split; [reflexivity|]. right. split; [|reflexivity].
           cbn [map fst]. intros [Hk|Hk]; [congruence | contradiction].
Qed.

Lemma group_fields_snoc fs f :
  Smart.group_fields (fs ++ [f])
  = Smart.setdefault_append (Smart.group_fields fs) (Smart.group_of f) f.
Proof. unfold Smart.group_fields. now rewrite fold_left_app. Qed.

Lemma filter_snoc {A} (p : A -> bool) (l : list A) (x : A) :
  filter p (l ++ [x]) = filter p l ++ (if p x then [x] else []).
Proof. rewrite filter_app. reflexivity. Qed.

(** The dict [groups]: its keys are distinct, every field has its group among
    them, and the list under a key holds the fields of that group, in the
    order of the configuration. *)
Lemma group_fields_spec fs :
  NoDup (map fst (Smart.group_fields fs))
  /\ (forall f, In f fs ->
        In (Smart.group_of f) (map fst (Smart.group_fields fs)))
  /\ (forall g l, In (g, l) (Smart.group_fields fs) ->
        l = filter (fun f => Smart.group_of f =? g) fs).
Proof.
  induction fs as [|f fs IH] using rev_ind.
  - split; [constructor|]. split; [intros f []|intros g l []].
  - destruct IH as [Hnd [Hkeys Hlists]].
    rewrite group_fields_snoc.
    set (G := Smart.group_fields fs) in *. set (g0 := Smart.group_of f).
    assert (Hex : existsb (fun k => k =? g0) (map fst G) = true
                  <-> In g0 (map fst G)).
    { rewrite existsb_exists. split.
      - intros [k [Hk Hkg]]. apply Z.eqb_eq in Hkg. now subst.
      - intros Hk. exists g0. split; [assumption | apply Z.eqb_refl]. }
    split; [|split].
    + rewrite setdefault_append_keys.
      destruct (existsb _ (map fst G)) eqn:Hb; [assumption|].
      apply NoDup_app; [assumption | repeat constructor; intros [] |].
      intros a Ha [<-|[]]. apply Hex in Ha. congruence.
    + intros f' Hf'. rewrite setdefault_append_keys.
      apply in_app_or in Hf'. destruct Hf' as [Hf'|[<-|[]]].
      * specialize (Hkeys f' Hf').
        destruct (existsb _ (map fst G)); [assumption|].
        apply in_or_app. now left.
      * fold g0. destruct (existsb _ (map fst G)) eqn:Hb.
        -- now apply Hex.
        -- apply in_or_app. right. now left.
    + intros g l Hin. rewrite filter_snoc. fold g0.
      destruct (setdefault_append_entry G g0 f g l Hnd Hin)
        as [[Hd Hg]|[-> [[l0 [Hl ->]]|[Hno ->]]]].
      * rewrite (Hlists g l Hg).
        replace (g0 =? g) with false
          by (symmetry; apply Z.eqb_neq; congruence).
        now rewrite app_nil_r.
      * rewrite (Hlists g0 l0 Hl), Z.eqb_refl. reflexivity.
      * rewrite Z.eqb_refl.
        destruct (filter (fun f1 => Smart.group_of f1 =? g0) fs)
          as [|x xs] eqn:Hfl; [reflexivity|].
        exfalso. apply Hno.
        assert (Hx : In x (filter (fun f1 => Smart.group_of f1 =? g0) fs))
          by (rewrite Hfl; now left).
        apply filter_In in Hx. destruct Hx as [Hx Hxg].
        apply Z.eqb_eq in Hxg. rewrite <- Hxg. now apply Hkeys.
Qed.

Lemma field_span_fields lines win_first win_last base_rel row f sp :
  In sp (Smart.field_span lines win_first win_last base_rel row f) ->
  exists lbl, Smart.label f = Some lbl /\ Smart.span_label sp = strip lbl
              /\ Smart.left f <> None /\ Smart.right f <> None.
Proof.
  unfold Smart.field_span. intros Hsp.
  destruct (Smart.label f) as [lbl|]; [|destruct Hsp].
  destruct (Smart.line f) as [ln|]; [|destruct Hsp].
  destruct (Smart.left f) as [left|]; [|destruct Hsp].
  destruct (Smart.right f) as [right|]; [|destruct Hsp].
  exists lbl. split; [reflexivity|].
  split; [|split; discriminate].
  destruct (_ || _); [destruct Hsp|].
  destruct (left >=? _); [destruct Hsp|].
  destruct (py_slice _ left _); [destruct Hsp|].
  destruct (strip (_ :: _)); [destruct Hsp|].
  destruct Hsp as [<-|[]]. reflexivity.
Qed.

(** X21: every span comes from a configured field whose [label], [left] and
    [right] are readable, carries the stripped label of that field, and
    belongs to a group in which every field has a readable [line]: one field
    without a usable [line] silences the whole group it is in. *)
Theorem extracted_span_provenance
    (text : str) (cfg : Smart.config) (sp : Smart.span) :
  In sp (Smart.extract_spans_from_smart_config text cfg) ->
  exists f lbl,
    In f (Smart.fields cfg)
    /\ Smart.label f = Some lbl /\ Smart.span_label sp = strip lbl
    /\ Smart.left f <> None /\ Smart.right f <> None
    /\ forall f', In f' (Smart.fields cfg) ->
                  Smart.group_of f' = Smart.group_of f ->
                  Smart.line f' <> None.
Proof.
  intros Hsp.
  destruct (extracted_span_origin text cfg sp Hsp)
    as [g [gfs [base_rel [row [f [Hg [Hmin [Hf Hfs]]]]]]]].
  destruct (field_span_fields _ _ _ _ _ _ _ Hfs) as [lbl [Hlbl [Hsl [Hl Hr]]]].
  exists f, lbl.
  split; [eapply sorted_groups_In; eassumption|].
  repeat (split; [assumption|]).
  unfold Smart.sorted_groups in Hg. apply sort_stable_In in Hg.
  destruct (group_fields_spec (Smart.fields cfg)) as [_ [_ Hlists]].
  pose proof (Hlists g gfs Hg) as Hgfs.
  assert (Hfg : Smart.group_of f = g).
  { rewrite Hgfs in Hf. apply filter_In in Hf. now apply Z.eqb_eq. }
  intros f' Hf' Hsame.
  pose proof (min_line_readable gfs base_rel Hmin) as Hread.
  rewrite Forall_forall in Hread. apply Hread.
  rewrite Hgfs. apply filter_In. split; [assumption|].
  apply Z.eqb_eq. congruence.
Qed.

Lemma extracted_span_provenance_witness :
  exists f lbl,
    In f [Smart.mkField (Some (py " NAME ")) (Some 1) (Some 0) (Some 0) (Some 8)]
    /\ Smart.label f = Some lbl
    /\ Smart.span_label (Smart.mkSpan (py "JOHN DOE") (py "NAME") 0 8)
       = strip lbl.
Proof.
  destruct (extracted_span_provenance (py "JOHN DOE  EXTRA")
              (Smart.mkConfig 0 0
                 [Smart.mkField (Some (py " NAME ")) (Some 1) (Some 0) (Some 0)
                    (Some 8)])
              (Smart.mkSpan (py "JOHN DOE") (py "NAME") 0 8))
    as [f [lbl [H1 [H2 [H3 _]]]]].
  - vm_compute. left. reflexivity.
  - exists f, lbl. repeat split; assumption.
Defined.

(* ------------------------------------------------------------------ *)
(** ** utils.py: [clean_entity_spans] *)

(** The two ends of a kept tuple. *)
Lemma seen_before_cons seen p s0 e0 :
  Utils.seen_before (p :: seen) s0 e0
  = ((fst p =? s0) && (snd p =? e0)) || Utils.seen_before seen s0 e0.
Proof. reflexivity. Qed.

(** The loop invariant: [seen] holds the ends of the kept tuples, and the
    kept tuples are apart from one another. *)
Lemma clean_step_invariant st ent :
  (forall s0 e0, Utils.seen_before (fst st) s0 e0
                 = existsb (fun c => (Utils.start c =? s0)
                                     && (Utils.end_ c =? e0)) (snd st)) ->
  ForallOrdPairs apart (snd st) ->
  (forall s0 e0, Utils.seen_before (fst (Utils.clean_step st ent)) s0 e0
                 = existsb (fun c => (Utils.start c =? s0)
                                     && (Utils.end_ c =? e0))
                     (snd (Utils.clean_step st ent)))
  /\ ForallOrdPairs apart (snd (Utils.clean_step st ent)).
Proof.
  intros Hseen Hapart. unfold Utils.clean_step.
  destruct (Utils.unpack ent) as [c|]; [|split; assumption].
  destruct (Utils.seen_before (fst st) (Utils.start c) (Utils.end_ c))
    eqn:Hdup; [split; assumption|].
  destruct (existsb (Utils.overlaps (Utils.start c) (Utils.end_ c)) (snd st))
    eqn:Hov; [split; assumption|].
  cbn [fst snd]. split.
  - intros s0 e0. rewrite seen_before_cons, existsb_app, Hseen.
    cbn [fst snd existsb]. rewrite orb_false_r. apply orb_comm.
  - apply FOP_snoc; [assumption|].
    apply Forall_forall. intros a Ha. split.
    + destruct (Utils.overlaps (Utils.start c) (Utils.end_ c) a) eqn:Ha';
        [|reflexivity].
      rewrite <- Hov. symmetry. apply existsb_exists. eauto.
    + intros [Hs He]. rewrite Hseen in Hdup.
      apply not_true_iff_false in Hdup. apply Hdup.
      apply existsb_exists. exists a. split; [assumption|].
      rewrite Hs, He, !Z.eqb_refl. reflexivity.
Qed.

Lemma clean_fold_invariant entities : forall st,
  (forall s0 e0, Utils.seen_before (fst st) s0 e0
                 = existsb (fun c => (Utils.start c =? s0)
                                     && (Utils.end_ c =? e0)) (snd st)) ->
  ForallOrdPairs apart (snd st) ->
  (forall s0 e0,
     Utils.seen_before (fst (fold_left Utils.clean_step entities st)) s0 e0
     = existsb (fun c => (Utils.start c =? s0) && (Utils.end_ c =? e0))
         (snd (fold_left Utils.clean_step entities st)))
  /\ ForallOrdPairs apart (snd (fold_left Utils.clean_step entities st)).
Proof.
  induction entities as [|ent entities IH]; intros st Hseen Hapart;
    [split; assumption|].
  cbn [fold_left].
  destruct (clean_step_invariant st ent Hseen Hapart) as [Hseen' Hapart'].
  now apply IH.
Qed.

(** X22: no two tuples of the result overlap, whatever their labels are, and no
    two have the same [start] and [end]: of two spans [a] before [b], [b]
    ends at or before the start of [a], or starts at or after its end. *)
Theorem cleaned_spans_apart (entities : list Utils.raw_span) :
  ForallOrdPairs
    (fun a b =>
       (Utils.end_ b <= Utils.start a \/ Utils.end_ a <= Utils.start b)
       /\ ~ (Utils.start a = Utils.start b /\ Utils.end_ a = Utils.end_ b))
    (Utils.clean_entity_spans entities).
Proof.
  unfold Utils.clean_entity_spans.
  destruct (clean_fold_invariant entities ([], [])) as [_ Hapart];
    [reflexivity | constructor|].
  induction Hapart as [|a l Ha _ IH]; constructor; [|assumption].
  eapply Forall_impl; [|exact Ha].
  intros b [Hov Hends]. split; [|assumption].
  unfold Utils.overlaps in Hov. apply negb_false_iff, orb_true_iff in Hov.
  rewrite Z.leb_le, geb_ltb, negb_true_iff, Z.ltb_ge in Hov. lia.
Qed.

(* ------------------------------------------------------------------ *)
(** ** What [clean_entity_spans] keeps *)

Lemma clean_step_grows st ent :
  exists added, snd (Utils.clean_step st ent) = snd st ++ added
                /\ (forall c, In c added -> Utils.unpack ent = Some c).
Proof.
  unfold Utils.clean_step.
  destruct (Utils.unpack ent) as [c|];
    [|exists []; split; [now rewrite app_nil_r | intros c []]].
  destruct (Utils.seen_before _ _ _);
    [exists []; split; [now rewrite app_nil_r | intros ? []]|].
  destruct (existsb _ _);
    [exists []; split; [now rewrite app_nil_r | intros ? []]|].
  exists [c]. split; [reflexivity|]. intros c' [<-|[]]. reflexivity.
Qed.

Lemma clean_fold_grows entities : forall st,
  exists added,
    snd (fold_left Utils.clean_step entities st) = snd st ++ added
    /\ (forall c, In c added ->
          exists ent, In ent entities /\ Utils.unpack ent = Some c).
Proof.
  induction entities as [|ent entities IH]; intros st.
  - exists []. split; [now rewrite app_nil_r | intros c []].
  - cbn [fold_left].
    destruct (clean_step_grows st ent) as [a1 [H1 Hfrom1]].
    destruct (IH (Utils.clean_step st ent)) as [a2 [H2 Hfrom2]].
    exists (a1 ++ a2). split.
    + rewrite H2, H1, app_assoc. reflexivity.
    + intros c Hc. apply in_app_or in Hc. destruct Hc as [Hc|Hc].
      * exists ent. split; [now left | now apply Hfrom1].
      * destruct (Hfrom2 c Hc) as [ent' [Hin Hu]].
        exists ent'. split; [now right | assumption].
Qed.

(** X23: a usable tuple is kept whenever no usable tuple before it in the
    input overlaps it or has the same [start] and [end]; in particular the
    first usable tuple is always kept.  What is kept is what was unpacked:
    a 4-tuple gets the empty record. *)
Theorem clean_keeps_unclashing
    (before after : list Utils.raw_span) (ent : Utils.raw_span)
    (c : Utils.cleaned_span) :
  Utils.unpack ent = Some c ->
  (forall ent' c', In ent' before -> Utils.unpack ent' = Some c' ->
                   Utils.overlaps (Utils.start c) (Utils.end_ c) c' = false
                   /\ ~ (Utils.start c' = Utils.start c
                         /\ Utils.end_ c' = Utils.end_ c)) ->
  In c (Utils.clean_entity_spans (before ++ ent :: after)).
Proof.
  intros Hc Hfree. unfold Utils.clean_entity_spans.
  rewrite fold_left_app. cbn [fold_left].
  set (st := fold_left Utils.clean_step before ([], [])).
  destruct (clean_fold_invariant before ([], [])) as [Hseen _];
    [reflexivity | constructor|]. fold st in Hseen.
  destruct (clean_fold_grows before ([], [])) as [kept [Hkept Hfrom]].
  fold st in Hkept. cbn [snd app] in Hkept.
  assert (Hstep : snd (Utils.clean_step st ent) = snd st ++ [c]).
  { unfold Utils.clean_step. rewrite Hc, Hseen.
    replace (existsb (fun c0 => (Utils.start c0 =? Utils.start c)
                                && (Utils.end_ c0 =? Utils.end_ c)) (snd st))
      with false.
    - replace (existsb (Utils.overlaps (Utils.start c) (Utils.end_ c)) (snd st))
        with false; [reflexivity|].
      symmetry. apply not_true_iff_false. intros Hex.
      apply existsb_exists in Hex. destruct Hex as [c' [Hin Hov]].
      rewrite Hkept in Hin. destruct (Hfrom c' Hin) as [ent' [Hb Hu]].
      destruct (Hfree ent' c' Hb Hu) as [Hno _]. congruence.
    - symmetry. apply not_true_iff_false. intros Hex.
      apply existsb_exists in Hex. destruct Hex as [c' [Hin Heq]].
      rewrite Hkept in Hin. destruct (Hfrom c' Hin) as [ent' [Hb Hu]].
      destruct (Hfree ent' c' Hb Hu) as [_ Hno]. apply Hno.
      apply andb_true_iff in Heq. now rewrite !Z.eqb_eq in Heq. }
  destruct (clean_fold_grows after (Utils.clean_step st ent)) as [more [Hm _]].
  rewrite Hm, Hstep. apply in_or_app. left. apply in_or_app. right. now left.
Qed.

Lemma clean_keeps_unclashing_witness :
  In (Utils.mkCleaned (py "Smith") (py "NAME") 5 10 [])
    (Utils.clean_entity_spans
       ([Utils.Five (py "John") (py "NAME") 0 4 (py "r1"); Utils.Refused]
        ++ Utils.Four (py "Smith") (py "NAME") 5 10
        :: [Utils.Four (py "Smith was") (py "NOTE") 5 14])).
Proof.
  apply (clean_keeps_unclashing
           [Utils.Five (py "John") (py "NAME") 0 4 (py "r1"); Utils.Refused]
           [Utils.Four (py "Smith was") (py "NOTE") 5 14]
           (Utils.Four (py "Smith") (py "NAME") 5 10)).
  - reflexivity.
  - intros ent' c' [<-|[<-|[]]] Hu; [|discriminate].
    injection Hu as <-. split; [reflexivity|]. simpl. lia.
Defined.

(* ------------------------------------------------------------------ *)
(** ** Cleaning what is clean *)

Lemma clean_fold_fixed l : forall st,
  (forall s0 e0, Utils.seen_before (fst st) s0 e0
                 = existsb (fun c => (Utils.start c =? s0)
                                     && (Utils.end_ c =? e0)) (snd st)) ->
  ForallOrdPairs apart (snd st ++ l) ->
  snd (fold_left Utils.clean_step (map as_raw_span l) st) = snd st ++ l.
Proof.
  induction l as [|c l IH]; intros st Hseen Hapart.
  - now rewrite app_nil_r.
  - cbn [map fold_left].
    assert (Hc : Forall (fun a => apart a c) (snd st)).
    { apply FOP_app in Hapart. destruct Hapart as [_ [_ Hcross]].
      eapply Forall_impl; [|exact Hcross].
      intros a Ha. inversion Ha; assumption. }
    rewrite Forall_forall in Hc.
    assert (Hstep : Utils.clean_step st (as_raw_span c)
                    = ((Utils.start c, Utils.end_ c) :: fst st, snd st ++ [c])).
    { unfold Utils.clean_step, as_raw_span. cbn [Utils.unpack].
      cbn [Utils.start Utils.end_]. rewrite Hseen.
      replace (existsb (fun c0 => (Utils.start c0 =? Utils.start c)
                                  && (Utils.end_ c0 =? Utils.end_ c)) (snd st))
        with false.
      - replace (existsb (Utils.overlaps (Utils.start c) (Utils.end_ c))
                   (snd st)) with false; [now destruct c|].
        symmetry. apply not_true_iff_false. intros Hex.
        apply existsb_exists in Hex. destruct Hex as [a [Hin Hov]].
        destruct (Hc a Hin) as [Hno _]. congruence.
      - symmetry. apply not_true_iff_false. intros Hex.
        apply existsb_exists in Hex. destruct Hex as [a [Hin Heq]].
        destruct (Hc a Hin) as [_ Hno]. apply Hno.
        apply andb_true_iff in Heq. now rewrite !Z.eqb_eq in Heq. }
    rewrite Hstep, IH.
    + cbn [snd]. now rewrite <- app_assoc.
    + intros s0 e0. cbn [fst snd]. rewrite seen_before_cons, existsb_app, Hseen.
      cbn [fst snd existsb]. rewrite orb_false_r. apply orb_comm.
    + cbn [snd]. now rewrite <- app_assoc.
Qed.

(** X24: cleaning is idempotent: the result, handed back as 5-tuples, is
    returned as it is, in the same order. *)
Theorem clean_entity_spans_idempotent (entities : list Utils.raw_span) :
  Utils.clean_entity_spans
    (map as_raw_span (Utils.clean_entity_spans entities))
  = Utils.clean_entity_spans entities.
Proof.
  set (kept := Utils.clean_entity_spans entities).
  assert (Hapart : ForallOrdPairs apart kept).
  { unfold kept, Utils.clean_entity_spans.
    destruct (clean_fold_invariant entities ([], [])) as [_ H];
      [reflexivity | constructor | exact H]. }
  unfold Utils.clean_entity_spans at 1.
  rewrite (clean_fold_fixed kept ([], [])); [reflexivity | reflexivity|].
  exact Hapart.
Qed.

(* ------------------------------------------------------------------ *)
(** ** utils.py: [highlight_entities_in_text] *)

Lemma highlight_one_length style_func (text : str) (ent : Z * Z * str) :
  entity_in_bounds (len text) ent ->
  len (Utils.highlight_one style_func text ent)
  = len text
    + len (fst (Utils.markers style_func (snd ent)))
    + len (snd (Utils.markers style_func (snd ent))).
Proof.
  destruct ent as [[s0 e0] label]. unfold entity_in_bounds. cbn [fst snd].
  intros [[H0 H1] H2]. unfold Utils.highlight_one.
  destruct (Utils.markers style_func label) as [prefix suffix]. cbn [fst snd].
  pose proof (py_slice_length text 0 s0 ltac:(lia)) as Ha.
  pose proof (py_slice_length text s0 e0 H0 H1 H2) as Hb.
  pose proof (py_slice_length text e0 (len text)) as Hc.
  unfold len in *. rewrite !length_app. lia.
Qed.

Lemma highlight_fold_length style_func entities : forall text : str,
  Forall (entity_in_bounds (len text)) entities ->
  len (fold_left (Utils.highlight_one style_func) entities text)
  = len text + markers_length style_func entities.
Proof.
  induction entities as [|ent entities IH]; intros text Hb.
  - cbn [fold_left markers_length fold_right]. lia.
  - inversion Hb as [|? ? Hent Hrest]; subst. cbn [fold_left].
    pose proof (highlight_one_length style_func text ent Hent) as Hone.
    rewrite IH.
    + rewrite Hone. cbn [markers_length fold_right].
      fold (markers_length style_func entities). lia.
    + eapply Forall_impl; [|exact Hrest].
      intros [[s0 e0] l]. unfold entity_in_bounds. cbn [fst snd].
      pose proof (Zle_0_nat (length (fst (Utils.markers style_func (snd ent))))).
      pose proof (Zle_0_nat (length (snd (Utils.markers style_func (snd ent))))).
      unfold len in *. lia.
Qed.

Lemma markers_length_insert style_func lt x l :
  markers_length style_func (insert_stable lt x l)
  = markers_length style_func (x :: l).
Proof.
  induction l as [|y l IH]; [reflexivity|].
  cbn [insert_stable]. destruct (lt y x); [|reflexivity].
  cbn [markers_length fold_right] in *.
  fold (markers_length style_func (insert_stable lt x l)).
  fold (markers_length style_func l) in *. rewrite IH. lia.
Qed.

Lemma markers_length_sorted style_func lt l :
  markers_length style_func (sort_stable lt l) = markers_length style_func l.
Proof.
  induction l as [|x l IH]; [reflexivity|].
  cbn [sort_stable]. rewrite markers_length_insert.
  cbn [markers_length fold_right].
  fold (markers_length style_func (sort_stable lt l)).
  fold (markers_length style_func l). now rewrite IH.
Qed.

(** X25: when every entity has [0 <= start <= end <= len(text)], the
    highlighted text is longer than the text by exactly the lengths of the
    markers, overlapping or repeated entities included: each turn adds one
    prefix and one suffix and drops nothing. *)
Theorem highlighted_text_length
    (text : str) (entities : list (Z * Z * str))
    (style_func : option (str -> str * str)) :
  Forall (entity_in_bounds (len text)) entities ->
  len (Utils.highlight_entities_in_text text entities style_func)
  = len text + markers_length style_func entities.
Proof.
  intros Hb. unfold Utils.highlight_entities_in_text, Utils.by_start_descending.
  rewrite highlight_fold_length.
  - now rewrite markers_length_sorted.
  - apply Forall_forall. intros ent Hent. apply sort_stable_In in Hent.
    rewrite Forall_forall in Hb. now apply Hb.
Qed.

Lemma highlighted_text_length_witness :
  len (Utils.highlight_entities_in_text (py "John Smith")
         [(0, 4, py "A"); (5, 10, py "B")] (Some Utils.default_style))
  = len (py "John Smith")
    + markers_length (Some Utils.default_style)
        [(0, 4, py "A"); (5, 10, py "B")].
Proof.
  apply (highlighted_text_length (py "John Smith")
           [(0, 4, py "A"); (5, 10, py "B")] (Some Utils.default_style)).
  repeat constructor; vm_compute; discriminate.
Defined.

(* ------------------------------------------------------------------ *)
(** ** obfuscator.py: [pad_or_trim] *)

(** X26: for a positive [length] the result has exactly [length] characters
    and starts with the value, or is the first [length] characters of it; for
    [length <= 0] the value comes back unchanged, whatever its length. *)
Theorem pad_or_trim_length (value : str) (length : Z) :
  (0 < length ->
   len (pad_or_trim value length) = length
   /\ firstn (Z.to_nat (Z.min length (len value))) (pad_or_trim value length)
      = firstn (Z.to_nat length) value)
  /\ (length <= 0 -> pad_or_trim value length = value).
Proof.
  unfold pad_or_trim. split.
  - intros Hpos.
    replace (length <=? 0) with false by (symmetry; apply Z.leb_gt; lia).
    destruct (Z.eqb_spec (len value) length) as [Heq|Hneq].
    + split; [assumption|]. rewrite Heq, Z.min_id. reflexivity.
    + destruct (Z.ltb_spec (len value) length) as [Hlt|Hge].
      * unfold ljust. split.
        -- unfold len in *. rewrite length_app, repeat_length. lia.
        -- replace (Z.min length (len value)) with (len value) by lia.
           unfold len. rewrite Nat2Z.id, firstn_app, Nat.sub_diag, firstn_all.
           cbn [firstn]. rewrite app_nil_r.
           symmetry. apply firstn_all2. unfold len in *. lia.
      * rewrite py_slice_nonneg by lia. unfold slice.
        cbn [Z.to_nat skipn]. rewrite Nat.sub_0_r. split.
        -- unfold len in *. rewrite length_firstn. lia.
        -- replace (Z.min length (len value)) with length by lia.
           rewrite firstn_firstn, Nat.min_id. reflexivity.
  - intros Hle.
    replace (length <=? 0) with true by (symmetry; apply Z.leb_le; lia).
    reflexivity.
Qed.

Lemma pad_or_trim_length_witness :
  len (pad_or_trim (py "4111-1111") 4) = 4.
Proof.
  apply (proj1 (pad_or_trim_length (py "4111-1111") 4)). lia.
Defined.
